(** * Spectra: the implicitly restarted Arnoldi solver and its Hessenberg
      eigen-decomposition

    A shallow embedding of [include/Spectra/GenEigsBase.h] and
    [include/Spectra/LinAlg/UpperHessenbergEigen.h].

    Conventions of the embedding.
    - [Eigen::Index] is a signed integer; it is modelled by [Z].  Every value
      an index takes below is bounded by the sizes of the vectors involved, so
      no wrap-around is written out.
    - A dynamic Eigen vector is the [list] of its coefficients.  [operator[]]
      and [coeff] carry an [eigen_assert] on the index: a read outside
      [0, size) is a failed assertion (and undefined behaviour once assertions
      are compiled out).  It is modelled by the exception
      [index_out_of_range].
    - C++ exceptions are the [Throw] outcomes of the [result] type; member
      functions of a class are state transformers [M S A] that keep the
      object's state when they throw.
    - The scalar type is a template parameter: definitions are generic over
      a type [R] with the operations of [ScalarOps] (IEEE arithmetic and the
      libm functions used), without assuming any algebraic law.  [binary64]
      below is the instance for [double].
    - The collaborators whose source is not part of these two headers (the
      Arnoldi factorization, the shifted QR kernels, the Schur reductions and
      the index sorter) are interfaces, given as type classes. *)

From Stdlib Require Import ZArith String Lia Floats.SpecFloat.
From stdpp Require Import base list sorting.

Local Open Scope Z_scope.

(** ** Outcomes of a call *)

Inductive exception : Type :=
| invalid_argument (what : string)
| logic_error (what : string)
| runtime_error (what : string)
| index_out_of_range (index size : Z)
| empty_matrix.

(** [OutOfFuel] belongs to the model only: loops are unrolled along a fuel
    argument, and every entry point below passes enough of it. *)
Inductive result (A : Type) : Type :=
| Ok (a : A)
| Throw (e : exception)
| OutOfFuel.

Arguments Ok {A} a.
Arguments Throw {A} e.
Arguments OutOfFuel {A}.

Definition rbind {A B : Type} (m : result A) (k : A -> result B) : result B :=
  match m with
  | Ok a => k a
  | Throw e => Throw e
  | OutOfFuel => OutOfFuel
  end.

(** Member functions: a state transformer that may throw.  The state after a
    throw is the state reached when the exception left the function. *)
Definition M (S A : Type) : Type := S -> result A * S.

Definition ret {S A : Type} (a : A) : M S A := fun s => (Ok a, s).

Definition bind {S A B : Type} (m : M S A) (k : A -> M S B) : M S B :=
  fun s =>
    match m s with
    | (Ok a, s') => k a s'
    | (Throw e, s') => (Throw e, s')
    | (OutOfFuel, s') => (OutOfFuel, s')
    end.

Definition throw {S A : Type} (e : exception) : M S A := fun s => (Throw e, s).
Definition get {S : Type} : M S S := fun s => (Ok s, s).
Definition gets {S A : Type} (f : S -> A) : M S A := fun s => (Ok (f s), s).
Definition modify {S : Type} (f : S -> S) : M S unit := fun s => (Ok tt, f s).
Definition lift {S A : Type} (r : result A) : M S A := fun s => (r, s).

Declare Scope monad_scope.
Delimit Scope monad_scope with monad.
Notation "'let*' x := m 'in' k" := (bind m (fun x => k))
  (at level 10, x pattern, m at level 100, k at level 200) : monad_scope.
Notation "'let+' x := m 'in' k" := (rbind m (fun x => k))
  (at level 10, x pattern, m at level 100, k at level 200) : monad_scope.
Local Open Scope monad_scope.

(** [Eigen::Index] *)
Definition Index : Type := Z.

(** A loop over a list of indices that updates a local value and may throw:
    [for (Index i = lo; i < hi; i++) body], where the body leaves [i] alone,
    is [rfold body (seqZ lo (hi - lo))]. *)
Fixpoint rfold {A B : Type} (body : B -> A -> result B) (l : list A) (b : B)
    : result B :=
  match l with
  | [] => Ok b
  | a :: l' => let+ b' := body b a in rfold body l' b'
  end.

(** ** Scalars *)

(** The arithmetic of a real scalar type ([float], [double], ...): the
    operators of the language and the [<cmath>] functions the two headers
    call.  [fhypot] is [std::abs] of a [std::complex] and [fpow] is
    [std::pow]. *)
Class ScalarOps (R : Type) : Type := {
  of_Z : Z -> R;
  fadd : R -> R -> R;
  fsub : R -> R -> R;
  fmul : R -> R -> R;
  fdiv : R -> R -> R;
  fneg : R -> R;
  fabs : R -> R;
  fsqrt : R -> R;
  fhypot : R -> R -> R;
  fpow : R -> R -> R;
  flt : R -> R -> bool;
  feq : R -> R -> bool
}.

(** [Util/TypeTraits.h] is not among the two headers; the two constants the
    code takes from it are parameters: [TypeTraits<T>::epsilon()], the machine
    epsilon, and [TypeTraits<T>::min()], the smallest positive normalized
    value. *)
Class TypeTraits (R : Type) : Type := {
  TypeTraits_epsilon : R;
  TypeTraits_min : R
}.

(** [std::max(a, b)], which is also what Eigen's [numext::maxi] and the
    coefficient-wise [.max()] compute: [(a < b) ? b : a]. *)
Definition fmax {R : Type} `{ScalarOps R} (a b : R) : R := if flt a b then b else a.

(** [std::complex<R>] *)
Record Complex (R : Type) : Type := mkComplex { real : R; imag : R }.
Arguments mkComplex {R} real imag.
Arguments real {R} c.
Arguments imag {R} c.

Section ComplexOps.
Context {R : Type} `{ScalarOps R}.

Definition of_real (x : R) : Complex R := mkComplex x (of_Z 0).
Definition conj (v : Complex R) : Complex R := mkComplex (real v) (fneg (imag v)).
(** [operator==] of [std::complex]: both parts compare equal. *)
Definition ceq (v1 v2 : Complex R) : bool :=
  feq (real v1) (real v2) && feq (imag v1) (imag v2).
(** [std::norm]: the squared magnitude. *)
Definition norm (v : Complex R) : R :=
  fadd (fmul (real v) (real v)) (fmul (imag v) (imag v)).
(** [std::abs] of a complex number. *)
Definition cabs (v : Complex R) : R := fhypot (real v) (imag v).

(** The two exact tests, declared in [RestartArnoldi] and again in
    [GenEigsBase]. *)
Definition is_complex (v : Complex R) : bool := negb (feq (imag v) (of_Z 0)).
Definition is_conj (v1 v2 : Complex R) : bool := ceq v1 (conj v2).
End ComplexOps.

(** ** IEEE binary64, the instance for [double] *)

Module binary64.
Definition t : Type := spec_float.
Definition prec : Z := 53.
Definition emax : Z := 1024.
Definition b64_of_Z (z : Z) : t := binary_normalize prec emax z 0 false.
Definition b64_add : t -> t -> t := SFadd prec emax.
Definition b64_mul : t -> t -> t := SFmul prec emax.
Definition b64_sqrt : t -> t := SFsqrt prec emax.
(** 2^-52 and 2^-1022 *)
Definition epsilon : t := binary_normalize prec emax 1 (-52) false.
Definition min : t := binary_normalize prec emax 1 (-1022) false.
(** [pow(epsilon, 2.0 / 3)] as glibc returns it, 0x1.428a2f98d7292p-35. *)
Definition eps23 : t := S754_finite false 5674179970822802 (-87).
(** [std::pow] is tabulated at the one base the headers use and is the
    invalid-operation result elsewhere; [std::abs] of a complex number is
    evaluated without the rescaling of [hypot]. *)
Definition b64_pow (x y : t) : t :=
  if SFeqb x epsilon then eps23 else S754_nan.
Definition b64_hypot (x y : t) : t :=
  b64_sqrt (b64_add (b64_mul x x) (b64_mul y y)).

#[global] Instance scalar : ScalarOps t := {|
  of_Z := b64_of_Z;
  fadd := b64_add;
  fsub := SFsub prec emax;
  fmul := b64_mul;
  fdiv := SFdiv prec emax;
  fneg := SFopp;
  fabs := SFabs;
  fsqrt := b64_sqrt;
  fhypot := b64_hypot;
  fpow := b64_pow;
  flt := SFltb;
  feq := SFeqb
|}.

#[global] Instance traits : TypeTraits t := {|
  TypeTraits_epsilon := epsilon;
  TypeTraits_min := min
|}.

(** A complex number with integer parts. *)
Definition c (re im : Z) : Complex t := mkComplex (b64_of_Z re) (b64_of_Z im).
End binary64.

(** ** Eigen vectors and matrices *)

Module Eigen.

(** [v[i]] / [v.coeff(i)] with Eigen's index assertion. *)
Definition coeff {A : Type} (v : list A) (i : Index) : result A :=
match (if 0 <=? i then v !! Z.to_nat i else None) with
| Some x => Ok x
| None => Throw (index_out_of_range i (Z.of_nat (length v)))
end.

(** [v.size()] *)
Definition size {A : Type} (v : list A) : Index := Z.of_nat (length v).

(** [v.coeffRef(i) = x], with the same assertion. *)
Definition set_coeff {A : Type} (v : list A) (i : Index) (x : A) : result (list A) :=
if (0 <=? i) && (i <? size v) then Ok (<[Z.to_nat i := x]> v)
else Throw (index_out_of_range i (size v)).

(** [v.head(n)]: the first [n] coefficients; Eigen asserts [0 <= n <= size]. *)
Definition head {A : Type} (v : list A) (n : Index) : result (list A) :=
if (0 <=? n) && (n <=? size v) then Ok (take (Z.to_nat n) v)
else Throw (index_out_of_range n (size v)).

(** [v.tail(n)]: the last [n] coefficients. *)
Definition tail {A : Type} (v : list A) (n : Index) : result (list A) :=
if (0 <=? n) && (n <=? size v) then Ok (drop (Z.to_nat (size v - n)) v)
else Throw (index_out_of_range n (size v)).

(** [a.count()] of a boolean array. *)
Definition count (a : list bool) : Index := Z.of_nat (length (List.filter id a)).

(** The contents of storage that was allocated and not yet written
  ([Vector v(n)], [v.resize(n)]). *)
Class Uninit (A : Type) : Type := indeterminate : A.

(** ** Dense matrices *)

(** [Eigen::Matrix<A, Dynamic, Dynamic>], column-major: the list of its
  columns, each of [rows] coefficients. *)
Record DenseMatrix (A : Type) : Type := mkMatrix {
rows : Index;
columns : list (list A)
}.
Arguments mkMatrix {A} rows columns.
Arguments rows {A} d.
Arguments columns {A} d.

Section MatrixOps.
Context {A : Type}.

Definition cols (m : DenseMatrix A) : Index := size (columns m).

(** [m.col(j)] *)
Definition col (m : DenseMatrix A) (j : Index) : result (list A) :=
  coeff (columns m) j.

(** [m.coeff(i, j)] / [m(i, j)] *)
Definition mcoeff (m : DenseMatrix A) (i j : Index) : result A :=
  let+ c := col m j in coeff c i.

(** [m.col(j) = c] *)
Definition set_col (m : DenseMatrix A) (j : Index) (c : list A)
    : result (DenseMatrix A) :=
  let+ cs := set_coeff (columns m) j c in Ok (mkMatrix (rows m) cs).

(** [m.coeffRef(i, j) = x] *)
Definition set_mcoeff (m : DenseMatrix A) (i j : Index) (x : A)
    : result (DenseMatrix A) :=
  let+ c := col m j in
  let+ c' := set_coeff c i x in
  set_col m j c'.

Definition mmap {B : Type} (f : A -> B) (m : DenseMatrix A) : DenseMatrix B :=
  mkMatrix (rows m) (fmap (M := list) (fmap (M := list) f) (columns m)).

(** [Matrix::Constant(r, c, x)], also the shape of [Matrix m(r, c)]. *)
Definition constant (r c : Index) (x : A) : DenseMatrix A :=
  mkMatrix r (replicate (Z.to_nat c) (replicate (Z.to_nat r) x)).

(** [std::swap(v[i], v[k])], and [m.col(i).swap(m.col(k))] on the list of
    columns. *)
Definition swap (v : list A) (i k : Index) : result (list A) :=
  let+ vi := coeff v i in
  let+ vk := coeff v k in
  let+ v' := set_coeff v i vk in
  set_coeff v' k vi.
End MatrixOps.

Section RealMatrixOps.
Context {R : Type} `{ScalarOps R}.

(** [m.cwiseAbs()] *)
Definition cwiseAbs (m : DenseMatrix R) : DenseMatrix R := mmap fabs m.

(** [m.maxCoeff()]: a reduction by [max] over the coefficients in storage
    order; Eigen asserts that the matrix is not empty. *)
Definition maxCoeff (m : DenseMatrix R) : result R :=
  match concat (columns m) with
  | [] => Throw empty_matrix
  | x :: rest => Ok (fold_left fmax rest x)
  end.

(** [m / scale] *)
Definition div_scalar (m : DenseMatrix R) (scale : R) : DenseMatrix R :=
  mmap (fun x => fdiv x scale) m.

(** The visitor of [v.minCoeff(&k)]: the running minimum is replaced only by
    a strictly smaller coefficient, so [k] is the first position of the
    minimum. *)
Fixpoint min_visit (v : list R) (j : Index) (res : R) (k : Index) : Index :=
  match v with
  | [] => k
  | x :: v' => if flt x res then min_visit v' (j + 1) x j
               else min_visit v' (j + 1) res k
  end.

Definition minCoeff_index (v : list R) : result Index :=
  match v with
  | [] => Throw empty_matrix
  | x :: v' => Ok (min_visit v' 1 x 0)
  end.

(** [m.diagonal()] of a complex matrix and its Frobenius norm [m.norm()]. *)
Definition diagonal {A : Type} (m : DenseMatrix A) : result (list A) :=
  rfold (fun d i => let+ x := mcoeff m i i in Ok (d ++ [x]))
        (seqZ 0 (Z.min (rows m) (cols m))) [].

Definition mnorm (m : DenseMatrix (Complex R)) : R :=
  fsqrt (fold_left fadd (fmap norm (concat (columns m))) (of_Z 0)).

(** [Matrix::Identity(r, c)] for a scalar type with the given zero and one. *)
Definition identity {A : Type} (zero one : A) (r c : Index) : DenseMatrix A :=
  mkMatrix r (fmap (fun j => fmap (fun i => if i =? j then one else zero) (seqZ 0 r))
                  (seqZ 0 c)).
End RealMatrixOps.
End Eigen.

(** ** UpperHessenbergEigen, default implementation for real matrices *)

(** The Hessenberg-aware real Schur reduction [UpperHessenbergSchur] of
    [LinAlg/UpperHessenbergSchur.h]: [compute] followed by [swap_T] and
    [swap_U] hands over the quasi-triangular [T] and the orthogonal [U], or
    throws. *)
Class RealSchur (R : Type) : Type := {
  schur_compute : Eigen.DenseMatrix R -> result (Eigen.DenseMatrix R * Eigen.DenseMatrix R)
}.

Module UpperHessenbergEigen.
Section Real.
Context {R : Type} `{ScalarOps R} `{!RealSchur R} `{!Eigen.Uninit (Complex R)}.

(** The private [doComputeEigenvectors]: the back substitution on [m_matT]
    and the back transformation of [m_eivec].  It reads [m_eivalues],
    writes these two matrices only and has no [throw]; no property below
    depends on its arithmetic, which is not unfolded. *)
Variable doComputeEigenvectors :
  list (Complex R) -> Eigen.DenseMatrix R -> Eigen.DenseMatrix R ->
  Eigen.DenseMatrix R * Eigen.DenseMatrix R.

Record t : Type := mkT {
  m_n : Index;
  m_matT : Eigen.DenseMatrix R;
  m_eivec : Eigen.DenseMatrix R;
  m_eivalues : list (Complex R);
  m_computed : bool
}.

Definition set_n (n : Index) (s : t) : t :=
  mkT n (m_matT s) (m_eivec s) (m_eivalues s) (m_computed s).
Definition set_schur (T U : Eigen.DenseMatrix R) (s : t) : t :=
  mkT (m_n s) T U (m_eivalues s) (m_computed s).
Definition set_eivalues (v : list (Complex R)) (s : t) : t :=
  mkT (m_n s) (m_matT s) (m_eivec s) v (m_computed s).
Definition set_computed (b : bool) (s : t) : t :=
  mkT (m_n s) (m_matT s) (m_eivec s) (m_eivalues s) b.

(** [UpperHessenbergEigen()] *)
Definition default : t :=
  mkT 0 (Eigen.mkMatrix 0 []) (Eigen.mkMatrix 0 []) [] false.

(** One turn of the [while (i < m_n)] loop that reads the eigenvalues off
    the diagonal blocks of [m_matT]; returns the next [i]. *)
Definition eigenvalue_block (n : Index) (T : Eigen.DenseMatrix R) (i : Index)
    (ev : list (Complex R)) : result (Index * list (Complex R)) :=
  let+ real_block :=
    (if i =? n - 1 then Ok true
     else let+ sub := Eigen.mcoeff T (i + 1) i in Ok (feq sub (of_Z 0))) in
  if real_block : bool then
    let+ d := Eigen.mcoeff T i i in
    let+ ev' := Eigen.set_coeff ev i (of_real d) in
    Ok (i + 1, ev')
  else
    let+ tii := Eigen.mcoeff T i i in
    let+ tjj := Eigen.mcoeff T (i + 1) (i + 1) in
    let p := fmul (fdiv (of_Z 1) (of_Z 2)) (fsub tii tjj) in
    let+ t0 := Eigen.mcoeff T (i + 1) i in
    let+ t1 := Eigen.mcoeff T i (i + 1) in
    let maxval := fmax (fabs p) (fmax (fabs t0) (fabs t1)) in
    let t0' := fdiv t0 maxval in
    let t1' := fdiv t1 maxval in
    let p0 := fdiv p maxval in
    let z := fmul maxval (fsqrt (fabs (fadd (fmul p0 p0) (fmul t0' t1')))) in
    let+ ev1 := Eigen.set_coeff ev i (mkComplex (fadd tjj p) z) in
    let+ ev2 := Eigen.set_coeff ev1 (i + 1) (mkComplex (fadd tjj p) (fneg z)) in
    Ok (i + 2, ev2).

Fixpoint eigenvalue_loop (fuel : nat) (n : Index) (T : Eigen.DenseMatrix R)
    (i : Index) (ev : list (Complex R)) : result (list (Complex R)) :=
  match fuel with
  | O => OutOfFuel
  | S fuel' =>
      if i <? n then
        let+ (i', ev') := eigenvalue_block n T i ev in
        eigenvalue_loop fuel' n T i' ev'
      else Ok ev
  end.

(** [m_eivalues *= scale] *)
Definition scale_back (scale : R) (ev : list (Complex R)) : list (Complex R) :=
  fmap (fun v => mkComplex (fmul (real v) scale) (fmul (imag v) scale)) ev.

(** The scaling divisor of [compute]: [mat.cwiseAbs().maxCoeff()]. *)
Definition scale_of (mat : Eigen.DenseMatrix R) : result R :=
  Eigen.maxCoeff (Eigen.cwiseAbs mat).

Definition compute (mat : Eigen.DenseMatrix R) : M t unit :=
  if negb (Eigen.rows mat =? Eigen.cols mat) then
    throw (invalid_argument "UpperHessenbergEigen: matrix must be square")
  else
    let* _ := modify (set_n (Eigen.rows mat)) in
    let* scale := lift (scale_of mat) in
    let* (T, U) := lift (schur_compute (Eigen.div_scalar mat scale)) in
    let* _ := modify (set_schur T U) in
    let* n := gets m_n in
    let* ev := lift (eigenvalue_loop (S (Z.to_nat n)) n T 0
                       (replicate (Z.to_nat n) Eigen.indeterminate)) in
    let* _ := modify (set_eivalues ev) in
    let* _ := modify (fun s =>
                let '(T', V') := doComputeEigenvectors (m_eivalues s) (m_matT s) (m_eivec s) in
                set_schur T' V' s) in
    let* _ := modify (fun s => set_eivalues (scale_back scale (m_eivalues s)) s) in
    modify (set_computed true).

(** [UpperHessenbergEigen(mat)]: when [compute] throws, so does the
    constructor and there is no object. *)
Definition construct (mat : Eigen.DenseMatrix R) : result t :=
  match compute mat (mkT (Eigen.rows mat) (Eigen.mkMatrix 0 []) (Eigen.mkMatrix 0 []) [] false) with
  | (Ok _, s) => Ok s
  | (Throw e, _) => Throw e
  | (OutOfFuel, _) => OutOfFuel
  end.

Definition eigenvalues : M t (list (Complex R)) :=
  let* computed := gets m_computed in
  if negb computed then
    throw (logic_error "UpperHessenbergEigen: need to call compute() first")
  else gets m_eivalues.

(** [v.normalize()] on a complex column: divide by the norm when the squared
    norm is positive. *)
Definition normalize (c : list (Complex R)) : list (Complex R) :=
  let z := fold_left fadd (fmap norm c) (of_Z 0) in
  if flt (of_Z 0) z
  then fmap (fun v => mkComplex (fdiv (real v) (fsqrt z)) (fdiv (imag v) (fsqrt z))) c
  else c.

(** One turn of the loop over [j] in [eigenvectors]; returns the next [j]. *)
Definition eigenvector_block (n : Index) (V : Eigen.DenseMatrix R)
    (ev : list (Complex R)) (j : Index) (matV : Eigen.DenseMatrix (Complex R))
    : result (Index * Eigen.DenseMatrix (Complex R)) :=
  let+ lam := Eigen.coeff ev j in
  if feq (imag lam) (of_Z 0) || (j + 1 =? n) then
    let+ cj := Eigen.col V j in
    let+ matV' := Eigen.set_col matV j (normalize (fmap of_real cj)) in
    Ok (j + 1, matV')
  else
    let+ cj := Eigen.col V j in
    let+ cj1 := Eigen.col V (j + 1) in
    let+ _ := Eigen.col matV j in
    let+ _ := Eigen.col matV (j + 1) in
    let a := zip_with (fun x y => mkComplex x y) cj cj1 in
    let b := zip_with (fun x y => mkComplex x (fneg y)) cj cj1 in
    let+ matV1 := Eigen.set_col matV j (normalize a) in
    let+ matV2 := Eigen.set_col matV1 (j + 1) (normalize b) in
    Ok (j + 1 + 1, matV2).

Fixpoint eigenvector_loop (fuel : nat) (n : Index) (V : Eigen.DenseMatrix R)
    (ev : list (Complex R)) (j : Index) (matV : Eigen.DenseMatrix (Complex R))
    : result (Eigen.DenseMatrix (Complex R)) :=
  match fuel with
  | O => OutOfFuel
  | S fuel' =>
      if j <? n then
        let+ (j', matV') := eigenvector_block n V ev j matV in
        eigenvector_loop fuel' n V ev j' matV'
      else Ok matV
  end.

Definition eigenvectors : M t (Eigen.DenseMatrix (Complex R)) :=
  let* computed := gets m_computed in
  if negb computed then
    throw (logic_error "UpperHessenbergEigen: need to call compute() first")
  else
    let* s := get in
    let n := Eigen.cols (m_eivec s) in
    lift (eigenvector_loop (S (Z.to_nat n)) n (m_eivec s) (m_eivalues s) 0
            (Eigen.constant n n Eigen.indeterminate)).
End Real.
End UpperHessenbergEigen.

(** ** UpperHessenbergEigen, partial specialization for complex matrices *)

(** [Eigen::ComplexSchur<Matrix>], reduced to what the class uses:
    [computeFromHessenberg(H, Q, computeU)] and the accessors [info()],
    [matrixT()] and [matrixU()]. *)
Class ComplexSchur (R : Type) : Type := {
  ComplexSchurSolver : Type;
  schur_default : ComplexSchurSolver;
  computeFromHessenberg :
    ComplexSchurSolver -> Eigen.DenseMatrix (Complex R) ->
    Eigen.DenseMatrix (Complex R) -> bool -> ComplexSchurSolver;
  schur_success : ComplexSchurSolver -> bool;
  matrixT : ComplexSchurSolver -> Eigen.DenseMatrix (Complex R);
  matrixU : ComplexSchurSolver -> Eigen.DenseMatrix (Complex R)
}.

Module UpperHessenbergEigenComplex.
Section Cplx.
Context {R : Type} `{ScalarOps R} `{!ComplexSchur R}.

(** The private [doComputeEigenvectors(matrixnorm)]: the triangular solve
    for [X] and the product [U X] with normalized columns.  It reads the
    Schur factors and writes [m_eivec] only; it has no [throw] and its
    arithmetic is not unfolded. *)
Variable doComputeEigenvectors :
  R -> ComplexSchurSolver -> list (Complex R) -> Eigen.DenseMatrix (Complex R).

Record t : Type := mkT {
  m_n : Index;
  m_schur : ComplexSchurSolver;
  m_eivec : Eigen.DenseMatrix (Complex R);
  m_eivalues : list (Complex R);
  m_computed : bool
}.

Definition set_schur (sc : ComplexSchurSolver) (s : t) : t :=
  mkT (m_n s) sc (m_eivec s) (m_eivalues s) (m_computed s).
Definition set_eivec (V : Eigen.DenseMatrix (Complex R)) (s : t) : t :=
  mkT (m_n s) (m_schur s) V (m_eivalues s) (m_computed s).
Definition set_eivalues (v : list (Complex R)) (s : t) : t :=
  mkT (m_n s) (m_schur s) (m_eivec s) v (m_computed s).
Definition set_computed (b : bool) (s : t) : t :=
  mkT (m_n s) (m_schur s) (m_eivec s) (m_eivalues s) b.

Definition default : t := mkT 0 schur_default (Eigen.mkMatrix 0 []) [] false.

(** One turn of the loop of [sortEigenvalues] on the pair
    ([m_eivalues], [m_eivec]); [n] is [m_eivalues.size()]. *)
Definition sort_step (computeEigenvectors : bool) (n : Index)
    (st : list (Complex R) * Eigen.DenseMatrix (Complex R)) (i : Index)
    : result (list (Complex R) * Eigen.DenseMatrix (Complex R)) :=
  let '(ev, V) := st in
  let+ tl := Eigen.tail (fmap cabs ev) (n - i) in
  let+ k := Eigen.minCoeff_index tl in
  if negb (k =? 0) then
    let k' := k + i in
    let+ ev' := Eigen.swap ev k' i in
    if computeEigenvectors then
      let+ cs := Eigen.swap (Eigen.columns V) i k' in
      Ok (ev', Eigen.mkMatrix (Eigen.rows V) cs)
    else Ok (ev', V)
  else Ok (ev, V).

Definition sortEigenvalues_on (computeEigenvectors : bool)
    (ev : list (Complex R)) (V : Eigen.DenseMatrix (Complex R))
    : result (list (Complex R) * Eigen.DenseMatrix (Complex R)) :=
  let n := Eigen.size ev in
  rfold (sort_step computeEigenvectors n) (seqZ 0 n) (ev, V).

Definition sortEigenvalues (computeEigenvectors : bool) : M t unit :=
  let* s := get in
  let* (ev, V) := lift (sortEigenvalues_on computeEigenvectors (m_eivalues s) (m_eivec s)) in
  let* _ := modify (set_eivalues ev) in
  modify (set_eivec V).

Definition compute (mat : Eigen.DenseMatrix (Complex R)) : M t unit :=
  if negb (Eigen.rows mat =? Eigen.cols mat) then
    throw (invalid_argument "UpperHessenbergEigen: matrix must be square")
  else
    let* _ := modify (set_eivec (Eigen.identity (of_real (of_Z 0)) (of_real (of_Z 1))
                                   (Eigen.rows mat) (Eigen.cols mat))) in
    let* _ := modify (fun s =>
                set_schur (computeFromHessenberg (m_schur s) mat (m_eivec s) true) s) in
    let* sc := gets m_schur in
    let* _ :=
      (if schur_success sc then
         let* d := lift (Eigen.diagonal (matrixT sc)) in
         let* _ := modify (set_eivalues d) in
         let* _ := modify (fun s =>
                     set_eivec (doComputeEigenvectors (Eigen.mnorm (matrixT sc))
                                  (m_schur s) (m_eivalues s)) s) in
         sortEigenvalues true
       else throw (runtime_error "UpperHessenbergEigen: eigen decomposition failed")) in
    modify (set_computed true).

Definition construct (mat : Eigen.DenseMatrix (Complex R)) : result t :=
  match compute mat (mkT (Eigen.rows mat) schur_default (Eigen.mkMatrix 0 []) [] false) with
  | (Ok _, s) => Ok s
  | (Throw e, _) => Throw e
  | (OutOfFuel, _) => OutOfFuel
  end.

Definition eigenvalues : M t (list (Complex R)) :=
  let* computed := gets m_computed in
  if negb computed then
    throw (logic_error "UpperHessenbergEigen: need to call compute() first")
  else gets m_eivalues.

Definition eigenvectors : M t (Eigen.DenseMatrix (Complex R)) :=
  let* computed := gets m_computed in
  if negb computed then
    throw (logic_error "UpperHessenbergEigen: need to call compute() first")
  else gets m_eivec.
End Cplx.
End UpperHessenbergEigenComplex.

(** ** UpperHessenbergEigen (complex): the eigenvectors of the Schur form *)

(** The sum, the difference and the negation of [std::complex] work part by
    part.  The product and the quotient are those of the language runtime,
    which treats infinities and overflow on its own: they are operations of
    the scalar type. *)
Class ComplexArith (R : Type) : Type := {
  cmul : Complex R -> Complex R -> Complex R;
  cdiv : Complex R -> Complex R -> Complex R
}.

Section ComplexSums.
Context {R : Type} `{ScalarOps R}.

Definition cadd (a b : Complex R) : Complex R :=
  mkComplex (fadd (real a) (real b)) (fadd (imag a) (imag b)).
Definition csub (a b : Complex R) : Complex R :=
  mkComplex (fsub (real a) (real b)) (fsub (imag a) (imag b)).
Definition cneg (a : Complex R) : Complex R :=
  mkComplex (fneg (real a)) (fneg (imag a)).
End ComplexSums.

(** [m.row(i).segment(start, len)] and [m.col(j).segment(start, len)],
    coefficient by coefficient.  Both decompositions take them with at least
    one coefficient. *)
Section Segments.
Context {A : Type}.

Definition row_segment (m : Eigen.DenseMatrix A) (i start len : Index)
    : result (list A) :=
  rfold (fun seg l => let+ x := Eigen.mcoeff m i l in Ok (seg ++ [x]))
        (seqZ start len) [].
Definition col_segment (m : Eigen.DenseMatrix A) (j start len : Index)
    : result (list A) :=
  rfold (fun seg l => let+ x := Eigen.mcoeff m l j in Ok (seg ++ [x]))
        (seqZ start len) [].
End Segments.

Module ComplexEigenvectors.
Section Cplx.
Context {R : Type} `{ScalarOps R} `{!TypeTraits R} `{!ComplexArith R}
        `{!ComplexSchur R}.

Abbreviation Matrix := (Eigen.DenseMatrix (Complex R)).

(** The product of a row by a column, [(row * col).value()], also a
    coefficient of a matrix product: the products are summed in the order
    of the index, and the sum of no term is [Scalar(0)]. *)
Definition inner (a b : list (Complex R)) : Complex R :=
  match zip_with cmul a b with
  | [] => of_real (of_Z 0)
  | p :: ps => fold_left cadd ps p
  end.

(** The body of the loop over [i]: the entry [X(i, k)] from the [(i, k)]
    entry of the equation [X T = D X]. *)
Definition solve_entry (T : Matrix) (matrixnorm : R) (k : Index) (X : Matrix)
    (i : Index) : result Matrix :=
  let+ tik := Eigen.mcoeff T i k in
  let+ X1 := Eigen.set_mcoeff X i k (cneg tik) in
  let+ X2 :=
    (if k - i - 1 >? 0 then
       let+ r := row_segment T i (i + 1) (k - i - 1) in
       let+ c := col_segment X1 k (i + 1) (k - i - 1) in
       let+ xik := Eigen.mcoeff X1 i k in
       Eigen.set_mcoeff X1 i k (csub xik (inner r c))
     else Ok X1) in
  let+ tii := Eigen.mcoeff T i i in
  let+ tkk := Eigen.mcoeff T k k in
  let z := csub tii tkk in
  (* If the i-th and k-th eigenvalue are equal, then z equals 0.
     Use a small value instead, to prevent division by zero. *)
  let z := if ceq z (of_real (of_Z 0))
           then mkComplex (fmul TypeTraits_epsilon matrixnorm) (imag z)
           else z in
  let+ xik := Eigen.mcoeff X2 i k in
  Eigen.set_mcoeff X2 i k (cdiv xik z).

(** The body of the loop over [k]: column [k] of [X], from its diagonal
    entry upwards, [for (Index i = k - 1; i >= 0; i--)]. *)
Definition solve_column (T : Matrix) (matrixnorm : R) (X : Matrix) (k : Index)
    : result Matrix :=
  let+ X1 := Eigen.set_mcoeff X k k (mkComplex (of_Z 1) (of_Z 0)) in
  rfold (solve_entry T matrixnorm k) (reverse (seqZ 0 k)) X1.

(** Compute X such that T = X D X^(-1), where D is the diagonal of T:
    [for (Index k = n - 1; k >= 0; k--)] on [ComplexMatrix::Zero(n, n)]. *)
Definition triangular_solve (T : Matrix) (matrixnorm : R) (n : Index) : result Matrix :=
  rfold (solve_column T matrixnorm) (reverse (seqZ 0 n))
        (Eigen.constant n n (of_real (of_Z 0))).

(** [A * B]: Eigen asserts that the inner dimensions agree; a coefficient
    is the product of a row by a column. *)
Definition mat_mul (A B : Matrix) : result Matrix :=
  if Eigen.cols A =? Eigen.rows B then
    let+ cs :=
      rfold (fun cs j =>
               let+ b := col_segment B j 0 (Eigen.rows B) in
               let+ c :=
                 rfold (fun c i =>
                          let+ a := row_segment A i 0 (Eigen.cols A) in
                          Ok (c ++ [inner a b]))
                       (seqZ 0 (Eigen.rows A)) [] in
               Ok (cs ++ [c]))
            (seqZ 0 (Eigen.cols B)) [] in
    Ok (Eigen.mkMatrix (Eigen.rows A) cs)
  else Throw (index_out_of_range (Eigen.cols A) (Eigen.rows B)).

(** [for (Index k = 0; k < n; k++) m_eivec.col(k).normalize();] *)
Definition normalize_columns (V : Matrix) (n : Index) : result Matrix :=
  rfold (fun V k =>
           let+ c := Eigen.col V k in
           Eigen.set_col V k (UpperHessenbergEigen.normalize c))
        (seqZ 0 n) V.

(** [doComputeEigenvectors(matrixnorm)] on the Schur object and the vector
    of eigenvalues; the result is the new [m_eivec]. *)
Definition doComputeEigenvectors (matrixnorm : R) (sc : ComplexSchurSolver)
    (eivalues : list (Complex R)) : result Matrix :=
  let n := Eigen.size eivalues in
  let matrixnorm := fmax matrixnorm TypeTraits_min in
  let+ m_matX := triangular_solve (matrixT sc) matrixnorm n in
  (* Compute V as V = U X *)
  let+ V := mat_mul (matrixU sc) m_matX in
  (* .. and normalize the eigenvectors *)
  normalize_columns V n.

(** The same as [compute] calls it, a member function that returns
    nothing and has no [throw].  Its accesses are in range when the Schur
    factors are [n] x [n] for the [n] eigenvalues; otherwise the behaviour
    is undefined, and [m_eivec] is taken to be left empty. *)
Definition eigenvectors_of (matrixnorm : R) (sc : ComplexSchurSolver)
    (eivalues : list (Complex R)) : Matrix :=
  match doComputeEigenvectors matrixnorm sc eivalues with
  | Ok V => V
  | _ => Eigen.mkMatrix 0 []
  end.
End Cplx.
End ComplexEigenvectors.

(** ** UpperHessenbergEigen (real): the eigenvectors of the Schur form *)

(** [Eigen::NumTraits<Scalar>::epsilon()] *)
Class NumTraits (R : Type) : Type := {
  NumTraits_epsilon : R
}.

Module RealEigenvectors.
Section Real.
Context {R : Type} `{ScalarOps R} `{!NumTraits R} `{!ComplexArith R}.

Abbreviation Matrix := (Eigen.DenseMatrix R).

(** [v.sum()]: the coefficients are added in the order of the index, and
    the sum of no coefficient is [Scalar(0)]; [a.dot(b)] is the sum of the
    products. *)
Definition sum (v : list R) : R :=
  match v with
  | [] => of_Z 0
  | x :: xs => fold_left fadd xs x
  end.
Definition dot (a b : list R) : R := sum (zip_with fmul a b).

(** The loop that accumulates [norm], over the rows of [m_matT] from the
    subdiagonal on. *)
Definition hessenberg_norm (T : Matrix) (size : Index) : result R :=
  rfold (fun norm j =>
           let start := Z.max (j - 1) 0 in
           let+ seg := row_segment T j start (size - start) in
           Ok (fadd norm (sum (fabs <$> seg))))
        (seqZ 0 size) (of_Z 0).

(** [m.col(j).segment(start, len) /= t]; Eigen asserts that the segment
    lies in the column. *)
Definition scale_segment (T : Matrix) (j start len : Index) (t : R) : result Matrix :=
  let+ c := Eigen.col T j in
  if (0 <=? start) && (0 <=? len) && (start + len <=? Eigen.size c) then
    Eigen.set_col T j
      (take (Z.to_nat start) c
       ++ ((fun x => fdiv x t) <$> take (Z.to_nat len) (drop (Z.to_nat start) c))
       ++ drop (Z.to_nat (start + len)) c)
  else Throw (index_out_of_range (start + len) (Eigen.size c)).

(** [m_matT.col(n).tail(size - i) /= t] *)
Definition scale_tail (T : Matrix) (n k : Index) (t : R) : result Matrix :=
  let+ c := Eigen.col T n in
  scale_segment T n (Eigen.size c - k) k t.

(** [m_matT.block(i, j, len, 2) /= t] *)
Definition scale_block (T : Matrix) (i j len : Index) (t : R) : result Matrix :=
  let+ T1 := scale_segment T j i len t in
  scale_segment T1 (j + 1) i len t.

(** The state of the loop over [i] for a real eigenvalue: [m_matT], [l],
    [lastr] and [lastw]. *)
Definition real_step (size : Index) (norm : R) (ev : list (Complex R))
    (n : Index) (p : R) (st : Matrix * Index * R * R) (i : Index)
    : result (Matrix * Index * R * R) :=
  let '(T, l, lastr, lastw) := st in
  let eps := NumTraits_epsilon in
  let+ tii := Eigen.mcoeff T i i in
  let w := fsub tii p in
  let+ a := row_segment T i l (n - l + 1) in
  let+ b := col_segment T n l (n - l + 1) in
  let r := dot a b in
  let+ lam := Eigen.coeff ev i in
  if flt (imag lam) (of_Z 0) then
    Ok (T, l, r, w)
  else
    let l := i in
    let+ T1 :=
      (if feq (imag lam) (of_Z 0) then
         if negb (feq w (of_Z 0))
         then Eigen.set_mcoeff T i n (fdiv (fneg r) w)
         else Eigen.set_mcoeff T i n (fdiv (fneg r) (fmul eps norm))
       else
         (* Solve real equations *)
         let+ x := Eigen.mcoeff T i (i + 1) in
         let+ y := Eigen.mcoeff T (i + 1) i in
         let denom := fadd (fmul (fsub (real lam) p) (fsub (real lam) p))
                           (fmul (imag lam) (imag lam)) in
         let t := fdiv (fsub (fmul x lastr) (fmul lastw r)) denom in
         let+ T1 := Eigen.set_mcoeff T i n t in
         if flt (fabs lastw) (fabs x)
         then Eigen.set_mcoeff T1 (i + 1) n (fdiv (fsub (fneg r) (fmul w t)) x)
         else Eigen.set_mcoeff T1 (i + 1) n
                (fdiv (fsub (fneg lastr) (fmul y t)) lastw)) in
    (* Overflow control *)
    let+ tin := Eigen.mcoeff T1 i n in
    let t := fabs tin in
    let+ T2 := (if flt (of_Z 1) (fmul (fmul eps t) t)
                then scale_tail T1 n (size - i) t
                else Ok T1) in
    Ok (T2, l, lastr, lastw).

(** The branch [q == Scalar(0)] of the loop over [n]. *)
Definition real_vector (size : Index) (norm : R) (ev : list (Complex R))
    (T : Matrix) (n : Index) (p : R) : result Matrix :=
  let+ T1 := Eigen.set_mcoeff T n n (of_Z 1) in
  let+ (T2, _, _, _) :=
    rfold (real_step size norm ev n p) (reverse (seqZ 0 n))
          (T1, n, of_Z 0, of_Z 0) in
  Ok T2.

(** The statements before the loop over [i] for a complex pair: the last
    vector component is imaginary, so the matrix is triangular. *)
Definition complex_head (T : Matrix) (n : Index) (p q : R) : result Matrix :=
  let+ below := Eigen.mcoeff T n (n - 1) in
  let+ above := Eigen.mcoeff T (n - 1) n in
  let+ T2 :=
    (if flt (fabs above) (fabs below) then
       let+ d := Eigen.mcoeff T n (n - 1) in
       let+ T1 := Eigen.set_mcoeff T (n - 1) (n - 1) (fdiv q d) in
       let+ tnn := Eigen.mcoeff T1 n n in
       let+ d := Eigen.mcoeff T1 n (n - 1) in
       Eigen.set_mcoeff T1 (n - 1) n (fdiv (fneg (fsub tnn p)) d)
     else
       let+ u := Eigen.mcoeff T (n - 1) n in
       let+ d := Eigen.mcoeff T (n - 1) (n - 1) in
       let cc := cdiv (mkComplex (of_Z 0) (fneg u)) (mkComplex (fsub d p) q) in
       let+ T1 := Eigen.set_mcoeff T (n - 1) (n - 1) (real cc) in
       Eigen.set_mcoeff T1 (n - 1) n (imag cc)) in
  let+ T3 := Eigen.set_mcoeff T2 n (n - 1) (of_Z 0) in
  Eigen.set_mcoeff T3 n n (of_Z 1).

(** The state of the loop over [i] for a complex pair: [m_matT], [l],
    [lastra], [lastsa] and [lastw]. *)
Definition complex_step (size : Index) (norm : R) (ev : list (Complex R))
    (n : Index) (p q : R) (st : Matrix * Index * R * R * R) (i : Index)
    : result (Matrix * Index * R * R * R) :=
  let '(T, l, lastra, lastsa, lastw) := st in
  let eps := NumTraits_epsilon in
  let+ a1 := row_segment T i l (n - l + 1) in
  let+ b1 := col_segment T (n - 1) l (n - l + 1) in
  let ra := dot a1 b1 in
  let+ a2 := row_segment T i l (n - l + 1) in
  let+ b2 := col_segment T n l (n - l + 1) in
  let sa := dot a2 b2 in
  let+ tii := Eigen.mcoeff T i i in
  let w := fsub tii p in
  let+ lam := Eigen.coeff ev i in
  if flt (imag lam) (of_Z 0) then
    Ok (T, l, ra, sa, w)
  else
    let l := i in
    let+ T1 :=
      (if feq (imag lam) (of_Z 0) then
         let cc := cdiv (mkComplex (fneg ra) (fneg sa)) (mkComplex w q) in
         let+ T1 := Eigen.set_mcoeff T i (n - 1) (real cc) in
         Eigen.set_mcoeff T1 i n (imag cc)
       else
         (* Solve complex equations *)
         let+ x := Eigen.mcoeff T i (i + 1) in
         let+ y := Eigen.mcoeff T (i + 1) i in
         let vr := fsub (fadd (fmul (fsub (real lam) p) (fsub (real lam) p))
                              (fmul (imag lam) (imag lam)))
                        (fmul q q) in
         let vi := fmul (fmul (fsub (real lam) p) (of_Z 2)) q in
         let vr := if feq vr (of_Z 0) && feq vi (of_Z 0)
                   then fmul (fmul eps norm)
                             (fadd (fadd (fadd (fadd (fabs w) (fabs q)) (fabs x))
                                         (fabs y))
                                   (fabs lastw))
                   else vr in
         let cc := cdiv (mkComplex (fadd (fsub (fmul x lastra) (fmul lastw ra))
                                         (fmul q sa))
                                   (fsub (fsub (fmul x lastsa) (fmul lastw sa))
                                         (fmul q ra)))
                        (mkComplex vr vi) in
         let+ T1 := Eigen.set_mcoeff T i (n - 1) (real cc) in
         let+ T2 := Eigen.set_mcoeff T1 i n (imag cc) in
         if flt (fadd (fabs lastw) (fabs q)) (fabs x) then
           let+ u := Eigen.mcoeff T2 i (n - 1) in
           let+ v := Eigen.mcoeff T2 i n in
           let+ T3 := Eigen.set_mcoeff T2 (i + 1) (n - 1)
                        (fdiv (fadd (fsub (fneg ra) (fmul w u)) (fmul q v)) x) in
           let+ v := Eigen.mcoeff T3 i n in
           let+ u := Eigen.mcoeff T3 i (n - 1) in
           Eigen.set_mcoeff T3 (i + 1) n
             (fdiv (fsub (fsub (fneg sa) (fmul w v)) (fmul q u)) x)
         else
           let+ u := Eigen.mcoeff T2 i (n - 1) in
           let+ v := Eigen.mcoeff T2 i n in
           let cc := cdiv (mkComplex (fsub (fneg lastra) (fmul y u))
                                     (fsub (fneg lastsa) (fmul y v)))
                          (mkComplex lastw q) in
           let+ T3 := Eigen.set_mcoeff T2 (i + 1) (n - 1) (real cc) in
           Eigen.set_mcoeff T3 (i + 1) n (imag cc)) in
    (* Overflow control *)
    let+ u := Eigen.mcoeff T1 i (n - 1) in
    let+ v := Eigen.mcoeff T1 i n in
    let t := fmax (fabs u) (fabs v) in
    let+ T2 := (if flt (of_Z 1) (fmul (fmul eps t) t)
                then scale_block T1 i (n - 1) (size - i) t
                else Ok T1) in
    Ok (T2, l, lastra, lastsa, lastw).

(** The branch [q < Scalar(0) && n > 0] of the loop over [n], up to its
    [n--]. *)
Definition complex_vector (size : Index) (norm : R) (ev : list (Complex R))
    (T : Matrix) (n : Index) (p q : R) : result Matrix :=
  let+ T1 := complex_head T n p q in
  let+ (T2, _, _, _, _) :=
    rfold (complex_step size norm ev n p q) (reverse (seqZ 0 (n - 1)))
          (T1, n - 1, of_Z 0, of_Z 0, of_Z 0) in
  Ok T2.

(** [for (Index n = size - 1; n >= 0; n--)]: a turn for a complex pair
    lowers [n] once more; an eigenvalue that passes neither test is
    skipped. *)
Fixpoint vector_loop (fuel : nat) (size : Index) (norm : R)
    (ev : list (Complex R)) (T : Matrix) (n : Index) : result Matrix :=
  match fuel with
  | O => OutOfFuel
  | S fuel' =>
      if n >=? 0 then
        let+ lam := Eigen.coeff ev n in
        let p := real lam in
        let q := imag lam in
        if feq q (of_Z 0) then
          let+ T1 := real_vector size norm ev T n p in
          vector_loop fuel' size norm ev T1 (n - 1)
        else if flt q (of_Z 0) && (n >? 0) then
          let+ T1 := complex_vector size norm ev T n p q in
          vector_loop fuel' size norm ev T1 (n - 1 - 1)
        else vector_loop fuel' size norm ev T (n - 1)
      else Ok T
  end.

(** [m_tmp.noalias() = m_eivec.leftCols(j + 1) * m_matT.col(j).segment(0, j + 1)]:
    one coefficient for each row of [m_eivec], the product of the head of
    the row by the segment, summed in the order of the index. *)
Definition left_product (V T : Matrix) (j : Index) : result (list R) :=
  let+ x := col_segment T j 0 (j + 1) in
  rfold (fun tmp i =>
           let+ a := row_segment V i 0 (j + 1) in
           Ok (tmp ++ [dot a x]))
        (seqZ 0 (Eigen.rows V)) [].

(** Back transformation to get eigenvectors of original matrix, from the
    last column to the first. *)
Definition back_transform (size : Index) (T V : Matrix) : result Matrix :=
  rfold (fun V j =>
           let+ m_tmp := left_product V T j in
           Eigen.set_col V j m_tmp)
        (reverse (seqZ 0 size)) V.

(** [doComputeEigenvectors()] on [m_eivalues], [m_matT] and [m_eivec]; the
    result is the new [m_matT] and the new [m_eivec]. *)
Definition doComputeEigenvectors (ev : list (Complex R)) (T V : Matrix)
    : result (Matrix * Matrix) :=
  let size := Eigen.cols V in
  (* inefficient! this is already computed in RealSchur *)
  let+ norm := hessenberg_norm T size in
  (* Backsubstitute to find vectors of upper triangular form *)
  if feq norm (of_Z 0) then Ok (T, V)
  else
    let+ T' := vector_loop (S (Z.to_nat size)) size norm ev T (size - 1) in
    let+ V' := back_transform size T' V in
    Ok (T', V').

(** The same as [compute] calls it, a member function that returns
    nothing and has no [throw].  Its accesses are in range when [m_matT]
    is [size] x [size] for the [size] columns of [m_eivec] and there are
    [size] eigenvalues; otherwise the behaviour is undefined, and the two
    matrices are taken to be left as they were. *)
Definition eigenvectors_of (ev : list (Complex R)) (T V : Matrix)
    : Matrix * Matrix :=
  match doComputeEigenvectors ev T V with
  | Ok TV => TV
  | _ => (T, V)
  end.
End Real.
End RealEigenvectors.

(** ** Collaborators of the solver *)

(** The Krylov factorization engine, [Arnoldi<ArnoldiOp<OpType, BOpType>>]
    of [LinAlg/Arnoldi.h], for an operator with coefficients in [Scalar]
    (a real type [R] or [Complex R]).  [factorize_from from_k to_m op_counter]
    and [fac_init v0 op_counter] apply the operator, return the advanced
    counter of operator applications, and throw on arguments they reject.
    [matrix_V_times f X] is the product [f.matrix_V() * X]. *)
Class Krylov (R Scalar : Type) : Type := {
  Op : Type;
  op_rows : Op -> Index;
  random_vec : Index -> list Scalar;
  ArnoldiFac : Type;
  fac_new : Op -> Index -> ArnoldiFac;
  fac_init : list Scalar -> Index -> ArnoldiFac -> result (Index * ArnoldiFac);
  factorize_from : Index -> Index -> Index -> ArnoldiFac -> result (Index * ArnoldiFac);
  matrix_H : ArnoldiFac -> Eigen.DenseMatrix Scalar;
  f_norm : ArnoldiFac -> R;
  compress_V : Eigen.DenseMatrix Scalar -> ArnoldiFac -> ArnoldiFac;
  matrix_V_times :
    ArnoldiFac -> Eigen.DenseMatrix (Complex R) -> Eigen.DenseMatrix (Complex R)
}.

(** The shifted QR kernels of [LinAlg/DoubleShiftQR.h] and
    [LinAlg/UpperHessenbergQR.h] for a real scalar.  A decomposition object
    is created for a size, [compute] refactors it, [apply_YQ] multiplies a
    matrix by the orthogonal factor, and the factorization's [compress_H]
    conjugates [H] by it. *)
Class RealShiftQR (R : Type) `{Krylov R R} : Type := {
  DoubleShiftQR : Type;
  ds_new : Index -> DoubleShiftQR;
  ds_compute : DoubleShiftQR -> Eigen.DenseMatrix R -> R -> R -> DoubleShiftQR;
  ds_apply_YQ : DoubleShiftQR -> Eigen.DenseMatrix R -> Eigen.DenseMatrix R;
  ds_compress_H : DoubleShiftQR -> ArnoldiFac -> ArnoldiFac;
  UpperHessenbergQR : Type;
  hb_new : Index -> UpperHessenbergQR;
  hb_compute : UpperHessenbergQR -> Eigen.DenseMatrix R -> R -> UpperHessenbergQR;
  hb_apply_YQ : UpperHessenbergQR -> Eigen.DenseMatrix R -> Eigen.DenseMatrix R;
  hb_compress_H : UpperHessenbergQR -> ArnoldiFac -> ArnoldiFac
}.

(** [UpperHessenbergQR<std::complex<RealScalar>>]: the shift is complex. *)
Class ComplexShiftQR (R : Type) `{Krylov R (Complex R)} : Type := {
  UpperHessenbergQRc : Type;
  hbc_new : Index -> UpperHessenbergQRc;
  hbc_compute :
    UpperHessenbergQRc -> Eigen.DenseMatrix (Complex R) -> Complex R -> UpperHessenbergQRc;
  hbc_apply_YQ :
    UpperHessenbergQRc -> Eigen.DenseMatrix (Complex R) -> Eigen.DenseMatrix (Complex R);
  hbc_compress_H : UpperHessenbergQRc -> ArnoldiFac -> ArnoldiFac
}.

(** ** RestartArnoldi, default implementation for a real scalar *)

Module RestartArnoldi.
Section Real.
Context {R : Type} `{ScalarOps R} `{!Krylov R R} `{!RealShiftQR R}.

(** What [run] holds while it loops: the two arguments it updates and its
    two decomposition objects. *)
Record locals : Type := mkLocals {
  fac : ArnoldiFac;
  Q : Eigen.DenseMatrix R;
  decomp_ds : DoubleShiftQR;
  decomp_hb : UpperHessenbergQR
}.

(** The body of the [if] branch: one double shift QR step. *)
Definition double_shift (s t : R) (l : locals) : locals :=
  let ds := ds_compute (decomp_ds l) (matrix_H (fac l)) s t in
  let Q' := ds_apply_YQ ds (Q l) in
  let fac' := ds_compress_H ds (fac l) in
  mkLocals fac' Q' ds (decomp_hb l).

(** The body of the [else] branch: one QR step with a real shift. *)
Definition single_shift (mu : R) (l : locals) : locals :=
  let hb := hb_compute (decomp_hb l) (matrix_H (fac l)) mu in
  let Q' := hb_apply_YQ hb (Q l) in
  let fac' := hb_compress_H hb (fac l) in
  mkLocals fac' Q' (decomp_ds l) hb.

(** [is_complex(ritz_val[i]) && is_conj(ritz_val[i], ritz_val[i + 1])]:
    the right operand, and with it the read of [ritz_val[i + 1]], is
    evaluated only when the left one holds. *)
Definition conj_pair_at (ritz_val : list (Complex R)) (i : Index) : result bool :=
  let+ vi := Eigen.coeff ritz_val i in
  if is_complex vi then
    let+ vi1 := Eigen.coeff ritz_val (i + 1) in
    Ok (is_conj vi vi1)
  else Ok false.

(** [for (Index i = k; i < ncv; i++) { ... }] *)
Fixpoint run_loop (fuel : nat) (ritz_val : list (Complex R)) (ncv i : Index)
    (l : locals) : result locals :=
  match fuel with
  | O => OutOfFuel
  | S fuel' =>
      if i <? ncv then
        let+ paired := conj_pair_at ritz_val i in
        if paired then
          let+ vi := Eigen.coeff ritz_val i in
          let s := fmul (of_Z 2) (real vi) in
          let t := norm vi in
          let l' := double_shift s t l in
          (* i++ in the body, then the i++ of the loop *)
          run_loop fuel' ritz_val ncv (i + 1 + 1) l'
        else
          let+ vi := Eigen.coeff ritz_val i in
          let l' := single_shift (real vi) l in
          run_loop fuel' ritz_val ncv (i + 1) l'
      else Ok l
  end.

Definition run (ritz_val : list (Complex R)) (k : Index) (fac0 : ArnoldiFac)
    (Q0 : Eigen.DenseMatrix R) : result (ArnoldiFac * Eigen.DenseMatrix R) :=
  let ncv := Eigen.size ritz_val in
  let l0 := mkLocals fac0 Q0 (ds_new ncv) (hb_new ncv) in
  let+ l := run_loop (S (Z.to_nat (ncv - k))) ritz_val ncv k l0 in
  Ok (fac l, Q l).

(** *** The shift schedule, as the restart strategy is described *)

Inductive qr_step : Type :=
| DoubleShift (s t : R)
| SingleShift (mu : R).

Definition apply_step (st : qr_step) (l : locals) : locals :=
  match st with
  | DoubleShift s t => double_shift s t l
  | SingleShift mu => single_shift mu l
  end.

Definition apply_schedule (sched : list qr_step) (l : locals) : locals :=
  fold_left (fun l st => apply_step st l) sched l.

(** Walk over the shifts: a non-real value followed by its exact conjugate
    is one double shift with sum 2 Re and product |.|^2 and consumes both;
    any other value is one single shift with its real part. *)
Fixpoint shift_schedule (shifts : list (Complex R)) : list qr_step :=
  match shifts with
  | [] => []
  | v :: rest =>
      match rest with
      | w :: rest' =>
          if is_complex v && is_conj v w
          then DoubleShift (fmul (of_Z 2) (real v)) (norm v) :: shift_schedule rest'
          else SingleShift (real v) :: shift_schedule rest
      | [] => [SingleShift (real v)]
      end
  end.

(** The walk never asks for the successor of the last shift: false when it
    reaches the last value and that value is non-real. *)
Fixpoint pairs_closed (shifts : list (Complex R)) : bool :=
  match shifts with
  | [] => true
  | v :: rest =>
      match rest with
      | w :: rest' =>
          if is_complex v && is_conj v w then pairs_closed rest'
          else pairs_closed rest
      | [] => negb (is_complex v)
      end
  end.
End Real.
End RestartArnoldi.

(** ** RestartArnoldi, partial specialization for a complex scalar *)

Module RestartArnoldiComplex.
Section Cplx.
Context {R : Type} `{ScalarOps R} `{!Krylov R (Complex R)} `{!ComplexShiftQR R}.

Record locals : Type := mkLocals {
  fac : ArnoldiFac;
  Q : Eigen.DenseMatrix (Complex R);
  decomp_hb : UpperHessenbergQRc
}.

Definition single_shift (mu : Complex R) (l : locals) : locals :=
  let hb := hbc_compute (decomp_hb l) (matrix_H (fac l)) mu in
  let Q' := hbc_apply_YQ hb (Q l) in
  let fac' := hbc_compress_H hb (fac l) in
  mkLocals fac' Q' hb.

Fixpoint run_loop (fuel : nat) (ritz_val : list (Complex R)) (ncv i : Index)
    (l : locals) : result locals :=
  match fuel with
  | O => OutOfFuel
  | S fuel' =>
      if i <? ncv then
        let+ vi := Eigen.coeff ritz_val i in
        let l' := single_shift vi l in
        run_loop fuel' ritz_val ncv (i + 1) l'
      else Ok l
  end.

Definition run (ritz_val : list (Complex R)) (k : Index) (fac0 : ArnoldiFac)
    (Q0 : Eigen.DenseMatrix (Complex R))
    : result (ArnoldiFac * Eigen.DenseMatrix (Complex R)) :=
  let ncv := Eigen.size ritz_val in
  let l0 := mkLocals fac0 Q0 (hbc_new ncv) in
  let+ l := run_loop (S (Z.to_nat (ncv - k))) ritz_val ncv k l0 in
  Ok (fac l, Q l).
End Cplx.
End RestartArnoldiComplex.

(** ** GenEigsBase *)

(** Modelled from the spec: [Util/SelectionRule.h] is not among the sources.
    The six rules are those the spec lists for selection and for sorting;
    [UnsupportedRule] stands for every other enumerator of [SortRule], which
    the [switch] statements send to their [default] branch. *)
Inductive SortRule : Type :=
| LargestMagn | LargestReal | LargestImag
| SmallestMagn | SmallestReal | SmallestImag
| UnsupportedRule.

(** Modelled from the spec: [Util/CompInfo.h] is not among the sources; the
    statuses are the three the spec names. *)
Inductive CompInfo : Type := Successful | NotComputed | NotConverging.

(** [SortEigenvalue<Complex, Rule>] of [Util/SelectionRule.h]: built from a
    pointer to values and a count [n], it yields the vector of the [n] indices
    in the order of the rule. *)
Class Sorter (R : Type) : Type := {
  sort_index : SortRule -> list (Complex R) -> Index -> list Index
}.

(** The contract of the sorter: the indices it yields are the [n] indices
    [0 .. n-1], each once. *)
Class SorterPermutes (R : Type) `{Sorter R} : Prop :=
  sort_index_permutes :
    forall (rule : SortRule) (vals : list (Complex R)) (n : Index),
      Permutation (sort_index rule vals n) (seqZ 0 n).

(** What the template argument [Scalar] selects at compile time: the
    specialization of [RestartArnoldi<Scalar, ArnoldiFac>::run], and that of
    [UpperHessenbergEigen<Scalar>], used as
    [decomp(H); decomp.eigenvalues(); decomp.eigenvectors()]. *)
Class Specialization (R Scalar : Type) `{Krylov R Scalar} : Type := {
  scalar_zero : Scalar;
  scalar_one : Scalar;
  restart_run :
    list (Complex R) -> Index -> ArnoldiFac -> Eigen.DenseMatrix Scalar ->
    result (ArnoldiFac * Eigen.DenseMatrix Scalar);
  hessenberg_eigen :
    Eigen.DenseMatrix Scalar ->
    result (list (Complex R) * Eigen.DenseMatrix (Complex R))
}.

(** A loop over a list of indices in a member function. *)
Fixpoint mfor {S A : Type} (l : list A) (body : A -> M S unit) : M S unit :=
  match l with
  | [] => ret tt
  | a :: l' => let* _ := body a in mfor l' body
  end.

Module GenEigsBase.
Section Solver.
Context {R Scalar : Type} `{ScalarOps R} `{!TypeTraits R} `{!Krylov R Scalar}
        `{!Specialization R Scalar} `{!Sorter R}
        `{!Eigen.Uninit (Complex R)} `{!Eigen.Uninit bool}.

Record t : Type := mkT {
  m_op : Op;
  m_n : Index;
  m_nev : Index;
  m_ncv : Index;
  m_nmatop : Index;
  m_niter : Index;
  m_fac : ArnoldiFac;
  m_ritz_val : list (Complex R);
  m_ritz_vec : Eigen.DenseMatrix (Complex R);
  m_ritz_est : list (Complex R);
  m_ritz_conv : list bool;
  m_info : CompInfo
}.

Definition set_nmatop (x : Index) (s : t) : t :=
  mkT (m_op s) (m_n s) (m_nev s) (m_ncv s) x (m_niter s) (m_fac s)
      (m_ritz_val s) (m_ritz_vec s) (m_ritz_est s) (m_ritz_conv s) (m_info s).
Definition set_niter (x : Index) (s : t) : t :=
  mkT (m_op s) (m_n s) (m_nev s) (m_ncv s) (m_nmatop s) x (m_fac s)
      (m_ritz_val s) (m_ritz_vec s) (m_ritz_est s) (m_ritz_conv s) (m_info s).
Definition set_fac (x : ArnoldiFac) (s : t) : t :=
  mkT (m_op s) (m_n s) (m_nev s) (m_ncv s) (m_nmatop s) (m_niter s) x
      (m_ritz_val s) (m_ritz_vec s) (m_ritz_est s) (m_ritz_conv s) (m_info s).
Definition set_ritz_val (x : list (Complex R)) (s : t) : t :=
  mkT (m_op s) (m_n s) (m_nev s) (m_ncv s) (m_nmatop s) (m_niter s) (m_fac s)
      x (m_ritz_vec s) (m_ritz_est s) (m_ritz_conv s) (m_info s).
Definition set_ritz_vec (x : Eigen.DenseMatrix (Complex R)) (s : t) : t :=
  mkT (m_op s) (m_n s) (m_nev s) (m_ncv s) (m_nmatop s) (m_niter s) (m_fac s)
      (m_ritz_val s) x (m_ritz_est s) (m_ritz_conv s) (m_info s).
Definition set_ritz_est (x : list (Complex R)) (s : t) : t :=
  mkT (m_op s) (m_n s) (m_nev s) (m_ncv s) (m_nmatop s) (m_niter s) (m_fac s)
      (m_ritz_val s) (m_ritz_vec s) x (m_ritz_conv s) (m_info s).
Definition set_ritz_conv (x : list bool) (s : t) : t :=
  mkT (m_op s) (m_n s) (m_nev s) (m_ncv s) (m_nmatop s) (m_niter s) (m_fac s)
      (m_ritz_val s) (m_ritz_vec s) (m_ritz_est s) x (m_info s).
Definition set_info (x : CompInfo) (s : t) : t :=
  mkT (m_op s) (m_n s) (m_nev s) (m_ncv s) (m_nmatop s) (m_niter s) (m_fac s)
      (m_ritz_val s) (m_ritz_vec s) (m_ritz_est s) (m_ritz_conv s) x.

(** [m_fac.factorize_from(from_k, to_m, m_nmatop)] *)
Definition factorize (from_k to_m : Index) : M t unit :=
  let* s := get in
  let* (nmatop, f) := lift (factorize_from from_k to_m (m_nmatop s) (m_fac s)) in
  let* _ := modify (set_nmatop nmatop) in
  modify (set_fac f).

(** The [switch] over the rule, shared by [retrieve_ritzpair] and
    [sort_ritzpair]: six cases build the sorter, [default] throws. *)
Definition sorted_indices (what : string) (rule : SortRule)
    (vals : list (Complex R)) (n : Index) : result (list Index) :=
  match rule with
  | LargestMagn | LargestReal | LargestImag
  | SmallestMagn | SmallestReal | SmallestImag => Ok (sort_index rule vals n)
  | UnsupportedRule => Throw (invalid_argument what)
  end.

(** Retrieves and sorts Ritz values and Ritz vectors *)
Definition retrieve_ritzpair (selection : SortRule) : M t unit :=
  let* s0 := get in
  let* (evals, evecs) := lift (hessenberg_eigen (matrix_H (m_fac s0))) in
  let* ind := lift (sorted_indices "unsupported selection rule" selection
                      evals (m_ncv s0)) in
  let* _ := mfor (seqZ 0 (m_ncv s0)) (fun i =>
    let* s := get in
    let* j := lift (Eigen.coeff ind i) in
    let* v := lift (Eigen.coeff evals j) in
    let* rv := lift (Eigen.set_coeff (m_ritz_val s) i v) in
    let* _ := modify (set_ritz_val rv) in
    let* e := lift (Eigen.mcoeff evecs (m_ncv s - 1) j) in
    let* re := lift (Eigen.set_coeff (m_ritz_est s) i e) in
    modify (set_ritz_est re)) in
  mfor (seqZ 0 (m_nev s0)) (fun i =>
    let* s := get in
    let* j := lift (Eigen.coeff ind i) in
    let* c := lift (Eigen.col evecs j) in
    let* rvec := lift (Eigen.set_col (m_ritz_vec s) i c) in
    modify (set_ritz_vec rvec)).

(** Implicitly restarted Arnoldi factorization.  (When [run] throws, the
    factorization it was updating is kept as it was before the call.) *)
Definition restart (k : Index) (selection : SortRule) : M t unit :=
  let* s := get in
  if k >=? m_ncv s then ret tt
  else
    let Q := Eigen.identity scalar_zero scalar_one (m_ncv s) (m_ncv s) in
    let* (f, Q') := lift (restart_run (m_ritz_val s) k (m_fac s) Q) in
    let* _ := modify (set_fac (compress_V Q' f)) in
    let* _ := factorize k (m_ncv s) in
    retrieve_ritzpair selection.

(** The flags computed by [num_converged]: the coefficient-wise
    [resid < thresh] over the first [nev] entries. *)
Definition convergence_flags (tol : R) (nev : Index) (fnorm : R)
    (ritz_val ritz_est : list (Complex R)) : result (list bool) :=
  let eps := TypeTraits_epsilon in
  let eps23 := fpow eps (fdiv (of_Z 2) (of_Z 3)) in
  let+ vals := Eigen.head ritz_val nev in
  let thresh := fmap (fun v => fmul tol (fmax (cabs v) eps23)) vals in
  let+ ests := Eigen.head ritz_est nev in
  let resid := fmap (fun e => fmul (cabs e) fnorm) ests in
  Ok (zip_with flt resid thresh).

(** Calculates the number of converged Ritz values *)
Definition num_converged (tol : R) : M t Index :=
  let* s := get in
  let* conv := lift (convergence_flags tol (m_nev s) (f_norm (m_fac s))
                       (m_ritz_val s) (m_ritz_est s)) in
  let* _ := modify (set_ritz_conv conv) in
  ret (Eigen.count conv).

(** Returns the adjusted nev for restarting *)
Definition nev_adjusted_on (nev ncv : Index) (ritz_val ritz_est : list (Complex R))
    (nconv : Index) : result Index :=
  let near_0 := fmul TypeTraits_min (of_Z 10) in
  let nev_new := nev in
  let+ nev_new :=
    rfold (fun nev_new i =>
             let+ e := Eigen.coeff ritz_est i in
             Ok (if flt (cabs e) near_0 then nev_new + 1 else nev_new))
          (seqZ nev (ncv - nev)) nev_new in
  let nev_new := nev_new + Z.min nconv (Z.quot (ncv - nev_new) 2) in
  let nev_new :=
    if (nev_new =? 1) && (ncv >=? 6) then Z.quot ncv 2
    else if (nev_new =? 1) && (ncv >? 3) then 2
    else nev_new in
  let nev_new := if nev_new >? ncv - 2 then ncv - 2 else nev_new in
  let+ v1 := Eigen.coeff ritz_val (nev_new - 1) in
  let+ extend :=
    (if is_complex v1 then
       let+ v2 := Eigen.coeff ritz_val nev_new in Ok (is_conj v1 v2)
     else Ok false) in
  Ok (if extend : bool then nev_new + 1 else nev_new).

(** The adjusted rank as the restart policy is worded: start at [nev];
    add one for each index in [nev, ncv) whose estimate is below ten times
    the smallest positive normalized value; add
    [min(nconv, (ncv - current) / 2)]; a result of 1 becomes [ncv / 2]
    when [ncv >= 6], else 2 when [ncv > 3]; clamp to [ncv - 2]; one more
    when the boundary would split an exact conjugate pair. *)
Definition splits_pair (ritz_val : list (Complex R)) (r : Index) : bool :=
  match ritz_val !! Z.to_nat (r - 1), ritz_val !! Z.to_nat r with
  | Some a, Some b => is_complex a && is_conj a b
  | _, _ => false
  end.

Definition nev_adjusted_recipe (nev ncv : Index)
    (ritz_val ritz_est : list (Complex R)) (nconv : Index) : Index :=
  let tiny := fmul TypeTraits_min (of_Z 10) in
  let unwanted := take (Z.to_nat (ncv - nev)) (drop (Z.to_nat nev) ritz_est) in
  let locked := Z.of_nat (length (List.filter (fun e => flt (cabs e) tiny) unwanted)) in
  let r1 := nev + locked in
  let r2 := r1 + Z.min nconv ((ncv - r1) / 2) in
  let r3 := if (r2 =? 1) && (6 <=? ncv) then ncv / 2
            else if (r2 =? 1) && (3 <? ncv) then 2
            else r2 in
  let r4 := Z.min r3 (ncv - 2) in
  if splits_pair ritz_val r4 then r4 + 1 else r4.

Definition nev_adjusted (nconv : Index) : M t Index :=
  let* s := get in
  lift (nev_adjusted_on (m_nev s) (m_ncv s) (m_ritz_val s) (m_ritz_est s) nconv).

(** Sorts the first nev Ritz pairs in the specified order *)
Definition sort_ritzpair (sort_rule : SortRule) : M t unit :=
  let* s := get in
  let* ind := lift (sorted_indices "unsupported sorting rule" sort_rule
                      (m_ritz_val s) (m_nev s)) in
  let new_ritz_val := replicate (Z.to_nat (m_ncv s)) Eigen.indeterminate in
  let new_ritz_vec := Eigen.constant (m_ncv s) (m_nev s) Eigen.indeterminate in
  let new_ritz_conv := replicate (Z.to_nat (m_nev s)) Eigen.indeterminate in
  let* (new_ritz_val, new_ritz_vec, new_ritz_conv) :=
    lift (rfold (fun '(nval, nvec, nconv) i =>
                   let+ j := Eigen.coeff ind i in
                   let+ v := Eigen.coeff (m_ritz_val s) j in
                   let+ nval' := Eigen.set_coeff nval i v in
                   let+ c := Eigen.col (m_ritz_vec s) j in
                   let+ nvec' := Eigen.set_col nvec i c in
                   let+ b := Eigen.coeff (m_ritz_conv s) j in
                   let+ nconv' := Eigen.set_coeff nconv i b in
                   Ok (nval', nvec', nconv'))
                (seqZ 0 (m_nev s)) (new_ritz_val, new_ritz_vec, new_ritz_conv)) in
  let* _ := modify (set_ritz_val new_ritz_val) in
  let* _ := modify (set_ritz_vec new_ritz_vec) in
  modify (set_ritz_conv new_ritz_conv).

(** The constructor: the member initializers, then the two checks. *)
Definition construct (op : Op) (nev ncv : Index) : result t :=
  let n := op_rows op in
  let m_ncv := if ncv >? n then n else ncv in
  let s := mkT op n nev m_ncv 0 0 (fac_new op m_ncv) [] (Eigen.mkMatrix 0 []) []
               [] NotComputed in
  if (nev <? 1) || (nev >? n - 2) then
    Throw (invalid_argument
             "nev must satisfy 1 <= nev <= n - 2, n is the size of matrix")
  else if (ncv <? nev + 2) || (ncv >? n) then
    Throw (invalid_argument
             "ncv must satisfy nev + 2 <= ncv <= n, n is the size of matrix")
  else Ok s.

(** [init(const Scalar* init_resid)] *)
Definition init (init_resid : list Scalar) : M t unit :=
  let* s := get in
  let czero := of_real (of_Z 0) in
  let* _ := modify (set_ritz_val (replicate (Z.to_nat (m_ncv s)) czero)) in
  let* _ := modify (set_ritz_vec (Eigen.constant (m_ncv s) (m_nev s) czero)) in
  let* _ := modify (set_ritz_est (replicate (Z.to_nat (m_ncv s)) czero)) in
  let* _ := modify (set_ritz_conv (replicate (Z.to_nat (m_nev s)) false)) in
  let* _ := modify (set_nmatop 0) in
  let* _ := modify (set_niter 0) in
  let* (nmatop, f) := lift (fac_init init_resid 0 (m_fac s)) in
  let* _ := modify (set_nmatop nmatop) in
  modify (set_fac f).

(** [init()] *)
Definition init_random : M t unit :=
  let* s := get in
  init (random_vec (m_n s)).

(** The restarting loop of [compute]:
    [for (i = 0; i < maxit; i++) { ... }]; returns [i] and [nconv]. *)
Fixpoint compute_loop (fuel : nat) (selection : SortRule) (maxit : Index)
    (tol : R) (i nconv : Index) : M t (Index * Index) :=
  match fuel with
  | O => lift OutOfFuel
  | S fuel' =>
      if i <? maxit then
        let* nconv := num_converged tol in
        let* s := get in
        if nconv >=? m_nev s then ret (i, nconv)
        else
          let* nev_adj := nev_adjusted nconv in
          let* _ := restart nev_adj selection in
          compute_loop fuel' selection maxit tol (i + 1) nconv
      else ret (i, nconv)
  end.

Definition compute (selection : SortRule) (maxit : Index) (tol : R)
    (sorting : SortRule) : M t Index :=
  let* s := get in
  let* _ := factorize 1 (m_ncv s) in
  let* _ := retrieve_ritzpair selection in
  let* (i, nconv) := compute_loop (S (Z.to_nat maxit)) selection maxit tol 0 0 in
  let* _ := sort_ritzpair sorting in
  let* _ := modify (fun s => set_niter (m_niter s + (i + 1)) s) in
  let* _ := modify (set_info (if nconv >=? m_nev s then Successful
                              else NotConverging)) in
  ret (Z.min (m_nev s) nconv).

Definition info : M t CompInfo := gets m_info.
Definition num_iterations : M t Index := gets m_niter.
Definition num_operations : M t Index := gets m_nmatop.

(** Returns the converged eigenvalues. *)
Definition eigenvalues : M t (list (Complex R)) :=
  let* s := get in
  let nconv := Eigen.count (m_ritz_conv s) in
  let res := replicate (Z.to_nat nconv) Eigen.indeterminate in
  if nconv =? 0 then ret res
  else
    let* (res, _) :=
      lift (rfold (fun '(res, j) i =>
                     let+ b := Eigen.coeff (m_ritz_conv s) i in
                     if b : bool then
                       let+ v := Eigen.coeff (m_ritz_val s) i in
                       let+ res' := Eigen.set_coeff res j v in
                       Ok (res', j + 1)
                     else Ok (res, j))
                  (seqZ 0 (m_nev s)) (res, 0)) in
    ret res.

(** Returns the eigenvectors associated with the converged eigenvalues.
    The loop condition is [i < m_nev && j < nvec]: once [j] reaches [nvec]
    no further turn runs. *)
Definition eigenvectors (nvec : Index) : M t (Eigen.DenseMatrix (Complex R)) :=
  let* s := get in
  let nconv := Eigen.count (m_ritz_conv s) in
  let nvec := Z.min nvec nconv in
  let res := Eigen.constant (m_n s) nvec Eigen.indeterminate in
  if nvec =? 0 then ret res
  else
    let ritz_vec_conv := Eigen.constant (m_ncv s) nvec Eigen.indeterminate in
    let* (ritz_vec_conv, _) :=
      lift (rfold (fun '(rvc, j) i =>
                     if j <? nvec then
                       let+ b := Eigen.coeff (m_ritz_conv s) i in
                       if b : bool then
                         let+ c := Eigen.col (m_ritz_vec s) i in
                         let+ rvc' := Eigen.set_col rvc j c in
                         Ok (rvc', j + 1)
                       else Ok (rvc, j)
                     else Ok (rvc, j))
                  (seqZ 0 (m_nev s)) (ritz_vec_conv, 0)) in
    ret (matrix_V_times (m_fac s) ritz_vec_conv).

(** Returns all converged eigenvectors. *)
Definition eigenvectors_all : M t (Eigen.DenseMatrix (Complex R)) :=
  let* s := get in eigenvectors (m_nev s).
End Solver.
End GenEigsBase.

(** ** The two instantiations of the solver *)

(** The result of a member function, without the state. *)
Definition eval {S A : Type} (m : M S A) (s : S) : result A := fst (m s).

Section Instantiations.
Context {R : Type} `{ScalarOps R} `{!Eigen.Uninit (Complex R)}.

(** [UpperHessenbergEigen<Scalar> decomp(H)], then [decomp.eigenvalues()]
    and [decomp.eigenvectors()]. *)
Definition decompose_real `{!RealSchur R}
    (doComputeEigenvectors :
       list (Complex R) -> Eigen.DenseMatrix R -> Eigen.DenseMatrix R ->
       Eigen.DenseMatrix R * Eigen.DenseMatrix R)
    (H : Eigen.DenseMatrix R)
    : result (list (Complex R) * Eigen.DenseMatrix (Complex R)) :=
  let+ decomp := UpperHessenbergEigen.construct doComputeEigenvectors H in
  let+ evals := eval UpperHessenbergEigen.eigenvalues decomp in
  let+ evecs := eval UpperHessenbergEigen.eigenvectors decomp in
  Ok (evals, evecs).

Definition decompose_complex `{!ComplexSchur R}
    (doComputeEigenvectors :
       R -> ComplexSchurSolver -> list (Complex R) -> Eigen.DenseMatrix (Complex R))
    (H : Eigen.DenseMatrix (Complex R))
    : result (list (Complex R) * Eigen.DenseMatrix (Complex R)) :=
  let+ decomp := UpperHessenbergEigenComplex.construct doComputeEigenvectors H in
  let+ evals := eval UpperHessenbergEigenComplex.eigenvalues decomp in
  let+ evecs := eval UpperHessenbergEigenComplex.eigenvectors decomp in
  Ok (evals, evecs).

(** [Scalar = RealScalar] *)
Definition real_specialization `{!Krylov R R} `{!RealShiftQR R} `{!RealSchur R}
    (doComputeEigenvectors :
       list (Complex R) -> Eigen.DenseMatrix R -> Eigen.DenseMatrix R ->
       Eigen.DenseMatrix R * Eigen.DenseMatrix R)
    : Specialization R R := {|
  scalar_zero := of_Z 0;
  scalar_one := of_Z 1;
  restart_run := RestartArnoldi.run;
  hessenberg_eigen := decompose_real doComputeEigenvectors
|}.

(** [Scalar = std::complex<RealScalar>] *)
Definition complex_specialization `{!Krylov R (Complex R)} `{!ComplexShiftQR R}
    `{!ComplexSchur R}
    (doComputeEigenvectors :
       R -> ComplexSchurSolver -> list (Complex R) -> Eigen.DenseMatrix (Complex R))
    : Specialization R (Complex R) := {|
  scalar_zero := of_real (of_Z 0);
  scalar_one := of_real (of_Z 1);
  restart_run := RestartArnoldiComplex.run;
  hessenberg_eigen := decompose_complex doComputeEigenvectors
|}.
End Instantiations.

(** ** A closed world to run the model in

    A [double] solver whose projected matrix stays the diagonal matrix
    diag(ncv, ..., 2, 1) with a residual of norm one.  On a triangular matrix
    the Schur reduction has nothing to do ([T] is the matrix, [U] the
    identity), and on a diagonal one the eigenvectors are the columns of the
    identity, so the back substitution leaves [U] as it is.  The QR kernels
    keep the factorization, the factorization counts one operator application
    per expansion step, and the sorter orders the indices by the key its rule
    names. *)
Module Bench.
Import binary64.

Definition diag (n : Index) : Eigen.DenseMatrix t :=
  Eigen.mkMatrix n
    (fmap (fun j => fmap (fun i => if i =? j then b64_of_Z (n - j) else b64_of_Z 0)
                     (seqZ 0 n))
         (seqZ 0 n)).

#[global] Instance uninit_complex : Eigen.Uninit (Complex t) := c 0 0.
#[global] Instance uninit_bool : Eigen.Uninit bool := false.

#[global] Instance krylov : Krylov t t := {|
  Op := Index;
  op_rows := fun n => n;
  random_vec := fun n => replicate (Z.to_nat n) (b64_of_Z 1);
  ArnoldiFac := Index;
  fac_new := fun _ ncv => ncv;
  fac_init := fun _ nmatop f => Ok (nmatop, f);
  factorize_from := fun from_k to_m nmatop f => Ok (nmatop + (to_m - from_k), f);
  matrix_H := diag;
  f_norm := fun _ => b64_of_Z 1;
  compress_V := fun _ f => f;
  matrix_V_times := fun _ X => X
|}.

#[global] Instance shift_qr : RealShiftQR t := {|
  DoubleShiftQR := unit;
  ds_new := fun _ => tt;
  ds_compute := fun d _ _ _ => d;
  ds_apply_YQ := fun _ Q => Q;
  ds_compress_H := fun _ f => f;
  UpperHessenbergQR := unit;
  hb_new := fun _ => tt;
  hb_compute := fun d _ _ => d;
  hb_apply_YQ := fun _ Q => Q;
  hb_compress_H := fun _ f => f
|}.

#[global] Instance schur : RealSchur t := {|
  schur_compute := fun mat =>
    Ok (mat, Eigen.identity (b64_of_Z 0) (b64_of_Z 1) (Eigen.rows mat) (Eigen.cols mat))
|}.

Definition keep_vectors (_ : list (Complex t)) (T V : Eigen.DenseMatrix t)
    : Eigen.DenseMatrix t * Eigen.DenseMatrix t := (T, V).

#[global] Instance spec : Specialization t t := real_specialization keep_vectors.

(** The complex Schur reduction of a triangular matrix, likewise. *)
#[global] Instance cschur : ComplexSchur t := {|
  ComplexSchurSolver := Eigen.DenseMatrix (Complex t) * Eigen.DenseMatrix (Complex t);
  schur_default := (Eigen.mkMatrix 0 [], Eigen.mkMatrix 0 []);
  computeFromHessenberg := fun _ H Q _ => (H, Q);
  schur_success := fun _ => true;
  matrixT := fst;
  matrixU := snd
|}.

Definition keep_vectors_c (_ : t) (sc : ComplexSchurSolver) (_ : list (Complex t))
    : Eigen.DenseMatrix (Complex t) := matrixU sc.

(** The complex diagonal matrix with the given diagonal. *)
Definition diag_c (d : list (Complex t)) : Eigen.DenseMatrix (Complex t) :=
  Eigen.mkMatrix (Eigen.size d)
    (imap (fun j x => imap (fun i _ => if (i =? j)%nat then x else c 0 0) d) d).

(** The default-constructed decomposers. *)
Definition fresh : UpperHessenbergEigen.t (R := t) := UpperHessenbergEigen.default.
Definition fresh_c : UpperHessenbergEigenComplex.t (R := t) :=
  UpperHessenbergEigenComplex.default.

(** The key a rule sorts by, smallest key first. *)
Definition sort_key (rule : SortRule) (v : Complex t) : t :=
  match rule with
  | LargestMagn => fneg (cabs v)
  | LargestReal => fneg (real v)
  | LargestImag => fneg (fabs (imag v))
  | SmallestMagn => cabs v
  | SmallestReal => real v
  | SmallestImag => fabs (imag v)
  | UnsupportedRule => b64_of_Z 0
  end.

Definition key_at (rule : SortRule) (vals : list (Complex t)) (i : Index) : t :=
  match vals !! Z.to_nat i with
  | Some v => sort_key rule v
  | None => b64_of_Z 0
  end.

Definition key_le (rule : SortRule) (vals : list (Complex t)) (i j : Index) : Prop :=
  flt (key_at rule vals j) (key_at rule vals i) = false.

#[global] Instance key_le_dec rule vals i j : Decision (key_le rule vals i j).
Proof. unfold key_le. apply _. Defined.

#[global] Instance sorter : Sorter t := {|
  sort_index := fun rule vals n => merge_sort (key_le rule vals) (seqZ 0 n)
|}.

(** A solver for [nev] eigenvalues of an operator of dimension [n], after
    [init()]. *)
Definition solver (n nev ncv : Index) : result GenEigsBase.t :=
  let+ s := GenEigsBase.construct n nev ncv in
  match GenEigsBase.init_random s with
  | (Ok _, s') => Ok s'
  | (Throw e, _) => Throw e
  | (OutOfFuel, _) => OutOfFuel
  end.

(** The same solver as a state; the parameters used below pass the
    constructor's checks. *)
Definition started (n nev ncv : Index) : GenEigsBase.t :=
  match solver n nev ncv with
  | Ok s => s
  | _ => GenEigsBase.mkT n n nev ncv 0 0 ncv [] (Eigen.mkMatrix 0 []) [] [] NotComputed
  end.

(** The state [compute] reaches when it enters its loop. *)
Definition expanded (n nev ncv : Index) (selection : SortRule) : GenEigsBase.t :=
  snd (bind (GenEigsBase.factorize 1 ncv)
            (fun _ => GenEigsBase.retrieve_ritzpair selection)
            (started n nev ncv)).

Definition zero_tol : t := b64_of_Z 0.
(** 1e-10 *)
Definition default_tol : t := SFdiv prec emax (b64_of_Z 1) (b64_of_Z 10000000000).
End Bench.

(** ** A closed world for the Hessenberg decompositions

    The complex products and quotients are the textbook formulas, which is
    what the runtime computes on finite operands away from overflow. *)
Module BenchHessenberg.
Import binary64.

Definition mul (a b : Complex t) : Complex t :=
  mkComplex (fsub (fmul (real a) (real b)) (fmul (imag a) (imag b)))
            (fadd (fmul (real a) (imag b)) (fmul (imag a) (real b))).

Definition div (a b : Complex t) : Complex t :=
  mkComplex (fdiv (fadd (fmul (real a) (real b)) (fmul (imag a) (imag b))) (norm b))
            (fdiv (fsub (fmul (imag a) (real b)) (fmul (real a) (imag b))) (norm b)).

#[global] Instance arith : ComplexArith t := {| cmul := mul; cdiv := div |}.

(** The upper triangular matrix with the rows (1, 1) and (0, 2), by
    columns, and its Schur object in the bench. *)
Definition upper2 : Eigen.DenseMatrix (Complex t) :=
  Eigen.mkMatrix 2 [[c 1 0; c 0 0]; [c 1 0; c 2 0]].

Definition upper2_schur : @ComplexSchurSolver t Bench.cschur :=
  (upper2, Eigen.identity (c 0 0) (c 1 0) 2 2).

(** The quarter turn, with the rows (0, -1) and (1, 0), by columns: a real
    matrix in Schur form whose eigenvalues are i and -i. *)
Definition quarter_turn : Eigen.DenseMatrix t :=
  Eigen.mkMatrix 2 [[b64_of_Z 0; b64_of_Z 1]; [b64_of_Z (-1); b64_of_Z 0]].

(** The same with a third row and column, with the rows (0, -1, 1),
    (1, 0, 1) and (0, 0, 2): the eigenvalues are i, -i and 2. *)
Definition turn_and_two : Eigen.DenseMatrix t :=
  Eigen.mkMatrix 3 [[b64_of_Z 0; b64_of_Z 1; b64_of_Z 0];
                    [b64_of_Z (-1); b64_of_Z 0; b64_of_Z 0];
                    [b64_of_Z 1; b64_of_Z 1; b64_of_Z 2]].

(** [Eigen::NumTraits<double>::epsilon()] is the machine epsilon. *)
#[global] Instance num_traits : NumTraits t := {| NumTraits_epsilon := epsilon |}.

(** A Krylov engine for a complex operator whose factorization is the log
    of the shifts that compressed it, the latest last. *)
Definition shift_log : Krylov t (Complex t) := {|
  Op := Index;
  op_rows := fun n => n;
  random_vec := fun n => replicate (Z.to_nat n) (c 1 0);
  ArnoldiFac := list (Complex t);
  fac_new := fun _ _ => [];
  fac_init := fun _ nmatop f => Ok (nmatop, f);
  factorize_from := fun from_k to_m nmatop f => Ok (nmatop + (to_m - from_k), f);
  matrix_H := fun _ => Eigen.mkMatrix 0 [];
  f_norm := fun _ => b64_of_Z 1;
  compress_V := fun _ f => f;
  matrix_V_times := fun _ X => X
|}.

Definition log_shift (hb : option (Complex t)) (f : list (Complex t))
    : list (Complex t) :=
  match hb with Some mu => f ++ [mu] | None => f end.

Definition shift_log_qr : @ComplexShiftQR t shift_log :=
  Build_ComplexShiftQR t shift_log (option (Complex t))
    (fun _ => None) (fun _ _ mu => Some mu) (fun _ Q => Q) log_shift.

(** A complex Schur reduction that does not converge. *)
Definition stalled : ComplexSchur t := {|
  ComplexSchurSolver := unit;
  schur_default := tt;
  computeFromHessenberg := fun _ _ _ _ => tt;
  schur_success := fun _ => false;
  matrixT := fun _ => Eigen.mkMatrix 0 [];
  matrixU := fun _ => Eigen.mkMatrix 0 []
|}.
End BenchHessenberg.

(** ** A closed world whose projected matrix changes with an expansion

    The same solver on an engine whose projected matrix is diag(8, 5, 4, 3, 2)
    after the first expansion and diag(1, 5, 4, 3, 2) after any later one: a
    Ritz value of smaller magnitude comes up with the restart.  The
    factorization is the number of expansions made; everything else is as in
    the first closed world. *)
Module BenchDrift.
Import binary64.

Definition diagonal_matrix (d : list Z) : Eigen.DenseMatrix t :=
  Eigen.mkMatrix (Eigen.size d)
    (imap (fun j x => imap (fun i _ => if (i =? j)%nat then b64_of_Z x else b64_of_Z 0) d)
          d).

Definition krylov : Krylov t t := {|
  Op := Index;
  op_rows := fun n => n;
  random_vec := fun n => replicate (Z.to_nat n) (b64_of_Z 1);
  ArnoldiFac := Index;
  fac_new := fun _ _ => 0;
  fac_init := fun _ nmatop f => Ok (nmatop, f);
  factorize_from := fun from_k to_m nmatop f => Ok (nmatop + (to_m - from_k), f + 1);
  matrix_H := fun f => if f <=? 1 then diagonal_matrix [8; 5; 4; 3; 2]
                       else diagonal_matrix [1; 5; 4; 3; 2];
  f_norm := fun _ => b64_of_Z 1;
  compress_V := fun _ f => f;
  matrix_V_times := fun _ X => X
|}.

Definition shift_qr : @RealShiftQR t krylov :=
  Build_RealShiftQR t krylov
    unit (fun _ => tt) (fun d _ _ _ => d) (fun _ Q => Q) (fun _ f => f)
    unit (fun _ => tt) (fun d _ _ => d) (fun _ Q => Q) (fun _ f => f).

Definition spec : @Specialization t t krylov :=
  real_specialization (Krylov0 := krylov) (RealShiftQR0 := shift_qr) Bench.keep_vectors.

(** The solver for 2 eigenvalues of an operator of dimension 6 with a
    Krylov space of dimension 5, after [init()]. *)
Definition solver : result (GenEigsBase.t (Krylov0 := krylov)) :=
  let+ s := GenEigsBase.construct (Krylov0 := krylov) 6 2 5 in
  match GenEigsBase.init_random s with
  | (Ok _, s') => Ok s'
  | (Throw e, _) => Throw e
  | (OutOfFuel, _) => OutOfFuel
  end.

Definition started : GenEigsBase.t (Krylov0 := krylov) :=
  match solver with
  | Ok s => s
  | _ => GenEigsBase.mkT (Krylov0 := krylov) (6 : Index) 6 2 5 0 0 (0 : Index) [] (Eigen.mkMatrix 0 []) [] []
           NotComputed
  end.

(** The state [compute] reaches when it enters its loop: the one on which
    the first convergence test runs. *)
Definition expanded (selection : SortRule) : GenEigsBase.t (Krylov0 := krylov) :=
  snd (bind (GenEigsBase.factorize 1 5)
            (fun _ => GenEigsBase.retrieve_ritzpair (Specialization0 := spec) selection)
            started).
End BenchDrift.

(** ** Vocabulary of the statements *)

(** The two exceptions of [UpperHessenbergEigen]. *)
Definition need_compute : exception :=
  logic_error "UpperHessenbergEigen: need to call compute() first".
Definition must_be_square : exception :=
  invalid_argument "UpperHessenbergEigen: matrix must be square".

(** The comparison [<] of the scalar type is a strict partial order.  IEEE
    comparison is one: it is false whenever an operand is not a number. *)
Class LtStrictOrder (R : Type) `{ScalarOps R} : Prop := {
  flt_irrefl : forall x : R, flt x x = false;
  flt_trans : forall x y z : R, flt x y = true -> flt y z = true -> flt x z = true
}.

Section SortVocabulary.
Context {R : Type} `{ScalarOps R}.

(** [y] is not smaller in magnitude than [x]. *)
Definition mag_le (x y : Complex R) : Prop := flt (cabs y) (cabs x) = false.

(** The same on an eigenvalue paired with its eigenvector column. *)
Definition pair_mag_le {C : Type} (x y : Complex R * C) : Prop :=
  mag_le (fst x) (fst y).

(** Non-decreasing order of magnitude: no entry is smaller in magnitude
    than an earlier one. *)
Definition magnitudes_ascend (ev : list (Complex R)) : Prop :=
  forall (i j : nat) (x y : Complex R),
    (i < j)%nat -> ev !! i = Some x -> ev !! j = Some y -> mag_le x y.

(** Stability: two entries of equal magnitude come out in the order they
    went in. *)
Definition ties_keep_order (input output : list (Complex R)) : Prop :=
  forall (i j : nat) (x y : Complex R),
    (i < j)%nat -> input !! i = Some x -> input !! j = Some y ->
    feq (cabs x) (cabs y) = true ->
    exists i' j' : nat,
      (i' < j')%nat /\ output !! i' = Some x /\ output !! j' = Some y.
End SortVocabulary.

Section SolverVocabulary.
Context {R Scalar : Type} `{ScalarOps R} `{!TypeTraits R} `{!Krylov R Scalar}
        `{!Specialization R Scalar} `{!Sorter R}
        `{!Eigen.Uninit (Complex R)} `{!Eigen.Uninit bool}.
Import GenEigsBase.

(** What only [num_converged], [sort_ritzpair] and the tail of [compute]
    write: the parameters, the iteration counter, the flags, the status. *)
Definition restart_frame (s s' : t) : Prop :=
  m_n s' = m_n s /\ m_nev s' = m_nev s /\ m_ncv s' = m_ncv s /\
  m_niter s' = m_niter s /\ m_ritz_conv s' = m_ritz_conv s /\
  m_info s' = m_info s.

(** What no member function but the constructor writes, with the
    iteration counter and the status, which only [init] and the tail of
    [compute] write. *)
Definition params_frame (s s' : t) : Prop :=
  m_n s' = m_n s /\ m_nev s' = m_nev s /\ m_ncv s' = m_ncv s /\
  m_niter s' = m_niter s /\ m_info s' = m_info s.

(** A member function whose final state is related to its initial state by
    [F], whatever its outcome. *)
Definition keeps (F : t -> t -> Prop) {A : Type} (m : M t A) : Prop :=
  forall s : t, F s (snd (m s)).

(** [compute] up to the end of its restarting loop: the value of [i] and of
    [nconv] when the loop is left. *)
Definition compute_until_sorting (selection : SortRule) (maxit : Index) (tol : R)
    : M t (Index * Index) :=
  let* s := get in
  let* _ := factorize 1 (m_ncv s) in
  let* _ := retrieve_ritzpair selection in
  compute_loop (S (Z.to_nat maxit)) selection maxit tol 0 0.

(** What [compute] does after its loop was left with [i] and [nconv]. *)
Definition compute_finish (sorting : SortRule) (i nconv : Index) : M t Index :=
  let* s := get in
  let* _ := sort_ritzpair sorting in
  let* _ := modify (fun s => set_niter (m_niter s + (i + 1)) s) in
  let* _ := modify (set_info (if nconv >=? m_nev s then Successful
                              else NotConverging)) in
  ret (Z.min (m_nev s) nconv).

(** The values whose flag is set, in the order of the vector: what
    [eigenvalues()] hands out. *)
Fixpoint flagged (vals : list (Complex R)) (flags : list bool) : list (Complex R) :=
  match vals, flags with
  | v :: vals', b :: flags' =>
      if b then v :: flagged vals' flags' else flagged vals' flags'
  | _, _ => []
  end.
End SolverVocabulary.

(** ** Vocabulary of the further properties *)

Section ShapeVocabulary.
Context {A : Type}.

(** [v[ind[0]], v[ind[1]], ...]: the entries of [v] at the indices [ind],
    in the order of [ind]. *)
Definition gather (v : list A) (ind : list Index) : list A :=
  omap (fun j : Index => if 0 <=? j then v !! Z.to_nat j else None) ind.

(** The entries whose flag is set, in the order of the vector. *)
Fixpoint selected (xs : list A) (flags : list bool) : list A :=
  match xs, flags with
  | x :: xs', b :: flags' =>
      if b then x :: selected xs' flags' else selected xs' flags'
  | _, _ => []
  end.

(** An [r] x [c] matrix: [c] columns of [r] coefficients each. *)
Definition shaped (r c : Index) (m : Eigen.DenseMatrix A) : Prop :=
  Eigen.rows m = r /\ Eigen.cols m = c /\
  Forall (fun col => Eigen.size col = r) (Eigen.columns m).

(** The invariant of a loop over the rows [i] of a square matrix, from
    the row above [top] upwards, that keeps a row index [l]: the matrix
    keeps its shape and [l] lies between the next row and [top]. *)
Definition rows_left (size top i : Index) (T : Eigen.DenseMatrix A) (l : Index)
    : Prop :=
  shaped size size T /\ i < l <= top.

(** Row [i] of a matrix. *)
Definition row (m : Eigen.DenseMatrix A) (i : Index) : list A :=
  omap (fun col : list A => col !! Z.to_nat i) (Eigen.columns m).
End ShapeVocabulary.

Section BlockVocabulary.
Context {R : Type} `{ScalarOps R}.

(** A vector of eigenvalues made of real entries, with the imaginary part
    [Scalar(0)], and of pairs [(a, z)], [(a, -z)] at consecutive
    positions. *)
Inductive conjugate_blocks : list (Complex R) -> Prop :=
| blocks_nil : conjugate_blocks []
| blocks_real (d : R) (rest : list (Complex R)) :
    conjugate_blocks rest -> conjugate_blocks (of_real d :: rest)
| blocks_pair (a z : R) (rest : list (Complex R)) :
    conjugate_blocks rest ->
    conjugate_blocks (mkComplex a z :: mkComplex a (fneg z) :: rest).

(** A value whose parts compare equal to themselves: neither is a NaN. *)
Definition self_equal (v : Complex R) : Prop :=
  feq (real v) (real v) = true /\ feq (imag v) (imag v) = true.
End BlockVocabulary.

Section EigenvectorVocabulary.
Context {R : Type} `{ScalarOps R}.

(** The complex eigenvectors made from the real columns of [m_eivec]: a
    column whose eigenvalue passes [imag == 0], or that is the last one, is
    cast and normalized; any other column is taken with its successor as
    the real and the imaginary part of a vector and of its conjugate, each
    normalized, and the eigenvalue of the successor is not looked at. *)
Fixpoint paired_columns (ev : list (Complex R)) (cols : list (list R))
    {struct cols} : list (list (Complex R)) :=
  match cols, ev with
  | c :: cols', v :: ev' =>
      match cols' with
      | c1 :: cols'' =>
          if feq (imag v) (of_Z 0)
          then UpperHessenbergEigen.normalize (of_real <$> c) :: paired_columns ev' cols'
          else UpperHessenbergEigen.normalize (zip_with (fun x y => mkComplex x y) c c1)
               :: UpperHessenbergEigen.normalize
                    (zip_with (fun x y => mkComplex x (fneg y)) c c1)
               :: paired_columns (tail ev') cols''
      | [] => [UpperHessenbergEigen.normalize (of_real <$> c)]
      end
  | _, _ => []
  end.
End EigenvectorVocabulary.

Section TriangularVocabulary.
Context {R : Type} `{ScalarOps R}.

(** An [n] x [n] matrix with ones on the diagonal and zeros below it. *)
Definition unit_upper_triangular (n : Index) (X : Eigen.DenseMatrix (Complex R))
    : Prop :=
  shaped n n X /\
  forall (k : nat) (c : list (Complex R)),
    Eigen.columns X !! k = Some c ->
    c !! k = Some (mkComplex (of_Z 1) (of_Z 0)) /\
    forall (i : nat) (x : Complex R),
      (k < i)%nat -> c !! i = Some x -> x = of_real (of_Z 0).
End TriangularVocabulary.

Section ReturnVocabulary.
Context {A : Type}.

(** The computation returns, neither throwing nor running out of fuel,
    and its result satisfies [P]. *)
Definition returns (P : A -> Prop) (m : result A) : Prop :=
  exists x : A, m = Ok x /\ P x.
End ReturnVocabulary.

(** A shape of a matrix of the bench, by evaluation. *)
Ltac by_shape := unfold shaped; vm_compute; repeat split; repeat constructor.

(** * Properties *)

(** Closed goals over [binary64] and the bench are settled by evaluation. *)
Ltac by_evaluation := vm_compute; repeat split; first [reflexivity | discriminate | lia].

(** ** Checked accesses *)

Section AccessFacts.
Context {A : Type}.
Implicit Types (v : list A) (i : Index).

Lemma coeff_in_range v i x :
  0 <= i -> v !! Z.to_nat i = Some x -> Eigen.coeff v i = Ok x.
Proof.
  intros Hi Hx. unfold Eigen.coeff.
  destruct (Z.leb_spec 0 i); [now rewrite Hx | lia].
Qed.

Lemma coeff_past_end v i :
  Eigen.size v <= i ->
  Eigen.coeff v i = Throw (index_out_of_range i (Eigen.size v)).
Proof.
  unfold Eigen.size, Eigen.coeff. intros Hi.
  destruct (0 <=? i); [|reflexivity].
  rewrite lookup_ge_None_2; [reflexivity | lia].
Qed.

Lemma coeff_negative v i :
  i < 0 -> Eigen.coeff v i = Throw (index_out_of_range i (Eigen.size v)).
Proof.
  unfold Eigen.coeff. intros Hi.
  destruct (Z.leb_spec 0 i); [lia | reflexivity].
Qed.

Lemma coeff_Ok_inv v i x :
  Eigen.coeff v i = Ok x -> 0 <= i < Eigen.size v /\ v !! Z.to_nat i = Some x.
Proof.
  unfold Eigen.coeff, Eigen.size.
  destruct (Z.leb_spec 0 i) as [Hi|Hi]; [|discriminate].
  destruct (v !! Z.to_nat i) as [y|] eqn:Hy; [|discriminate].
  intros [= ->]. apply lookup_lt_Some in Hy as Hlt. split; [lia | reflexivity].
Qed.

Lemma coeff_lookup v i :
  0 <= i < Eigen.size v -> exists x, v !! Z.to_nat i = Some x /\ Eigen.coeff v i = Ok x.
Proof.
  unfold Eigen.size. intros Hi.
  destruct (lookup_lt_is_Some_2 v (Z.to_nat i)) as [x Hx]; [lia|].
  exists x. split; [assumption | apply coeff_in_range; [lia | assumption]].
Qed.

Lemma drop_at v i x :
  0 <= i -> v !! Z.to_nat i = Some x ->
  drop (Z.to_nat i) v = x :: drop (Z.to_nat (i + 1)) v.
Proof.
  intros Hi Hx. replace (Z.to_nat (i + 1)) with (S (Z.to_nat i)) by lia.
  now apply drop_S.
Qed.
End AccessFacts.

(** ** RestartArnoldi: the loop follows the shift schedule *)

Section RestartFacts.
Context {R : Type} `{ScalarOps R} `{!Krylov R R} `{!RealShiftQR R}.
Import RestartArnoldi.

Lemma pairs_closed_cons2 (v w : Complex R) rest :
  pairs_closed (v :: w :: rest) =
    if is_complex v && is_conj v w then pairs_closed rest
    else pairs_closed (w :: rest).
Proof. reflexivity. Qed.

Lemma shift_schedule_cons2 (v w : Complex R) rest :
  shift_schedule (v :: w :: rest) =
    if is_complex v && is_conj v w
    then DoubleShift (fmul (of_Z 2) (real v)) (norm v) :: shift_schedule rest
    else SingleShift (real v) :: shift_schedule (w :: rest).
Proof. reflexivity. Qed.

(** From index [i] on the loop is the walk over the remaining shifts: it
    returns what the schedule yields when the walk never needs the
    successor of the last value, and it stops on the read of
    [ritz_val[ncv]] otherwise. *)
Lemma run_loop_schedule (ritz_val : list (Complex R)) (fuel : nat) :
  forall (i : Index) (l : locals),
    0 <= i <= Eigen.size ritz_val ->
    (Z.to_nat (Eigen.size ritz_val - i) < fuel)%nat ->
    run_loop fuel ritz_val (Eigen.size ritz_val) i l =
      if pairs_closed (drop (Z.to_nat i) ritz_val)
      then Ok (apply_schedule (shift_schedule (drop (Z.to_nat i) ritz_val)) l)
      else Throw (index_out_of_range (Eigen.size ritz_val) (Eigen.size ritz_val)).
Proof.
  induction fuel as [|fuel IH]; intros i l Hi Hfuel; [lia|].
  cbn [run_loop].
  destruct (Z.ltb_spec i (Eigen.size ritz_val)) as [Hlt|Hge].
  - destruct (coeff_lookup ritz_val i) as (v & Hv & Hcv); [lia|].
    unfold conj_pair_at. rewrite Hcv. cbn [rbind].
    destruct (Z.ltb_spec (i + 1) (Eigen.size ritz_val)) as [Hlt1|Hge1].
    + destruct (coeff_lookup ritz_val (i + 1)) as (w & Hw & Hcw); [lia|].
      rewrite Hcw.
      rewrite (drop_at _ _ _ (proj1 Hi) Hv), (drop_at _ (i + 1) _ ltac:(lia) Hw).
      rewrite pairs_closed_cons2, shift_schedule_cons2.
      destruct (is_complex v) eqn:Hc; cbn [andb rbind].
      * destruct (is_conj v w) eqn:Hcj; cbn [rbind].
        -- rewrite IH by (unfold Eigen.size in *; lia). reflexivity.
        -- rewrite IH by (unfold Eigen.size in *; lia).
           rewrite (drop_at _ (i + 1) _ ltac:(lia) Hw). reflexivity.
      * rewrite IH by (unfold Eigen.size in *; lia).
        rewrite (drop_at _ (i + 1) _ ltac:(lia) Hw). reflexivity.
    + assert (i + 1 = Eigen.size ritz_val) as Heq by lia.
      rewrite (drop_at _ _ _ (proj1 Hi) Hv).
      rewrite (drop_ge ritz_val (Z.to_nat (i + 1))) by (unfold Eigen.size in *; lia).
      cbn [pairs_closed shift_schedule].
      destruct (is_complex v) eqn:Hc; cbn [negb].
      * rewrite coeff_past_end by lia. cbn [rbind]. now rewrite Heq.
      * cbn [rbind].
        rewrite IH by (unfold Eigen.size in *; lia).
        rewrite (drop_ge ritz_val (Z.to_nat (i + 1))) by (unfold Eigen.size in *; lia).
        reflexivity.
  - assert (i = Eigen.size ritz_val) as -> by lia.
    rewrite drop_ge by (unfold Eigen.size; lia). reflexivity.
Qed.

(** [run] on every vector and every start index [0 <= k]: the schedule of
    the shifts [ritz_val[k..]], or the read past the end. *)
Lemma run_follows_schedule (ritz_val : list (Complex R)) (k : Index)
    (fac0 : ArnoldiFac) (Q0 : Eigen.DenseMatrix R) :
  0 <= k ->
  let ncv := Eigen.size ritz_val in
  let shifts := drop (Z.to_nat k) ritz_val in
  let l0 := mkLocals fac0 Q0 (ds_new ncv) (hb_new ncv) in
  run ritz_val k fac0 Q0 =
    if pairs_closed shifts
    then let l := apply_schedule (shift_schedule shifts) l0 in Ok (fac l, Q l)
    else Throw (index_out_of_range ncv ncv).
Proof.
  intros Hk ncv shifts l0. unfold run. fold ncv. fold l0.
  destruct (Z.le_gt_cases k ncv) as [Hle|Hgt].
  - subst ncv. rewrite run_loop_schedule by lia. fold shifts.
    destruct (pairs_closed shifts); reflexivity.
  - replace (Z.to_nat (ncv - k)) with 0%nat by lia. cbn [run_loop].
    destruct (Z.ltb_spec k ncv); [lia|]. cbn [rbind].
    subst shifts. rewrite drop_ge by (unfold ncv, Eigen.size in *; lia).
    reflexivity.
Qed.
End RestartFacts.

Section RestartComplexFacts.
Context {R : Type} `{ScalarOps R} `{!Krylov R (Complex R)} `{!ComplexShiftQR R}.
Import RestartArnoldiComplex.

Lemma run_loop_complex (ritz_val : list (Complex R)) (fuel : nat) :
  forall (i : Index) (l : locals),
    0 <= i <= Eigen.size ritz_val ->
    (Z.to_nat (Eigen.size ritz_val - i) < fuel)%nat ->
    run_loop fuel ritz_val (Eigen.size ritz_val) i l =
      Ok (fold_left (fun l mu => single_shift mu l) (drop (Z.to_nat i) ritz_val) l).
Proof.
  induction fuel as [|fuel IH]; intros i l Hi Hfuel; [lia|].
  cbn [run_loop].
  destruct (Z.ltb_spec i (Eigen.size ritz_val)) as [Hlt|Hge].
  - destruct (coeff_lookup ritz_val i) as (v & Hv & Hcv); [lia|].
    rewrite Hcv. cbn [rbind].
    rewrite IH by (unfold Eigen.size in *; lia).
    rewrite (drop_at _ _ _ (proj1 Hi) Hv). reflexivity.
  - assert (i = Eigen.size ritz_val) as -> by lia.
    rewrite drop_ge by (unfold Eigen.size; lia). reflexivity.
Qed.

(** The complex specialization: one single shift per index from [k] on,
    each with the Ritz value itself, in order. *)
Lemma run_complex_single_shifts (ritz_val : list (Complex R)) (k : Index)
    (fac0 : ArnoldiFac) (Q0 : Eigen.DenseMatrix (Complex R)) :
  0 <= k ->
  let ncv := Eigen.size ritz_val in
  let l := fold_left (fun l mu => single_shift mu l) (drop (Z.to_nat k) ritz_val)
                     (mkLocals fac0 Q0 (hbc_new ncv)) in
  run ritz_val k fac0 Q0 = Ok (fac l, Q l).
Proof.
  intros Hk ncv l. unfold run. fold ncv.
  destruct (Z.le_gt_cases k ncv) as [Hle|Hgt].
  - subst ncv. rewrite run_loop_complex by lia. reflexivity.
  - replace (Z.to_nat (ncv - k)) with 0%nat by lia. cbn [run_loop].
    destruct (Z.ltb_spec k ncv); [lia|]. cbn [rbind].
    subst l. rewrite drop_ge by (unfold ncv, Eigen.size in *; lia).
    reflexivity.
Qed.
End RestartComplexFacts.

(** C1.  The dispatch the restart strategy describes holds on every run that
    stays inside the vector ([run_follows_schedule],
    [run_complex_single_shifts]).  It does not hold for every vector: with the
    Ritz values 1+i, 1, 1-i and k = 0 the description asks for three single
    shifts with the real shift 1, and the real-scalar [run] performs two of
    them and then, the last value being non-real, evaluates
    [is_conj(ritz_val[2], ritz_val[3])] on a vector of size 3. *)
Theorem run_unpaired_last_value_departs_from_schedule :
  let ritz_val := [binary64.c 1 1; binary64.c 1 0; binary64.c 1 (-1)] in
  let one := binary64.b64_of_Z 1 in
  RestartArnoldi.shift_schedule ritz_val =
    [RestartArnoldi.SingleShift one; RestartArnoldi.SingleShift one;
     RestartArnoldi.SingleShift one]
  /\ RestartArnoldi.run ritz_val 0 (3 : @ArnoldiFac _ _ Bench.krylov) (Bench.diag 3) =
       Throw (index_out_of_range 3 3).
Proof. split; vm_compute; reflexivity. Qed.

(** C9.  With k = ncv - 1 = 2 and a non-real last Ritz value, the only loop
    turn is i = 2 and its conjugate-pair test reads [ritz_val[3]], the index
    [ncv], outside the vector. *)
Theorem run_last_turn_reads_index_ncv :
  let ritz_val := [binary64.c 2 0; binary64.c 5 0; binary64.c 0 (-1)] in
  Eigen.size ritz_val = 3
  /\ RestartArnoldi.conj_pair_at ritz_val 2 = Throw (index_out_of_range 3 3)
  /\ RestartArnoldi.run ritz_val 2 (3 : @ArnoldiFac _ _ Bench.krylov) (Bench.diag 3) =
       Throw (index_out_of_range 3 3).
Proof. repeat split; vm_compute; reflexivity. Qed.

Section RestartBounds.
Context {R : Type} `{ScalarOps R} `{!Krylov R R} `{!RealShiftQR R}.
Import RestartArnoldi.

(** The same for every vector: started at the last index on a non-real
    value, [run] reads one past the end. *)
Lemma run_reads_past_end (ritz_val : list (Complex R)) (v : Complex R)
    (fac0 : ArnoldiFac) (Q0 : Eigen.DenseMatrix R) :
  last ritz_val = Some v ->
  is_complex v = true ->
  run ritz_val (Eigen.size ritz_val - 1) fac0 Q0 =
    Throw (index_out_of_range (Eigen.size ritz_val) (Eigen.size ritz_val)).
Proof.
  intros Hlast Hc.
  assert (ritz_val <> []) as Hne by (intros ->; discriminate).
  assert (0 < Eigen.size ritz_val) as Hpos.
  { unfold Eigen.size. destruct ritz_val; [congruence | cbn; lia]. }
  rewrite run_follows_schedule by lia. cbv zeta.
  rewrite last_lookup in Hlast.
  replace (Z.to_nat (Eigen.size ritz_val - 1)) with (pred (length ritz_val))
    by (unfold Eigen.size; lia).
  rewrite (drop_S _ _ _ Hlast).
  rewrite drop_ge by lia. cbn [pairs_closed]. now rewrite Hc.
Qed.
End RestartBounds.

(** ** GenEigsBase: the convergence test and the adjusted rank *)

Section VectorFacts.
Context {A : Type}.

Lemma head_in_range (v : list A) (n : Index) :
  0 <= n <= Eigen.size v -> Eigen.head v n = Ok (take (Z.to_nat n) v).
Proof.
  intros Hn. unfold Eigen.head.
  destruct (Z.leb_spec 0 n); [|lia].
  destruct (Z.leb_spec n (Eigen.size v)); [reflexivity | lia].
Qed.

Lemma set_coeff_in_range (v : list A) (i : Index) (x : A) :
  0 <= i < Eigen.size v ->
  Eigen.set_coeff v i x = Ok (<[Z.to_nat i := x]> v).
Proof.
  intros Hi. unfold Eigen.set_coeff.
  destruct (Z.leb_spec 0 i); [|lia].
  destruct (Z.ltb_spec i (Eigen.size v)); [reflexivity | lia].
Qed.

Lemma set_coeff_Ok_inv (v v' : list A) (i : Index) (x : A) :
  Eigen.set_coeff v i x = Ok v' ->
  0 <= i < Eigen.size v /\ v' = <[Z.to_nat i := x]> v.
Proof.
  unfold Eigen.set_coeff.
  destruct (Z.leb_spec 0 i); [|discriminate].
  destruct (Z.ltb_spec i (Eigen.size v)); [|discriminate].
  intros [= <-]. split; [lia | reflexivity].
Qed.

Lemma count_nonneg (a : list bool) : 0 <= Eigen.count a.
Proof. unfold Eigen.count. lia. Qed.

Lemma count_le_size (a : list bool) : Eigen.count a <= Eigen.size a.
Proof.
  unfold Eigen.count, Eigen.size.
  pose proof (List.filter_length_le id a). lia.
Qed.
End VectorFacts.

Section MaxFacts.
Context {R : Type} `{ScalarOps R} `{!LtStrictOrder R}.

(** [fmax a b] is one of its two arguments and neither of them is greater:
    a maximum of the two, in whichever order they are given. *)
Lemma fmax_is_a_maximum (a b : R) :
  (fmax a b = a \/ fmax a b = b)
  /\ flt (fmax a b) a = false /\ flt (fmax a b) b = false.
Proof.
  unfold fmax. destruct (flt a b) eqn:Hab.
  - split; [now right|]. split; [|apply flt_irrefl].
    destruct (flt b a) eqn:Hba; [|reflexivity].
    pose proof (flt_trans _ _ _ Hab Hba) as Haa.
    now rewrite flt_irrefl in Haa.
  - split; [now left|]. split; [apply flt_irrefl | assumption].
Qed.
End MaxFacts.

Section ConvergenceFacts.
Context {R Scalar : Type} `{ScalarOps R} `{!TypeTraits R} `{!Krylov R Scalar}
        `{!Specialization R Scalar} `{!Sorter R}
        `{!Eigen.Uninit (Complex R)} `{!Eigen.Uninit bool}.
Import GenEigsBase.

(** C2.  [num_converged] stores one flag for each of the first [nev] Ritz
    values; the flag of index [i] is the outcome of the comparison
    [|ritz_est[i]| * f_norm < tol * max(|ritz_val[i]|, eps^(2/3))], and the
    value returned is the number of flags that are set. *)
Theorem num_converged_marks_residual_below_threshold (tol : R) (s : t) :
  0 <= m_nev s <= Eigen.size (m_ritz_val s) ->
  m_nev s <= Eigen.size (m_ritz_est s) ->
  let eps23 := fpow TypeTraits_epsilon (fdiv (of_Z 2) (of_Z 3)) in
  exists conv : list bool,
    num_converged tol s = (Ok (Eigen.count conv), set_ritz_conv conv s)
    /\ Eigen.size conv = m_nev s
    /\ forall (i : Index) (v e : Complex R),
         0 <= i < m_nev s ->
         m_ritz_val s !! Z.to_nat i = Some v ->
         m_ritz_est s !! Z.to_nat i = Some e ->
         conv !! Z.to_nat i =
           Some (flt (fmul (cabs e) (f_norm (m_fac s)))
                     (fmul tol (fmax (cabs v) eps23))).
Proof.
  intros Hval Hest eps23.
  unfold num_converged, convergence_flags, bind, get, lift, modify, ret.
  rewrite !head_in_range by lia. cbn [rbind].
  eexists. split; [reflexivity|]. split.
  - unfold Eigen.size in *.
    rewrite length_zip_with, !length_fmap, !length_take. lia.
  - intros i v e Hi Hv He.
    rewrite lookup_zip_with, !list_lookup_fmap.
    rewrite !lookup_take_lt by lia.
    rewrite Hv, He. reflexivity.
Qed.

(** The counting loop of [nev_adjusted] over the unwanted estimates. *)
Lemma count_locked (ritz_est : list (Complex R)) (near_0 : R) (n : nat) :
  forall (i acc : Index),
    0 <= i -> i + Z.of_nat n <= Eigen.size ritz_est ->
    rfold (fun nev_new i =>
             let+ e := Eigen.coeff ritz_est i in
             Ok (if flt (cabs e) near_0 then nev_new + 1 else nev_new))
          (seqZ i (Z.of_nat n)) acc =
      Ok (acc + Z.of_nat (length (List.filter (fun e => flt (cabs e) near_0)
                                    (take n (drop (Z.to_nat i) ritz_est))))).
Proof.
  induction n as [|n IH]; intros i acc Hi Hlen.
  - rewrite take_0. cbn. f_equal. lia.
  - rewrite seqZ_cons by lia. cbn [rfold].
    destruct (coeff_lookup ritz_est i) as (e & He & Hce); [lia|].
    rewrite Hce. cbn [rbind].
    replace (Z.pred (Z.of_nat (S n))) with (Z.of_nat n) by lia.
    rewrite IH by lia.
    rewrite (drop_at _ _ _ Hi He). replace (Z.succ i) with (i + 1) by lia.
    cbn [take List.filter].
    destruct (flt (cabs e) near_0); cbn [length]; f_equal; lia.
Qed.

(** C3.  On a solver whose Ritz vectors have their [ncv] entries and whose
    parameters passed the constructor's checks, [nev_adjusted] returns the
    value of the worded recipe. *)
Theorem nev_adjusted_follows_recipe (s : t) (nconv : Index) :
  1 <= m_nev s ->
  m_nev s + 2 <= m_ncv s ->
  Eigen.size (m_ritz_val s) = m_ncv s ->
  Eigen.size (m_ritz_est s) = m_ncv s ->
  0 <= nconv ->
  nev_adjusted nconv s =
    (Ok (nev_adjusted_recipe (m_nev s) (m_ncv s) (m_ritz_val s) (m_ritz_est s) nconv), s).
Proof.
  intros Hnev Hncv Hval Hest Hnconv.
  unfold nev_adjusted, bind, get, lift. f_equal.
  unfold nev_adjusted_on, nev_adjusted_recipe.
  set (near_0 := fmul TypeTraits_min (of_Z 10)).
  replace (m_ncv s - m_nev s) with (Z.of_nat (Z.to_nat (m_ncv s - m_nev s))) at 1 by lia.
  rewrite count_locked by lia. cbn [rbind].
  set (locked := Z.of_nat (length _)).
  assert (0 <= locked <= m_ncv s - m_nev s) as Hlocked.
  { subst locked. split; [lia|].
    etransitivity; [apply inj_le, List.filter_length_le|].
    rewrite length_take. lia. }
  rewrite Z.quot_div_nonneg by lia.
  set (r2 := m_nev s + locked + Z.min nconv ((m_ncv s - (m_nev s + locked)) / 2)).
  assert (0 <= (m_ncv s - (m_nev s + locked)) / 2) as Hhalf
    by (apply Z.div_pos; lia).
  assert (1 <= r2) as Hr2 by (subst r2; lia).
  rewrite (Z.geb_leb (m_ncv s) 6), (Z.gtb_ltb (m_ncv s) 3).
  rewrite Z.quot_div_nonneg by lia.
  set (r3 := if (r2 =? 1) && (6 <=? m_ncv s) then m_ncv s / 2
             else if (r2 =? 1) && (3 <? m_ncv s) then 2 else r2).
  assert (1 <= r3) as Hr3.
  { subst r3. destruct (Z.eqb_spec r2 1); cbn [andb]; [|lia].
    destruct (Z.leb_spec 6 (m_ncv s)); [|destruct (Z.ltb_spec 3 (m_ncv s)); lia].
    assert (3 <= m_ncv s / 2) by (apply Z.div_le_lower_bound; lia). lia. }
  replace (if r3 >? m_ncv s - 2 then m_ncv s - 2 else r3) with (Z.min r3 (m_ncv s - 2)).
  2:{ rewrite Z.gtb_ltb. destruct (Z.ltb_spec (m_ncv s - 2) r3); lia. }
  set (r4 := Z.min r3 (m_ncv s - 2)).
  assert (1 <= r4 <= m_ncv s - 2) as Hr4 by (subst r4; lia).
  destruct (coeff_lookup (m_ritz_val s) (r4 - 1)) as (a & Ha & Hca); [lia|].
  destruct (coeff_lookup (m_ritz_val s) r4) as (b & Hb & Hcb); [lia|].
  rewrite Hca, Hcb. cbn [rbind].
  unfold splits_pair. rewrite Ha, Hb.
  destruct (is_complex a); cbn [rbind andb]; reflexivity.
Qed.
End ConvergenceFacts.

(** ** GenEigsBase: what the member functions leave alone *)

Section FrameFacts.
Context {R Scalar : Type} `{ScalarOps R} `{!TypeTraits R} `{!Krylov R Scalar}
        `{!Specialization R Scalar} `{!Sorter R}
        `{!Eigen.Uninit (Complex R)} `{!Eigen.Uninit bool}.
Import GenEigsBase.

#[global] Instance restart_frame_preorder : PreOrder restart_frame.
Proof.
  split.
  - intros s. unfold restart_frame. tauto.
  - intros s1 s2 s3. unfold restart_frame. intuition congruence.
Qed.

#[global] Instance params_frame_preorder : PreOrder params_frame.
Proof.
  split.
  - intros s. unfold params_frame. tauto.
  - intros s1 s2 s3. unfold params_frame. intuition congruence.
Qed.

Lemma restart_frame_params (s s' : t) : restart_frame s s' -> params_frame s s'.
Proof. unfold restart_frame, params_frame. tauto. Qed.

Section Keeps.
Variable F : t -> t -> Prop.
Context `{!PreOrder F}.

Lemma keeps_ret {A : Type} (a : A) : keeps F (ret a).
Proof. intros s. reflexivity. Qed.

Lemma keeps_lift {A : Type} (r : result A) : keeps F (lift r).
Proof. intros s. reflexivity. Qed.

Lemma keeps_get : keeps F get.
Proof. intros s. reflexivity. Qed.

Lemma keeps_bind {A B : Type} (m : M t A) (k : A -> M t B) :
  keeps F m -> (forall a, keeps F (k a)) -> keeps F (bind m k).
Proof.
  intros Hm Hk s. unfold bind. specialize (Hm s).
  destruct (m s) as [[a| |] s1]; cbn [snd] in *; try assumption.
  etransitivity; [exact Hm | apply Hk].
Qed.

Lemma keeps_modify (f : t -> t) : (forall s, F s (f s)) -> keeps F (modify f).
Proof. intros Hf s. apply Hf. Qed.

Lemma keeps_mfor {A : Type} (l : list A) (body : A -> M t unit) :
  (forall a, keeps F (body a)) -> keeps F (mfor l body).
Proof.
  intros Hb. induction l as [|a l IH]; cbn [mfor].
  - apply keeps_ret.
  - apply keeps_bind; [apply Hb | intros _; exact IH].
Qed.

Lemma keeps_run {A : Type} (m : M t A) (s s' : t) (r : result A) :
  keeps F m -> m s = (r, s') -> F s s'.
Proof. intros Hm Hs. specialize (Hm s). now rewrite Hs in Hm. Qed.
End Keeps.

Ltac keeps_step :=
  first
    [ apply keeps_ret; apply _ | apply keeps_lift; apply _ | apply keeps_get; apply _
    | apply keeps_modify; intros ?; unfold restart_frame, params_frame; cbn; tauto
    | apply keeps_mfor; [apply _ | intros ?]
    | apply keeps_bind; [apply _ | | intros ?]
    | match goal with
      | |- keeps _ (match ?x with _ => _ end) => destruct x
      end ].

Lemma keeps_restart (k : Index) (selection : SortRule) :
  keeps restart_frame (restart k selection).
Proof. unfold restart. repeat keeps_step. Qed.

Lemma keeps_nev_adjusted (nconv : Index) : keeps restart_frame (nev_adjusted nconv).
Proof. unfold nev_adjusted. repeat keeps_step. Qed.

Lemma keeps_prologue (selection : SortRule) (to_m : Index) :
  keeps restart_frame
    (let* _ := factorize 1 to_m in retrieve_ritzpair selection).
Proof. unfold factorize, retrieve_ritzpair. repeat keeps_step. Qed.

Lemma keeps_sort_ritzpair (sort_rule : SortRule) :
  keeps params_frame (sort_ritzpair sort_rule).
Proof. unfold sort_ritzpair. repeat keeps_step. Qed.

(** [num_converged] writes the flags and returns their count. *)
Lemma num_converged_Ok (tol : R) (s s' : t) (n : Index) :
  num_converged tol s = (Ok n, s') ->
  exists conv : list bool,
    s' = set_ritz_conv conv s /\ n = Eigen.count conv /\
    convergence_flags tol (m_nev s) (f_norm (m_fac s)) (m_ritz_val s) (m_ritz_est s)
      = Ok conv.
Proof.
  unfold num_converged, bind, get, lift, modify, ret.
  destruct (convergence_flags _ _ _ _ _) as [conv| |]; try discriminate.
  intros [= <- <-]. exists conv. auto.
Qed.

Lemma convergence_flags_size (tol : R) (nev : Index) (fnorm : R)
    (ritz_val ritz_est : list (Complex R)) (conv : list bool) :
  convergence_flags tol nev fnorm ritz_val ritz_est = Ok conv ->
  Eigen.size conv = nev /\ 0 <= nev <= Eigen.size ritz_val.
Proof.
  unfold convergence_flags, Eigen.head.
  destruct (Z.leb_spec 0 nev); [|discriminate].
  destruct (Z.leb_spec nev (Eigen.size ritz_val)); [|discriminate].
  destruct (Z.leb_spec nev (Eigen.size ritz_est)); [|discriminate].
  cbn. intros [= <-]. unfold Eigen.size in *.
  rewrite length_zip_with, !length_fmap, !length_take. lia.
Qed.

(** *** The restarting loop *)

(** When the loop is left normally: either no turn ran, or the flags are
    those of the last test, [nconv] is their count, and the loop was left
    by [break] before the budget was used up or by the budget with fewer
    than [nev] converged values. *)
Lemma compute_loop_Ok (selection : SortRule) (maxit : Index) (tol : R)
    (fuel : nat) :
  forall (i nconv : Index) (s : t) (i' nconv' : Index) (s' : t),
    compute_loop fuel selection maxit tol i nconv s = (Ok (i', nconv'), s') ->
    params_frame s s' /\
    ((maxit <= i /\ i' = i /\ nconv' = nconv /\ s' = s) \/
     (i < maxit /\ i <= i' <= maxit /\
      nconv' = Eigen.count (m_ritz_conv s') /\
      Eigen.size (m_ritz_conv s') = m_nev s /\
      ((i' < maxit /\ m_nev s <= nconv') \/ (i' = maxit /\ nconv' < m_nev s)))).
Proof.
  induction fuel as [|fuel IH]; intros i nconv s i' nconv' s' Hrun;
    cbn [compute_loop] in Hrun; [discriminate|].
  destruct (Z.ltb_spec i maxit) as [Hlt|Hge].
  2:{ unfold ret in Hrun. injection Hrun as <- <- <-.
      split; [reflexivity | left; auto]. }
  unfold bind at 1 in Hrun.
  destruct (num_converged tol s) as [[n| |] s1] eqn:Hnc; try discriminate.
  apply num_converged_Ok in Hnc as (conv & -> & -> & Hflags).
  apply convergence_flags_size in Hflags as [Hsize _].
  unfold bind at 1, get at 1 in Hrun.
  change (m_nev (set_ritz_conv conv s)) with (m_nev s) in Hrun.
  destruct (Z.geb_spec (Eigen.count conv) (m_nev s)) as [Hconv|Hnot].
  { unfold ret in Hrun. injection Hrun as <- <- <-.
    split; [unfold params_frame; cbn; tauto|].
    right. cbn. repeat split; lia. }
  unfold bind at 1 in Hrun.
  destruct (nev_adjusted _ _) as [[k| |] s2] eqn:Hadj; try discriminate.
  apply (keeps_run _ _ _ _ _ (keeps_nev_adjusted _)) in Hadj.
  unfold bind at 1 in Hrun.
  destruct (restart k selection s2) as [[[]| |] s3] eqn:Hres; try discriminate.
  apply (keeps_run _ _ _ _ _ (keeps_restart _ _)) in Hres.
  apply IH in Hrun as [Hframe Hcases].
  assert (restart_frame (set_ritz_conv conv s) s3) as Hf13
    by (etransitivity; eassumption).
  destruct Hf13 as (Hn & Hnev & Hncv & Hniter & Hcv & Hinfo). cbn in *.
  split.
  { destruct Hframe as (? & ? & ? & ? & ?).
    unfold params_frame. intuition congruence. }
  right. split; [assumption|].
  destruct Hcases as [(Hm & -> & -> & ->) | (Hlt' & Hi' & Hcount & Hsz & Hend)].
  - rewrite Hcv. repeat split; lia.
  - rewrite Hnev in *. repeat split; try lia; try assumption.
Qed.
End FrameFacts.

(** ** GenEigsBase: the final sort and the accessor *)

Lemma count_Permutation (a b : list bool) :
  Permutation a b -> Eigen.count a = Eigen.count b.
Proof.
  unfold Eigen.count. intros Hp. f_equal.
  induction Hp as [|x a b _ IH|x y a|a b c _ IH1 _ IH2]; cbn.
  - reflexivity.
  - destruct x; cbn; lia.
  - destruct x, y; reflexivity.
  - lia.
Qed.

Lemma count_cons (b : bool) (a : list bool) :
  Eigen.count (b :: a) = (if b then 1 else 0) + Eigen.count a.
Proof. unfold Eigen.count. destruct b; cbn [List.filter id length]; lia. Qed.

Section SortFacts.
Context {R Scalar : Type} `{ScalarOps R} `{!TypeTraits R} `{!Krylov R Scalar}
        `{!Specialization R Scalar} `{!Sorter R}
        `{!Eigen.Uninit (Complex R)} `{!Eigen.Uninit bool}.
Import GenEigsBase.

(** The copying loop of [sort_ritzpair], read on the flags: entry [i] of
    the new array is the old flag of index [ind[i]]. *)
Lemma sort_loop_flags (ind : list Index) (rval : list (Complex R))
    (rvec : Eigen.DenseMatrix (Complex R)) (rconv : list bool) (n : nat) :
  forall (k : nat) nval nvec nconv nval' nvec' nconv',
    rfold (fun '(nval, nvec, nconv) i =>
             let+ j := Eigen.coeff ind i in
             let+ v := Eigen.coeff rval j in
             let+ nval' := Eigen.set_coeff nval i v in
             let+ c := Eigen.col rvec j in
             let+ nvec' := Eigen.set_col nvec i c in
             let+ b := Eigen.coeff rconv j in
             let+ nconv' := Eigen.set_coeff nconv i b in
             Ok (nval', nvec', nconv'))
          (seqZ (Z.of_nat k) (Z.of_nat n)) (nval, nvec, nconv)
      = Ok (nval', nvec', nconv') ->
    length nconv' = length nconv /\ length nval' = length nval /\
    (n = 0%nat \/ (k + n <= length nval)%nat) /\
    take k nconv' = take k nconv /\
    forall i : nat, (k <= i < k + n)%nat ->
      exists (j : Index) (b : bool),
        ind !! i = Some j /\ 0 <= j /\ rconv !! Z.to_nat j = Some b /\
        nconv' !! i = Some b.
Proof.
  induction n as [|n IH]; intros k nval nvec nconv nval' nvec' nconv' Hrun.
  - cbn in Hrun. injection Hrun as <- <- <-.
    repeat split; auto. intros i Hi. lia.
  - rewrite seqZ_cons in Hrun by lia. cbn [rfold] in Hrun.
    destruct (Eigen.coeff ind (Z.of_nat k)) as [j| |] eqn:Hj; try discriminate.
    cbn [rbind] in Hrun.
    destruct (Eigen.coeff rval j) as [v| |] eqn:Hv; try discriminate.
    cbn [rbind] in Hrun.
    destruct (Eigen.set_coeff nval (Z.of_nat k) v) as [nval1| |] eqn:Hnv;
      try discriminate.
    cbn [rbind] in Hrun.
    destruct (Eigen.col rvec j) as [c| |]; try discriminate.
    cbn [rbind] in Hrun.
    destruct (Eigen.set_col nvec (Z.of_nat k) c) as [nvec1| |]; try discriminate.
    cbn [rbind] in Hrun.
    destruct (Eigen.coeff rconv j) as [b| |] eqn:Hb; try discriminate.
    cbn [rbind] in Hrun.
    destruct (Eigen.set_coeff nconv (Z.of_nat k) b) as [nconv1| |] eqn:Hnc;
      try discriminate.
    cbn [rbind] in Hrun.
    replace (Z.succ (Z.of_nat k)) with (Z.of_nat (S k)) in Hrun by lia.
    replace (Z.pred (Z.of_nat (S n))) with (Z.of_nat n) in Hrun by lia.
    apply IH in Hrun as (Hlen & Hlenv & Hbound & Htake & Hent).
    apply set_coeff_Ok_inv in Hnc as [Hk ->].
    apply set_coeff_Ok_inv in Hnv as [Hkv ->].
    apply coeff_Ok_inv in Hj as [_ Hj].
    apply coeff_Ok_inv in Hb as [Hj0 Hb].
    rewrite Nat2Z.id in *. unfold Eigen.size in *.
    rewrite length_insert in Hlen. rewrite length_insert in Hlenv.
    rewrite length_insert in Hbound.
    assert (nconv' !! k = Some b) as Hk'.
    { assert (take (S k) nconv' !! k = take (S k) (<[k:=b]> nconv) !! k) as E
        by now rewrite Htake.
      rewrite !lookup_take_lt in E by lia.
      rewrite E. apply list_lookup_insert_eq. lia. }
    split; [assumption|]. split; [assumption|].
    split; [right; destruct Hbound; lia|]. split.
    + apply (f_equal (take k)) in Htake.
      rewrite !take_take in Htake.
      replace (k `min` S k)%nat with k in Htake by lia.
      rewrite Htake. apply take_insert_ge. lia.
    + intros i Hi. destruct (decide (i = k)) as [->|Hne].
      * exists j, b. repeat split; try assumption; lia.
      * apply Hent. lia.
Qed.

(** [sort_ritzpair] reorders the flags: given a sorter that yields each
    index once, the new flags are a permutation of the old ones. *)
Lemma sort_ritzpair_flags `{!SorterPermutes R} (sort_rule : SortRule) (s s' : t) :
  sort_ritzpair sort_rule s = (Ok tt, s') ->
  Eigen.size (m_ritz_conv s) = m_nev s ->
  Permutation (m_ritz_conv s') (m_ritz_conv s) /\
  (0 < m_nev s -> m_nev s <= Eigen.size (m_ritz_val s')).
Proof.
  intros Hrun Hsize. unfold sort_ritzpair, bind, get, lift, modify in Hrun.
  destruct (sorted_indices _ _ _ _) as [ind| |] eqn:Hind; try discriminate.
  assert (Permutation ind (seqZ 0 (m_nev s))) as Hperm.
  { unfold sorted_indices in Hind.
    destruct sort_rule; try discriminate; injection Hind as <-;
      apply sort_index_permutes. }
  match type of Hrun with
  | context [rfold ?f ?l ?init] => destruct (rfold f l init) as [[[nval nvec] nconv]| |] eqn:Hloop
  end; try discriminate.
  injection Hrun as <-. cbn [m_ritz_conv m_ritz_val set_ritz_conv set_ritz_vec set_ritz_val].
  assert (0 <= m_nev s) as Hnev by (unfold Eigen.size in Hsize; lia).
  assert (seqZ 0 (m_nev s) = seqZ (Z.of_nat 0) (Z.of_nat (Z.to_nat (m_nev s)))) as Es
    by (f_equal; lia).
  rewrite Es in Hloop. clear Es.
  apply (sort_loop_flags _ _ _ _ _ 0) in Hloop as (Hlen & Hlenv & Hbound & _ & Hent).
  rewrite length_replicate in Hlen. rewrite length_replicate in Hlenv.
  split.
  - assert (length ind = Z.to_nat (m_nev s)) as Hlind
      by (rewrite (Permutation_length Hperm), length_seqZ; reflexivity).
    set (g := fun j : Index => default false (m_ritz_conv s !! Z.to_nat j)).
    assert (nconv = g <$> ind) as ->.
    { apply list_eq. intros i. rewrite list_lookup_fmap.
      destruct (decide (i < Z.to_nat (m_nev s))%nat) as [Hi|Hi].
      - destruct (Hent i) as (j & b & Hj & _ & Hb & Hn); [lia|].
        rewrite Hn, Hj. cbn. unfold g. now rewrite Hb.
      - rewrite !lookup_ge_None_2; [reflexivity|lia|lia]. }
    rewrite Hperm.
    assert (m_ritz_conv s = g <$> seqZ 0 (m_nev s)) as Heq.
    { apply list_eq. intros i. rewrite list_lookup_fmap.
      unfold Eigen.size in Hsize.
      destruct (decide (i < Z.to_nat (m_nev s))%nat) as [Hi|Hi].
      - rewrite (lookup_seqZ_lt _ _ i) by lia. cbn. unfold g.
        replace (Z.to_nat (0 + Z.of_nat i)) with i by lia.
        destruct (lookup_lt_is_Some_2 (m_ritz_conv s) i) as [b Hb]; [lia|].
        now rewrite Hb.
      - rewrite lookup_seqZ_ge by lia. cbn. apply lookup_ge_None_2. lia. }
    rewrite <- Heq. reflexivity.
  - intros Hpos. unfold Eigen.size. rewrite Hlenv.
    destruct Hbound as [Hz|Hb]; [lia|]. rewrite length_replicate in Hb. lia.
Qed.

Lemma flagged_length (vals : list (Complex R)) (flags : list bool) :
  (length flags <= length vals)%nat ->
  Eigen.size (flagged vals flags) = Eigen.count flags.
Proof.
  revert flags. induction vals as [|v vals IH]; intros [|b flags] Hlen;
    cbn [flagged length] in *; try reflexivity; try lia.
  rewrite count_cons. unfold Eigen.size in *.
  destruct b; cbn [length]; rewrite <- IH by lia; lia.
Qed.
End SortFacts.

Section AccessorFacts.
Context {R Scalar : Type} `{ScalarOps R} `{!TypeTraits R} `{!Krylov R Scalar}
        `{!Specialization R Scalar} `{!Sorter R}
        `{!Eigen.Uninit (Complex R)} `{!Eigen.Uninit bool}.
Import GenEigsBase.

(** The copying loop of [eigenvalues()]: [pre] holds what was copied, [pad]
    entries are still to be written. *)
Lemma eigenvalues_loop (rval : list (Complex R)) (rconv : list bool) (n : nat) :
  forall (i : nat) (pre : list (Complex R)),
    (i + n = length rconv)%nat -> (length rconv <= length rval)%nat ->
    rfold (fun '(res, j) i =>
             let+ b := Eigen.coeff rconv i in
             if b : bool then
               let+ v := Eigen.coeff rval i in
               let+ res' := Eigen.set_coeff res j v in
               Ok (res', j + 1)
             else Ok (res, j))
          (seqZ (Z.of_nat i) (Z.of_nat n))
          (pre ++ replicate (Z.to_nat (Eigen.count (drop i rconv))) Eigen.indeterminate,
           Z.of_nat (length pre))
      = Ok (pre ++ flagged (drop i rval) (drop i rconv),
            Z.of_nat (length pre) + Eigen.count (drop i rconv)).
Proof.
  induction n as [|n IH]; intros i pre Hi Hlen.
  - rewrite (drop_ge rconv) by lia. cbn.
    destruct (drop i rval); unfold Eigen.count; cbn; repeat f_equal; lia.
  - rewrite seqZ_cons by lia. cbn [rfold].
    destruct (lookup_lt_is_Some_2 rconv i) as [b Hb]; [lia|].
    destruct (lookup_lt_is_Some_2 rval i) as [v Hv]; [lia|].
    rewrite (coeff_in_range rconv (Z.of_nat i) b) by (rewrite ?Nat2Z.id; auto; lia).
    cbn [rbind].
    rewrite (drop_S _ _ _ Hb), (drop_S _ _ _ Hv). cbn [flagged].
    rewrite count_cons.
    replace (Z.succ (Z.of_nat i)) with (Z.of_nat (S i)) by lia.
    replace (Z.pred (Z.of_nat (S n))) with (Z.of_nat n) by lia.
    pose proof (count_nonneg (drop (S i) rconv)) as Hc.
    destruct b.
    + rewrite (coeff_in_range rval (Z.of_nat i) v) by (rewrite ?Nat2Z.id; auto; lia).
      cbn [rbind].
      replace (Z.to_nat (1 + Eigen.count (drop (S i) rconv)))
        with (S (Z.to_nat (Eigen.count (drop (S i) rconv)))) by lia.
      rewrite set_coeff_in_range
        by (unfold Eigen.size; rewrite length_app; cbn [replicate length]; lia).
      cbn [rbind]. rewrite Nat2Z.id.
      rewrite insert_app_r_alt by lia.
      replace (length pre - length pre)%nat with 0%nat by lia.
      cbn [replicate insert list_insert].
      specialize (IH (S i) (pre ++ [v])).
      rewrite length_app in IH. cbn [length] in IH.
      replace (Z.of_nat (length pre) + 1) with (Z.of_nat (length pre + 1)) by lia.
      rewrite <- !app_assoc in IH. cbn [app] in IH.
      rewrite IH by lia. f_equal. f_equal. lia.
    + replace (0 + Eigen.count (drop (S i) rconv))
        with (Eigen.count (drop (S i) rconv)) by lia.
      cbn [rbind]. now rewrite IH by lia.
Qed.

(** On a solver holding one flag per requested value, [eigenvalues()]
    returns the Ritz values whose flag is set, in order. *)
Lemma eigenvalues_returns_flagged (s : t) :
  Eigen.size (m_ritz_conv s) = m_nev s ->
  m_nev s <= Eigen.size (m_ritz_val s) ->
  eigenvalues s = (Ok (flagged (m_ritz_val s) (m_ritz_conv s)), s).
Proof.
  intros Hconv Hval. unfold eigenvalues, bind, get, ret, lift.
  unfold Eigen.size in *.
  destruct (Z.eqb_spec (Eigen.count (m_ritz_conv s)) 0) as [Hz|Hnz].
  - rewrite Hz. cbn [Z.to_nat replicate].
    pose proof (flagged_length (m_ritz_val s) (m_ritz_conv s) ltac:(lia)) as Hl.
    rewrite Hz in Hl. unfold Eigen.size in Hl.
    destruct (flagged _ _); [reflexivity | cbn in Hl; lia].
  - pose proof (eigenvalues_loop (m_ritz_val s) (m_ritz_conv s)
                  (length (m_ritz_conv s)) 0 [] ltac:(lia) ltac:(lia)) as Hloop.
    change (Z.of_nat 0) with 0 in Hloop. rewrite !drop_0 in Hloop.
    cbn [app length] in Hloop. change (Z.of_nat 0) with 0 in Hloop.
    rewrite <- Hconv. rewrite Hloop. reflexivity.
Qed.
End AccessorFacts.

(** ** GenEigsBase: compute *)

Section ComputeFacts.
Context {R Scalar : Type} `{ScalarOps R} `{!TypeTraits R} `{!Krylov R Scalar}
        `{!Specialization R Scalar} `{!Sorter R}
        `{!Eigen.Uninit (Complex R)} `{!Eigen.Uninit bool}.
Import GenEigsBase.

(** How the loop of [compute] is left. *)
Lemma compute_until_sorting_Ok (selection : SortRule) (maxit : Index) (tol : R)
    (s : t) (i nconv : Index) (s1 : t) :
  compute_until_sorting selection maxit tol s = (Ok (i, nconv), s1) ->
  params_frame s s1 /\
  ((maxit <= 0 /\ i = 0 /\ nconv = 0) \/
   (0 < maxit /\ 0 <= i <= maxit /\
    nconv = Eigen.count (m_ritz_conv s1) /\
    Eigen.size (m_ritz_conv s1) = m_nev s /\
    ((i < maxit /\ m_nev s <= nconv) \/ (i = maxit /\ nconv < m_nev s)))).
Proof.
  unfold compute_until_sorting. unfold bind at 1, get at 1.
  intros Hrun. unfold bind at 1 in Hrun.
  destruct (factorize 1 (m_ncv s) s) as [[[]| |] sa] eqn:Hfac; try discriminate.
  unfold bind at 1 in Hrun.
  destruct (retrieve_ritzpair selection sa) as [[[]| |] sb] eqn:Hret;
    try discriminate.
  pose proof (keeps_prologue selection (m_ncv s) s) as Hpro.
  unfold bind in Hpro. rewrite Hfac, Hret in Hpro. cbn [snd] in Hpro.
  apply restart_frame_params in Hpro as Hpar.
  apply compute_loop_Ok in Hrun as [Hframe Hcases].
  split; [etransitivity; eassumption|].
  destruct Hpro as (_ & Hnev & _).
  destruct Hcases as [(Hm & -> & -> & ->) | (Hlt & Hi & Hcount & Hsz & Hend)].
  - left. auto.
  - right. rewrite Hnev in *. auto.
Qed.

Lemma compute_finish_run (sorting : SortRule) (i nconv : Index) (s1 : t) :
  compute_finish sorting i nconv s1 =
    match sort_ritzpair sorting s1 with
    | (Ok _, s2) =>
        (Ok (Z.min (m_nev s1) nconv),
         set_info (if nconv >=? m_nev s1 then Successful else NotConverging)
                  (set_niter (m_niter s2 + (i + 1)) s2))
    | (Throw e, s2) => (Throw e, s2)
    | (OutOfFuel, s2) => (OutOfFuel, s2)
    end.
Proof.
  unfold compute_finish, bind, get, modify, ret.
  destruct (sort_ritzpair sorting s1) as [[[]| |] s2]; reflexivity.
Qed.

(** [compute] is its loop followed by its tail. *)
Lemma compute_split (selection : SortRule) (maxit : Index) (tol : R)
    (sorting : SortRule) (s : t) :
  compute selection maxit tol sorting s =
    match compute_until_sorting selection maxit tol s with
    | (Ok (i, nconv), s1) => compute_finish sorting i nconv s1
    | (Throw e, s1) => (Throw e, s1)
    | (OutOfFuel, s1) => (OutOfFuel, s1)
    end.
Proof.
  destruct (compute_until_sorting selection maxit tol s) as [[[i nconv]| |] s1] eqn:Hrun.
  - apply compute_until_sorting_Ok in Hrun as Hfacts.
    destruct Hfacts as [(_ & Hnev & _) _].
    rewrite compute_finish_run, Hnev.
    unfold compute_until_sorting, bind, get in Hrun.
    unfold compute, bind, get, modify, ret.
    destruct (factorize 1 (m_ncv s) s) as [[[]| |] sa]; try discriminate.
    destruct (retrieve_ritzpair selection sa) as [[[]| |] sb]; try discriminate.
    rewrite Hrun.
    destruct (sort_ritzpair sorting s1) as [[[]| |] s2]; reflexivity.
  - unfold compute_until_sorting, bind, get in Hrun.
    unfold compute, bind, get.
    destruct (factorize 1 (m_ncv s) s) as [[[]| |] sa]; try discriminate;
      [|now inversion Hrun].
    destruct (retrieve_ritzpair selection sa) as [[[]| |] sb]; try discriminate;
      [|now inversion Hrun].
    now rewrite Hrun.
  - unfold compute_until_sorting, bind, get in Hrun.
    unfold compute, bind, get.
    destruct (factorize 1 (m_ncv s) s) as [[[]| |] sa]; try discriminate;
      [|now inversion Hrun].
    destruct (retrieve_ritzpair selection sa) as [[[]| |] sb]; try discriminate;
      [|now inversion Hrun].
    now rewrite Hrun.
Qed.

(** The iteration counter after [compute]: it grows by [i + 1], where [i]
    is the loop variable when the loop is left. *)
Lemma compute_niter (selection : SortRule) (maxit : Index) (tol : R)
    (sorting : SortRule) (s s' : t) (r : Index) :
  compute selection maxit tol sorting s = (Ok r, s') ->
  exists (i nconv : Index) (s1 : t),
    compute_until_sorting selection maxit tol s = (Ok (i, nconv), s1) /\
    m_niter s' = m_niter s + (i + 1) /\
    m_info s' = (if nconv >=? m_nev s then Successful else NotConverging) /\
    r = Z.min (m_nev s) nconv.
Proof.
  rewrite compute_split.
  destruct (compute_until_sorting selection maxit tol s) as [[[i nconv]| |] s1] eqn:Hrun;
    try discriminate.
  rewrite compute_finish_run.
  destruct (sort_ritzpair sorting s1) as [[[]| |] s2] eqn:Hsort; try discriminate.
  intros [= <- <-]. exists i, nconv, s1.
  apply compute_until_sorting_Ok in Hrun as [(_ & Hnev & _ & Hniter & _) _].
  apply (keeps_run _ _ _ _ _ (keeps_sort_ritzpair _)) in Hsort
    as (_ & _ & _ & Hniter2 & _).
  cbn. rewrite Hnev. repeat split; try reflexivity. congruence.
Qed.

(** When the budget [maxit >= 0] is used up without convergence, the
    counter grows by [maxit + 1]. *)
Lemma compute_exhausted_niter (selection : SortRule) (maxit : Index) (tol : R)
    (sorting : SortRule) (s s' : t) (r : Index) :
  0 <= maxit ->
  compute selection maxit tol sorting s = (Ok r, s') ->
  m_info s' = NotConverging ->
  m_niter s' = m_niter s + maxit + 1.
Proof.
  intros Hmax Hrun Hinfo.
  apply compute_niter in Hrun as (i & nconv & s1 & Hloop & Hniter & Hi & _).
  apply compute_until_sorting_Ok in Hloop
    as [_ [(Hm & -> & ->) | (Hlt & Hbound & _ & _ & [[Hc Hn] | [-> Hn]])]].
  - lia.
  - rewrite Hinfo in Hi. destruct (Z.geb_spec nconv (m_nev s)); [discriminate | lia].
  - lia.
Qed.

(** When [compute] returns before the budget is used up, or with it, the
    loop ran at most [maxit] turns: [i <= maxit] when it is left. *)
Lemma compute_turns_bounded (selection : SortRule) (maxit : Index) (tol : R)
    (s s1 : t) (i nconv : Index) :
  0 <= maxit ->
  compute_until_sorting selection maxit tol s = (Ok (i, nconv), s1) ->
  0 <= i <= maxit.
Proof.
  intros Hmax Hloop.
  apply compute_until_sorting_Ok in Hloop as [_ [(Hm & -> & ->) | (? & ? & _)]]; lia.
Qed.
End ComputeFacts.

#[global] Instance bench_sorter_permutes : SorterPermutes binary64.t.
Proof.
  intros rule vals n. cbn [sort_index Bench.sorter].
  apply merge_sort_Permutation.
Qed.

Section ComputeClaims.
Context {R Scalar : Type} `{ScalarOps R} `{!TypeTraits R} `{!Krylov R Scalar}
        `{!Specialization R Scalar} `{!Sorter R}
        `{!Eigen.Uninit (Complex R)} `{!Eigen.Uninit bool}.
Import GenEigsBase.

(** The return value and the status of [compute], on the runs that return.
    [compute] returns [min(nev, nconv)], where [nconv] is the value the
    loop was left with: the count of the flags stored by the last
    convergence test when a test ran, and 0 otherwise.  The status is
    [Successful] exactly when [nconv >= nev] and [NotConverging] otherwise.
    After at least one test the flags kept for the accessors still count
    [nconv], and [eigenvalues()] returns that many values; which values
    these are is not said here.  Once the loop is left, by convergence or
    by the budget, and the final sort has returned, [compute] returns: it
    has no [throw] of its own. *)
Theorem compute_returns_min_nev_nconv `{!SorterPermutes R}
    (selection : SortRule) (maxit : Index) (tol : R) (sorting : SortRule) (s : t) :
  (forall (r : Index) (s' : t),
     compute selection maxit tol sorting s = (Ok r, s') ->
     exists (i nconv : Index) (s1 : t),
       compute_until_sorting selection maxit tol s = (Ok (i, nconv), s1)
       /\ (0 < maxit -> nconv = Eigen.count (m_ritz_conv s1))
       /\ (maxit <= 0 -> nconv = 0)
       /\ r = Z.min (m_nev s) nconv
       /\ (m_info s' = Successful <-> m_nev s <= nconv)
       /\ (m_info s' = NotConverging <-> nconv < m_nev s)
       /\ (0 < maxit ->
           Eigen.count (m_ritz_conv s') = nconv /\
           exists vals : list (Complex R),
             eigenvalues s' = (Ok vals, s') /\ Eigen.size vals = nconv))
  /\
  (forall (i nconv : Index) (s1 s2 : t),
     compute_until_sorting selection maxit tol s = (Ok (i, nconv), s1) ->
     sort_ritzpair sorting s1 = (Ok tt, s2) ->
     exists s' : t,
       compute selection maxit tol sorting s = (Ok (Z.min (m_nev s) nconv), s')
       /\ m_info s' = (if nconv >=? m_nev s then Successful else NotConverging)).
Proof.
  split.
  - intros r s' Hrun.
    apply compute_niter in Hrun as Hfacts.
    destruct Hfacts as (i & nconv & s1 & Hloop & _ & Hinfo & Hr).
    exists i, nconv, s1. split; [assumption|].
    apply compute_until_sorting_Ok in Hloop as Hleft.
    destruct Hleft as [(_ & Hnev1 & _) Hcases].
    assert (m_info s' = Successful <-> m_nev s <= nconv) as Hsucc.
    { rewrite Hinfo. destruct (Z.geb_spec nconv (m_nev s)); split;
        intros; try discriminate; try reflexivity; lia. }
    assert (m_info s' = NotConverging <-> nconv < m_nev s) as Hnot.
    { rewrite Hinfo. destruct (Z.geb_spec nconv (m_nev s)); split;
        intros; try discriminate; try reflexivity; lia. }
    destruct Hcases as [(Hm & -> & ->) | (Hlt & _ & Hcount & Hsize & _)].
    + repeat split; try tauto; try lia.
    + repeat split; try tauto; try lia.
      all: rewrite compute_split, Hloop, compute_finish_run in Hrun.
      all: destruct (sort_ritzpair sorting s1) as [[[]| |] s2] eqn:Hsort;
        try discriminate.
      all: injection Hrun as _ <-.
      all: rewrite <- Hnev1 in Hsize.
      all: apply sort_ritzpair_flags in Hsort as Hflags; [|assumption].
      all: destruct Hflags as [Hperm Hvals].
      all: apply (keeps_run _ _ _ _ _ (keeps_sort_ritzpair _)) in Hsort
          as (_ & Hnev2 & _).
      * cbn. rewrite (count_Permutation _ _ Hperm). now symmetry.
      * assert (Eigen.size (m_ritz_conv s2) = m_nev s2) as Hsz2.
        { unfold Eigen.size in *. rewrite (Permutation_length Hperm). congruence. }
        eexists. split.
        -- apply eigenvalues_returns_flagged; cbn; [assumption|].
           destruct (Z.eq_dec (m_nev s1) 0) as [Hz|Hnz].
           ++ rewrite Hnev2, Hz. unfold Eigen.size. lia.
           ++ rewrite Hnev2. apply Hvals. unfold Eigen.size in Hsize. lia.
        -- cbn. rewrite flagged_length.
           ++ rewrite (count_Permutation _ _ Hperm). now symmetry.
           ++ rewrite (Permutation_length Hperm). unfold Eigen.size in *.
              destruct (Z.eq_dec (m_nev s1) 0) as [Hz|Hnz]; [lia|].
              specialize (Hvals ltac:(lia)). lia.
  - intros i nconv s1 s2 Hloop Hsort.
    rewrite compute_split, Hloop, compute_finish_run, Hsort.
    apply compute_until_sorting_Ok in Hloop as [(_ & Hnev1 & _) _].
    rewrite Hnev1. eexists. split; [reflexivity|]. reflexivity.
Qed.
End ComputeClaims.

(** *** The convergence test, the adjusted rank and [compute] on a run *)


Lemma num_converged_marks_residual_below_threshold_witness :
  let s := Bench.expanded 6 2 5 SmallestMagn in
  exists conv : list bool,
    GenEigsBase.num_converged Bench.default_tol s
      = (Ok (Eigen.count conv), GenEigsBase.set_ritz_conv conv s)
    /\ Eigen.size conv = 2
    /\ conv !! 0%nat = Some false /\ conv !! 1%nat = Some true.
Proof.
  cbv zeta. set (s := Bench.expanded 6 2 5 SmallestMagn).
  destruct (num_converged_marks_residual_below_threshold Bench.default_tol s)
    as (conv & Hrun & Hsize & Hflag); [by_evaluation | by_evaluation |].
  exists conv. split; [exact Hrun|]. split; [exact Hsize|]. split.
  - etransitivity;
      [apply (Hflag 0 (binary64.c 1 0) (binary64.c 1 0)) | ]; by_evaluation.
  - etransitivity;
      [apply (Hflag 1 (binary64.c 2 0) (binary64.c 0 0)) | ]; by_evaluation.
Defined.

Lemma nev_adjusted_follows_recipe_witness :
  let s := Bench.expanded 6 2 5 SmallestMagn in
  GenEigsBase.nev_adjusted 1 s = (Ok 3, s).
Proof.
  cbv zeta. set (s := Bench.expanded 6 2 5 SmallestMagn).
  rewrite (nev_adjusted_follows_recipe s 1); by_evaluation.
Defined.

Lemma compute_returns_min_nev_nconv_witness :
  let s := Bench.started 6 2 5 in
  let out := GenEigsBase.compute SmallestMagn 3 Bench.default_tol LargestMagn s in
  fst out = Ok 1 /\ GenEigsBase.m_info (snd out) = NotConverging /\
  exists vals : list (Complex binary64.t),
    GenEigsBase.eigenvalues (snd out) = (Ok vals, snd out) /\ Eigen.size vals = 1.
Proof.
  cbv zeta. set (s := Bench.started 6 2 5).
  set (out := GenEigsBase.compute SmallestMagn 3 Bench.default_tol LargestMagn s).
  assert (fst out = Ok 1) as Hfst by (vm_compute; reflexivity).
  assert (out = (Ok 1, snd out)) as Hout
    by (rewrite <- Hfst; apply surjective_pairing).
  assert (GenEigsBase.m_nev s = 2) as Hnev by (vm_compute; reflexivity).
  destruct (proj1 (compute_returns_min_nev_nconv SmallestMagn 3 Bench.default_tol
                     LargestMagn s) 1 (snd out) Hout)
    as (i & nconv & s1 & _ & _ & _ & Hr & _ & Hnot & Hacc).
  rewrite Hnev in Hr, Hnot.
  split; [exact Hfst|]. split; [apply Hnot; lia|].
  destruct (Hacc ltac:(lia)) as [_ (vals & Hvals & Hsize)].
  exists vals. split; [exact Hvals | lia].
Defined.

(** C8.  With a budget of one outer iteration and the tolerance 0, under
    which no residual passes the test, the loop runs its single turn (it is
    left with [i = 1], after one restart: four operator applications for the
    first expansion and two for the restart from rank 3), and
    [num_iterations()] reports 2. *)
Theorem compute_budget_of_one_reports_two_iterations :
  let s := Bench.started 6 2 5 in
  let out := GenEigsBase.compute LargestMagn 1 Bench.zero_tol LargestMagn s in
  eval GenEigsBase.num_iterations s = Ok 0
  /\ fst (compute_until_sorting LargestMagn 1 Bench.zero_tol s) = Ok (1, 0)
  /\ fst out = Ok 0
  /\ eval GenEigsBase.info (snd out) = Ok NotConverging
  /\ eval GenEigsBase.num_operations (snd out) = Ok 6
  /\ eval GenEigsBase.num_iterations (snd out) = Ok 2.
Proof. by_evaluation. Qed.

(** ** GenEigsBase: the flags after an exhausted budget *)

Section ExhaustedBudget.
Context {R Scalar : Type} `{ScalarOps R} `{!TypeTraits R} `{!Krylov R Scalar}
        `{!Specialization R Scalar} `{!Sorter R}
        `{!Eigen.Uninit (Complex R)} `{!Eigen.Uninit bool}.
Import GenEigsBase.

(** [nev_adjusted] reads the state and writes nothing. *)
Lemma nev_adjusted_reads (nconv : Index) (s : t) : snd (nev_adjusted nconv s) = s.
Proof.
  unfold nev_adjusted, bind, get, lift.
  now destruct (nev_adjusted_on _ _ _ _ _).
Qed.

(** When the loop is left by the budget after at least one turn, its last
    turn tested a state [tested], stored the flags [conv] of that test, and
    then restarted: the state the loop leaves is the one [restart] made, it
    holds the Ritz values [restart] retrieved, and its flags are still
    [conv]. *)
Lemma compute_loop_exhausted_restarts_after_test (selection : SortRule)
    (maxit : Index) (tol : R) (fuel : nat) :
  forall (i nconv : Index) (s : t) (i' nconv' : Index) (s' : t),
    compute_loop fuel selection maxit tol i nconv s = (Ok (i', nconv'), s') ->
    i < maxit -> nconv' < m_nev s ->
    exists (tested : t) (conv : list bool) (k : Index),
      convergence_flags tol (m_nev tested) (f_norm (m_fac tested))
          (m_ritz_val tested) (m_ritz_est tested) = Ok conv
      /\ nconv' = Eigen.count conv
      /\ nev_adjusted nconv' (set_ritz_conv conv tested)
           = (Ok k, set_ritz_conv conv tested)
      /\ restart k selection (set_ritz_conv conv tested) = (Ok tt, s')
      /\ m_ritz_conv s' = conv.
Proof.
  induction fuel as [|fuel IH]; intros i nconv s i' nconv' s' Hrun Hlt Hfew;
    cbn [compute_loop] in Hrun; [discriminate|].
  destruct (Z.ltb_spec i maxit) as [_|Hge]; [|lia].
  unfold bind at 1 in Hrun.
  destruct (num_converged tol s) as [[n| |] s1] eqn:Hnc; try discriminate.
  apply num_converged_Ok in Hnc as (conv & -> & -> & Hflags).
  unfold bind at 1, get at 1 in Hrun.
  change (m_nev (set_ritz_conv conv s)) with (m_nev s) in Hrun.
  destruct (Z.geb_spec (Eigen.count conv) (m_nev s)) as [Hconv|Hnot].
  { unfold ret in Hrun. injection Hrun as <- <- <-. lia. }
  unfold bind at 1 in Hrun.
  destruct (nev_adjusted _ _) as [[k| |] s2] eqn:Hadj; try discriminate.
  pose proof (nev_adjusted_reads (Eigen.count conv) (set_ritz_conv conv s)) as Hsame.
  rewrite Hadj in Hsame. cbn [snd] in Hsame. subst s2.
  unfold bind at 1 in Hrun.
  destruct (restart k selection (set_ritz_conv conv s)) as [[[]| |] s3] eqn:Hres;
    try discriminate.
  apply (keeps_run _ _ _ _ _ (keeps_restart _ _)) in Hres as Hframe.
  destruct Hframe as (_ & Hnev & _ & _ & Hcv & _). cbn in Hnev, Hcv.
  destruct (Z.lt_ge_cases (i + 1) maxit) as [Hmore|Hlast].
  - apply IH in Hrun; [assumption | assumption | now rewrite Hnev].
  - destruct fuel as [|fuel']; cbn [compute_loop] in Hrun; [discriminate|].
    destruct (Z.ltb_spec (i + 1) maxit) as [|_]; [lia|].
    unfold ret in Hrun. injection Hrun as <- <- <-.
    exists s, conv, k. auto.
Qed.

(** The same for [compute]: when its loop is left by a positive budget,
    the state handed to the final sort was made by a restart that ran after
    the last convergence test, and carries the flags of that test. *)
Lemma compute_exhausted_restarts_after_test (selection : SortRule)
    (maxit : Index) (tol : R) (s : t) (i nconv : Index) (s1 : t) :
  compute_until_sorting selection maxit tol s = (Ok (i, nconv), s1) ->
  0 < maxit -> nconv < m_nev s ->
  exists (tested : t) (conv : list bool) (k : Index),
    convergence_flags tol (m_nev tested) (f_norm (m_fac tested))
        (m_ritz_val tested) (m_ritz_est tested) = Ok conv
    /\ nconv = Eigen.count conv
    /\ restart k selection (set_ritz_conv conv tested) = (Ok tt, s1)
    /\ m_ritz_conv s1 = conv.
Proof.
  unfold compute_until_sorting. unfold bind at 1, get at 1.
  intros Hrun Hpos Hfew. unfold bind at 1 in Hrun.
  destruct (factorize 1 (m_ncv s) s) as [[[]| |] sa] eqn:Hfac; try discriminate.
  unfold bind at 1 in Hrun.
  destruct (retrieve_ritzpair selection sa) as [[[]| |] sb] eqn:Hret;
    try discriminate.
  pose proof (keeps_prologue selection (m_ncv s) s) as Hpro.
  unfold bind in Hpro. rewrite Hfac, Hret in Hpro. cbn [snd] in Hpro.
  destruct Hpro as (_ & Hnev & _).
  apply compute_loop_exhausted_restarts_after_test in Hrun;
    [|assumption|now rewrite Hnev].
  destruct Hrun as (tested & conv & k & Hflags & Hcount & _ & Hres & Hcv).
  exists tested, conv, k. auto.
Qed.
End ExhaustedBudget.

Section DriftingRun.
Import GenEigsBase binary64.
#[local] Existing Instance BenchDrift.spec.

End DriftingRun.

(** ** GenEigsBase: the constructor *)

Section ConstructorFacts.
Context {R Scalar : Type} `{ScalarOps R} `{!TypeTraits R} `{!Krylov R Scalar}
        `{!Specialization R Scalar} `{!Sorter R}
        `{!Eigen.Uninit (Complex R)} `{!Eigen.Uninit bool}.
Import GenEigsBase.

(** C5.  The constructor throws [std::invalid_argument] exactly when the
    parameters violate [1 <= nev <= n - 2] or [nev + 2 <= ncv <= n], [n]
    being [op.rows()]; otherwise it yields a solver that has applied no
    operator, has run no iteration and has the status [NotComputed].  The
    boundary cases follow. *)
Theorem construct_throws_iff_parameters_invalid (op : Op) (nev ncv : Index) :
  let n := op_rows op in
  ((exists what : string, construct op nev ncv = Throw (invalid_argument what))
   <-> ~ (1 <= nev <= n - 2 /\ nev + 2 <= ncv <= n))
  /\ (1 <= nev <= n - 2 /\ nev + 2 <= ncv <= n ->
      exists s : t,
        construct op nev ncv = Ok s
        /\ m_n s = n /\ m_nev s = nev /\ m_ncv s = ncv
        /\ m_nmatop s = 0 /\ m_niter s = 0 /\ m_info s = NotComputed)
  /\ (3 <= n -> exists s : t, construct op (n - 2) n = Ok s)
  /\ (exists what : string, construct op 0 ncv = Throw (invalid_argument what))
  /\ (n - 2 < nev ->
      exists what : string, construct op nev ncv = Throw (invalid_argument what))
  /\ (ncv < nev + 2 ->
      exists what : string, construct op nev ncv = Throw (invalid_argument what)).
Proof.
  intros n.
  assert (forall nev ncv : Index,
            (exists what : string,
               construct op nev ncv = Throw (invalid_argument what))
            <-> ~ (1 <= nev <= n - 2 /\ nev + 2 <= ncv <= n)) as Hiff.
  { clear nev ncv. intros nev ncv. unfold construct. fold n.
    rewrite !Z.gtb_ltb.
    destruct (Z.ltb_spec nev 1), (Z.ltb_spec (n - 2) nev),
      (Z.ltb_spec ncv (nev + 2)), (Z.ltb_spec n ncv); cbn [orb];
      (split; [intros [what Hw]; try discriminate; lia
              | intros Hbad; try (eexists; reflexivity); exfalso; lia]). }
  assert (forall nev ncv : Index,
            1 <= nev <= n - 2 /\ nev + 2 <= ncv <= n ->
            exists s : t,
              construct op nev ncv = Ok s
              /\ m_n s = n /\ m_nev s = nev /\ m_ncv s = ncv
              /\ m_nmatop s = 0 /\ m_niter s = 0 /\ m_info s = NotComputed) as Hok.
  { clear nev ncv. intros nev ncv Hgood. unfold construct. fold n.
    rewrite !Z.gtb_ltb.
    destruct (Z.ltb_spec nev 1), (Z.ltb_spec (n - 2) nev),
      (Z.ltb_spec ncv (nev + 2)), (Z.ltb_spec n ncv); cbn [orb]; try lia.
    eexists. split; [reflexivity|]. cbn. repeat split; reflexivity. }
  split; [apply Hiff|]. split; [apply Hok|].
  split; [|split; [|split]].
  - intros Hn. destruct (Hok (n - 2) n) as (s & Hs & _); [lia|]. eauto.
  - apply Hiff. lia.
  - intros Hbad. apply Hiff. lia.
  - intros Hbad. apply Hiff. lia.
Qed.
End ConstructorFacts.

(** ** UpperHessenbergEigen: the guards *)

Section HessenbergGuards.
Context {R : Type} `{ScalarOps R} `{!RealSchur R} `{!ComplexSchur R}
        `{!Eigen.Uninit (Complex R)}.

(** [compute] sets [m_computed] with its last statement only: a call that
    throws leaves the flag as it was. *)
Lemma compute_real_throw_keeps_flag doCE (mat : Eigen.DenseMatrix R)
    (s s' : UpperHessenbergEigen.t) (e : exception) :
  UpperHessenbergEigen.compute doCE mat s = (Throw e, s') ->
  UpperHessenbergEigen.m_computed s' = UpperHessenbergEigen.m_computed s.
Proof.
  unfold UpperHessenbergEigen.compute.
  destruct (negb _); [unfold throw; now intros [= _ <-]|].
  unfold bind, modify, lift, gets.
  destruct (UpperHessenbergEigen.scale_of mat) as [scale| |];
    [|now intros [= _ <-] | discriminate].
  destruct (schur_compute _) as [[T U]| |]; [|now intros [= _ <-] | discriminate].
  cbn [UpperHessenbergEigen.m_n UpperHessenbergEigen.set_schur
       UpperHessenbergEigen.set_n].
  destruct (UpperHessenbergEigen.eigenvalue_loop _ _ _ _ _) as [ev| |];
    [|now intros [= _ <-] | discriminate].
  destruct (doCE _ _ _). discriminate.
Qed.

Lemma compute_complex_throw_keeps_flag doCE (mat : Eigen.DenseMatrix (Complex R))
    (s s' : UpperHessenbergEigenComplex.t) (e : exception) :
  UpperHessenbergEigenComplex.compute doCE mat s = (Throw e, s') ->
  UpperHessenbergEigenComplex.m_computed s' = UpperHessenbergEigenComplex.m_computed s.
Proof.
  unfold UpperHessenbergEigenComplex.compute.
  destruct (negb _); [unfold throw; now intros [= _ <-]|].
  unfold bind, modify, lift, gets, throw, get,
    UpperHessenbergEigenComplex.sortEigenvalues.
  cbn [UpperHessenbergEigenComplex.m_schur UpperHessenbergEigenComplex.set_schur
       UpperHessenbergEigenComplex.set_eivec].
  destruct (schur_success _); [|now intros [= _ <-]].
  destruct (Eigen.diagonal _) as [d| |]; [|now intros [= _ <-] | discriminate].
  cbn.
  destruct (UpperHessenbergEigenComplex.sortEigenvalues_on _ _ _) as [[ev V]| |];
    cbn; [discriminate | intros [= _ <-]; reflexivity | discriminate].
Qed.

(** C6.  For the real and for the complex class: on an object whose
    [m_computed] flag is unset, [eigenvalues()] and [eigenvectors()] throw
    [std::logic_error]; [compute] on a matrix that is not square throws
    [std::invalid_argument] and leaves the object as it was, so the queries
    still throw; and any [compute] that throws leaves the flag unset. *)
Theorem queries_need_compute_and_compute_needs_square doCE doCEc
    (s : UpperHessenbergEigen.t) (sc : UpperHessenbergEigenComplex.t) :
  UpperHessenbergEigen.m_computed s = false ->
  UpperHessenbergEigenComplex.m_computed sc = false ->
  (UpperHessenbergEigen.eigenvalues s = (Throw need_compute, s)
   /\ UpperHessenbergEigen.eigenvectors s = (Throw need_compute, s)
   /\ (forall mat : Eigen.DenseMatrix R,
         Eigen.rows mat <> Eigen.cols mat ->
         UpperHessenbergEigen.compute doCE mat s = (Throw must_be_square, s)
         /\ UpperHessenbergEigen.construct doCE mat = Throw must_be_square)
   /\ (forall (mat : Eigen.DenseMatrix R) e s',
         UpperHessenbergEigen.compute doCE mat s = (Throw e, s') ->
         UpperHessenbergEigen.eigenvalues s' = (Throw need_compute, s')
         /\ UpperHessenbergEigen.eigenvectors s' = (Throw need_compute, s')))
  /\
  (UpperHessenbergEigenComplex.eigenvalues sc = (Throw need_compute, sc)
   /\ UpperHessenbergEigenComplex.eigenvectors sc = (Throw need_compute, sc)
   /\ (forall mat : Eigen.DenseMatrix (Complex R),
         Eigen.rows mat <> Eigen.cols mat ->
         UpperHessenbergEigenComplex.compute doCEc mat sc = (Throw must_be_square, sc)
         /\ UpperHessenbergEigenComplex.construct doCEc mat = Throw must_be_square)
   /\ (forall (mat : Eigen.DenseMatrix (Complex R)) e s',
         UpperHessenbergEigenComplex.compute doCEc mat sc = (Throw e, s') ->
         UpperHessenbergEigenComplex.eigenvalues s' = (Throw need_compute, s')
         /\ UpperHessenbergEigenComplex.eigenvectors s' = (Throw need_compute, s'))).
Proof.
  intros Hs Hsc.
  assert (forall s0, UpperHessenbergEigen.m_computed s0 = false ->
            UpperHessenbergEigen.eigenvalues s0 = (Throw need_compute, s0)
            /\ UpperHessenbergEigen.eigenvectors s0 = (Throw need_compute, s0)) as Hq.
  { intros s0 Hf.
    unfold UpperHessenbergEigen.eigenvalues, UpperHessenbergEigen.eigenvectors,
      bind, gets, throw. rewrite Hf. split; reflexivity. }
  assert (forall s0, UpperHessenbergEigenComplex.m_computed s0 = false ->
            UpperHessenbergEigenComplex.eigenvalues s0 = (Throw need_compute, s0)
            /\ UpperHessenbergEigenComplex.eigenvectors s0 = (Throw need_compute, s0))
    as Hqc.
  { intros s0 Hf.
    unfold UpperHessenbergEigenComplex.eigenvalues,
      UpperHessenbergEigenComplex.eigenvectors, bind, gets, throw.
    rewrite Hf. split; reflexivity. }
  split.
  - destruct (Hq s Hs) as [Hv Hw].
    split; [exact Hv|]. split; [exact Hw|]. split.
    + intros mat Hns.
      unfold UpperHessenbergEigen.construct, UpperHessenbergEigen.compute.
      destruct (Z.eqb_spec (Eigen.rows mat) (Eigen.cols mat)); [contradiction|].
      split; reflexivity.
    + intros mat e s' Hthrow. apply Hq.
      apply compute_real_throw_keeps_flag in Hthrow. congruence.
  - destruct (Hqc sc Hsc) as [Hv Hw].
    split; [exact Hv|]. split; [exact Hw|]. split.
    + intros mat Hns.
      unfold UpperHessenbergEigenComplex.construct, UpperHessenbergEigenComplex.compute.
      destruct (Z.eqb_spec (Eigen.rows mat) (Eigen.cols mat)); [contradiction|].
      split; reflexivity.
    + intros mat e s' Hthrow. apply Hqc.
      apply compute_complex_throw_keeps_flag in Hthrow. congruence.
Qed.
End HessenbergGuards.

Lemma queries_need_compute_and_compute_needs_square_witness :
  let wide := Eigen.constant 2 3 (binary64.b64_of_Z 0) in
  let wide_c := Eigen.constant 2 3 (binary64.c 0 0) in
  (eval UpperHessenbergEigen.eigenvalues Bench.fresh = Throw need_compute
   /\ eval UpperHessenbergEigen.eigenvectors Bench.fresh = Throw need_compute
   /\ UpperHessenbergEigen.compute Bench.keep_vectors wide Bench.fresh
     = (Throw must_be_square, Bench.fresh))
  /\
  (eval UpperHessenbergEigenComplex.eigenvalues Bench.fresh_c = Throw need_compute
   /\ eval UpperHessenbergEigenComplex.eigenvectors Bench.fresh_c = Throw need_compute
   /\ UpperHessenbergEigenComplex.compute Bench.keep_vectors_c wide_c Bench.fresh_c
     = (Throw must_be_square, Bench.fresh_c)).
Proof.
  cbv zeta.
  destruct (queries_need_compute_and_compute_needs_square
              Bench.keep_vectors Bench.keep_vectors_c Bench.fresh Bench.fresh_c
              eq_refl eq_refl)
    as [(Hv & Hw & Hsq & _) (Hvc & Hwc & Hsqc & _)].
  unfold eval. rewrite Hv, Hw, Hvc, Hwc. cbn [fst].
  split; (split; [reflexivity | split; [reflexivity|]]).
  - apply Hsq. by_evaluation.
  - apply Hsqc. by_evaluation.
Defined.

(** C10.  The 2 x 2 zero matrix is square, so [compute] accepts it; its
    largest absolute entry, the scaling divisor, is 0, and every entry of
    [mat / scale] is 0 / 0, the invalid-operation result. *)
Theorem compute_scales_zero_matrix_by_zero :
  let zero := Eigen.constant 2 2 (binary64.b64_of_Z 0) in
  Eigen.rows zero = Eigen.cols zero
  /\ UpperHessenbergEigen.scale_of zero = Ok (binary64.b64_of_Z 0)
  /\ feq (binary64.b64_of_Z 0) (of_Z 0) = true
  /\ Eigen.div_scalar zero (binary64.b64_of_Z 0) = Eigen.constant 2 2 S754_nan.
Proof. by_evaluation. Qed.

(** ** UpperHessenbergEigen (complex): the selection sort *)

(** *** IEEE comparison is a strict partial order *)

Lemma SFltb_irrefl (x : spec_float) : SFltb x x = false.
Proof.
  unfold SFltb, SFcompare.
  destruct x as [s|s| |s m e]; try destruct s; try reflexivity.
  - rewrite Z.compare_refl.
    change (Pos.compare_cont Eq m m) with (Pos.compare m m).
    now rewrite Pos.compare_refl.
  - rewrite Z.compare_refl.
    change (Pos.compare_cont Eq m m) with (Pos.compare m m).
    now rewrite Pos.compare_refl.
Qed.

Lemma SFltb_trans (x y z : spec_float) :
  SFltb x y = true -> SFltb y z = true -> SFltb x z = true.
Proof.
  unfold SFltb, SFcompare.
  destruct x as [sx|sx| |sx mx ex], y as [sy|sy| |sy my ey], z as [sz|sz| |sz mz ez];
    try destruct sx; try destruct sy; try destruct sz;
    try discriminate; try reflexivity.
  all: change (Pos.compare_cont Eq mx my) with (Pos.compare mx my);
       change (Pos.compare_cont Eq my mz) with (Pos.compare my mz);
       change (Pos.compare_cont Eq mx mz) with (Pos.compare mx mz).
  all: destruct (Z.compare_spec ex ey), (Z.compare_spec ey ez),
         (Z.compare_spec ex ez); try discriminate; try reflexivity; try lia.
  all: subst;
       destruct (Pos.compare_spec mx my), (Pos.compare_spec my mz),
         (Pos.compare_spec mx mz); cbn; try discriminate; try reflexivity; lia.
Qed.

#[global] Instance binary64_lt_strict_order : LtStrictOrder binary64.t.
Proof. split; [exact SFltb_irrefl | exact SFltb_trans]. Qed.

Section MinVisit.
Context {R : Type} `{ScalarOps R} `{!LtStrictOrder R}.

Lemma flt_asym (x y : R) : flt x y = true -> flt y x = false.
Proof.
  intros Hxy. destruct (flt y x) eqn:Hyx; [|reflexivity].
  pose proof (flt_trans _ _ _ Hxy Hyx) as Hxx.
  now rewrite flt_irrefl in Hxx.
Qed.

(** The visitor either keeps the running minimum [res] (and its index [k]),
    nothing visited being smaller, or ends on a visited coefficient that is
    smaller than [res] and than which nothing visited is smaller. *)
Lemma min_visit_spec (v : list R) :
  forall (j : Index) (res : R) (k : Index),
    (Eigen.min_visit v j res k = k /\ Forall (fun y => flt y res = false) v)
    \/ (exists (q : nat) (m : R),
          Eigen.min_visit v j res k = j + Z.of_nat q /\ v !! q = Some m /\
          flt m res = true /\ Forall (fun y => flt y m = false) v).
Proof.
  induction v as [|x v IH]; intros j res k; cbn [Eigen.min_visit].
  - left. split; [reflexivity | constructor].
  - destruct (flt x res) eqn:Hx.
    + right. destruct (IH (j + 1) x j) as [[Hk Hall] | (q & m & Hk & Hq & Hm & Hall)].
      * exists 0%nat, x. rewrite Hk. repeat split; try assumption; [lia|].
        constructor; [apply flt_irrefl | assumption].
      * exists (S q), m. rewrite Hk. repeat split; try assumption; [lia| |].
        -- eapply flt_trans; eassumption.
        -- constructor; [now apply flt_asym | assumption].
    + destruct (IH (j + 1) res k) as [[Hk Hall] | (q & m & Hk & Hq & Hm & Hall)].
      * left. split; [assumption | now constructor].
      * right. exists (S q), m. rewrite Hk. repeat split; try assumption; [lia|].
        constructor; [|assumption].
        destruct (flt x m) eqn:Hxm; [|reflexivity].
        pose proof (flt_trans _ _ _ Hxm Hm). congruence.
Qed.
End MinVisit.

Section SwapFacts.
Context {A : Type}.

(** Exchanging the head of the unsorted part with its element [q + 1]. *)
Lemma swap_at (pre tl : list A) (a m : A) (q : nat) :
  tl !! q = Some m ->
  let i := Z.of_nat (length pre) in
  let k := Z.of_nat (S q) in
  Eigen.swap (pre ++ a :: tl) (k + i) i = Ok (pre ++ m :: <[q := a]> tl)
  /\ Eigen.swap (pre ++ a :: tl) i (k + i) = Ok (pre ++ m :: <[q := a]> tl).
Proof.
  intros Hq i k.
  apply lookup_lt_Some in Hq as Hlt.
  assert ((pre ++ a :: tl) !! Z.to_nat i = Some a) as Hi.
  { subst i. rewrite Nat2Z.id. now rewrite lookup_app_r, Nat.sub_diag by lia. }
  assert ((pre ++ a :: tl) !! Z.to_nat (k + i) = Some m) as Hk.
  { subst i k. replace (Z.to_nat (Z.of_nat (S q) + Z.of_nat (length pre)))
      with (length pre + S q)%nat by lia.
    rewrite lookup_app_r by lia.
    now replace (length pre + S q - length pre)%nat with (S q) by lia. }
  assert (<[Z.to_nat i := m]> (<[Z.to_nat (k + i) := a]> (pre ++ a :: tl))
          = pre ++ m :: <[q := a]> tl) as E1.
  { subst i k. replace (Z.to_nat (Z.of_nat (S q) + Z.of_nat (length pre)))
      with (length pre + S q)%nat by lia.
    rewrite Nat2Z.id.
    rewrite (insert_app_r_alt pre _ (length pre + S q)) by lia.
    replace (length pre + S q - length pre)%nat with (S q) by lia.
    cbn [insert list_insert].
    rewrite insert_app_r_alt by lia. rewrite Nat.sub_diag. reflexivity. }
  assert (<[Z.to_nat (k + i) := a]> (<[Z.to_nat i := m]> (pre ++ a :: tl))
          = pre ++ m :: <[q := a]> tl) as E2.
  { rewrite <- E1. apply list_insert_insert_ne. subst i k. lia. }
  unfold Eigen.swap.
  rewrite (coeff_in_range _ i a), (coeff_in_range _ (k + i) m)
    by (assumption || (subst i k; lia)).
  cbn [rbind].
  assert (Eigen.size (pre ++ a :: tl) = Z.of_nat (length pre + S (length tl))) as Hsz
    by (unfold Eigen.size; rewrite length_app; reflexivity).
  split.
  - rewrite set_coeff_in_range by (rewrite Hsz; subst i k; lia). cbn [rbind].
    rewrite set_coeff_in_range
      by (unfold Eigen.size; rewrite length_insert; fold (Eigen.size (pre ++ a :: tl));
          rewrite Hsz; subst i k; lia).
    now rewrite E1.
  - rewrite set_coeff_in_range by (rewrite Hsz; subst i k; lia). cbn [rbind].
    rewrite set_coeff_in_range
      by (unfold Eigen.size; rewrite length_insert; fold (Eigen.size (pre ++ a :: tl));
          rewrite Hsz; subst i k; lia).
    now rewrite E2.
Qed.

Lemma swap_tail_Permutation (tl : list A) (a m : A) (q : nat) :
  tl !! q = Some m -> Permutation (m :: <[q := a]> tl) (a :: tl).
Proof.
  intros Hq. apply lookup_lt_Some in Hq as Hlt.
  rewrite insert_take_drop by assumption.
  rewrite <- (take_drop_middle tl q m Hq) at 3.
  rewrite <- !Permutation_middle. apply perm_swap.
Qed.

Lemma strongly_sorted_lookup (Rel : A -> A -> Prop) (l : list A) :
  StronglySorted Rel l ->
  forall (i j : nat) (x y : A),
    (i < j)%nat -> l !! i = Some x -> l !! j = Some y -> Rel x y.
Proof.
  induction 1 as [|a l Hs IH Hall]; intros i j x y Hij Hi Hj.
  - discriminate.
  - destruct j as [|j]; [lia|]. cbn in Hj. destruct i as [|i].
    + injection Hi as <-. rewrite Forall_forall in Hall.
      apply Hall. eapply list_elem_of_lookup_2. eassumption.
    + cbn in Hi. eapply IH; [|eassumption|eassumption]. lia.
Qed.
End SwapFacts.

Section SortLoop.
Context {R : Type} `{ScalarOps R} `{!LtStrictOrder R}.
Import UpperHessenbergEigenComplex.

Abbreviation column := (list (Complex R)).
Abbreviation pairs := (list (Complex R * column)).

Lemma tail_of_magnitudes (pre rest : pairs) :
  Eigen.tail (cabs <$> (pre ++ rest).*1)
             (Z.of_nat (length pre + length rest) - Z.of_nat (length pre))
    = Ok (cabs <$> rest.*1).
Proof.
  unfold Eigen.tail, Eigen.size.
  rewrite !length_fmap, length_app.
  destruct (Z.leb_spec 0 (Z.of_nat (length pre + length rest) - Z.of_nat (length pre)));
    [|lia].
  destruct (Z.leb_spec (Z.of_nat (length pre + length rest) - Z.of_nat (length pre))
              (Z.of_nat (length pre + length rest))); [|lia].
  cbn [andb]. f_equal.
  replace (Z.to_nat _) with (length pre) by lia.
  rewrite !fmap_app, drop_app_length'; [reflexivity|].
  now rewrite !length_fmap.
Qed.

(** One turn, at the head [a] of the unsorted part: a minimum [m] of that
    part comes to its front, the pairs being exchanged together. *)
Lemma sort_step_selects (pre tl : pairs) (a : Complex R * column) (r : Index) :
  exists (m : Complex R * column) (tl' : pairs),
    sort_step true (Z.of_nat (length pre + length (a :: tl)))
              ((pre ++ a :: tl).*1, Eigen.mkMatrix r (pre ++ a :: tl).*2)
              (Z.of_nat (length pre))
      = Ok ((pre ++ m :: tl').*1, Eigen.mkMatrix r (pre ++ m :: tl').*2)
    /\ Permutation (m :: tl') (a :: tl)
    /\ Forall (pair_mag_le m) (a :: tl).
Proof.
  unfold sort_step.
  rewrite tail_of_magnitudes. cbn [rbind fmap list_fmap Eigen.minCoeff_index].
  change (list_fmap _ _ cabs (list_fmap _ _ fst tl)) with (cabs <$> tl.*1).
  destruct (min_visit_spec (cabs <$> tl.*1) 1 (cabs a.1) 0)
    as [[Hk Hall] | (q & mR & Hk & Hq & Hm & Hall)]; rewrite Hk.
  - (* the head is a minimum: no swap *)
    cbn [Z.eqb negb rbind]. exists a, tl.
    split; [reflexivity|]. split; [reflexivity|].
    constructor; [apply flt_irrefl|].
    rewrite !Forall_fmap in Hall. eapply Forall_impl; [exact Hall|].
    intros y Hy. exact Hy.
  - (* a smaller entry at offset [1 + q]: it is exchanged with the head *)
    rewrite !list_lookup_fmap in Hq.
    destruct (tl !! q) as [m|] eqn:Hmq; cbn in Hq; [|discriminate].
    injection Hq as <-.
    replace (1 + Z.of_nat q =? 0) with false by (symmetry; apply Z.eqb_neq; lia).
    cbn [negb].
    replace (1 + Z.of_nat q) with (Z.of_nat (S q)) by lia.
    rewrite !fmap_app, !fmap_cons.
    destruct (swap_at pre.*1 tl.*1 a.1 m.1 q) as [Hsw _];
      [now rewrite list_lookup_fmap, Hmq|].
    destruct (swap_at pre.*2 tl.*2 a.2 m.2 q) as [_ Hsw2];
      [now rewrite list_lookup_fmap, Hmq|].
    rewrite !length_fmap in Hsw. rewrite !length_fmap in Hsw2.
    rewrite Hsw. cbn [rbind Eigen.columns Eigen.rows]. rewrite Hsw2. cbn [rbind].
    exists m, (<[q := a]> tl).
    rewrite !fmap_app, !fmap_cons, !list_fmap_insert.
    split; [reflexivity|]. split; [now apply swap_tail_Permutation|].
    constructor.
    + unfold pair_mag_le, mag_le. now apply flt_asym.
    + rewrite !Forall_fmap in Hall. eapply Forall_impl; [exact Hall|].
      intros y Hy. exact Hy.
Qed.

(** The loop of [sortEigenvalues] from index [length pre] on, the entries
    before it being sorted and none of the others being smaller than any of
    them: it ends, on a sorted rearrangement of the pairs. *)
Lemma sort_loop_sorts (n : nat) :
  forall (pre rest : pairs) (r : Index),
    length rest = n ->
    StronglySorted pair_mag_le pre ->
    Forall (fun x => Forall (pair_mag_le x) rest) pre ->
    exists z' : pairs,
      rfold (sort_step true (Z.of_nat (length pre + n)))
            (seqZ (Z.of_nat (length pre)) (Z.of_nat n))
            ((pre ++ rest).*1, Eigen.mkMatrix r (pre ++ rest).*2)
        = Ok (z'.*1, Eigen.mkMatrix r z'.*2)
      /\ Permutation z' (pre ++ rest)
      /\ StronglySorted pair_mag_le z'.
Proof.
  induction n as [|n IH]; intros pre rest r Hlen Hsorted Hbelow.
  - destruct rest; [|discriminate]. exists pre. rewrite app_nil_r.
    repeat split; [reflexivity | assumption].
  - destruct rest as [|a tl]; [discriminate|].
    injection Hlen as Hlen.
    rewrite seqZ_cons by lia. cbn [rfold].
    destruct (sort_step_selects pre tl a r) as (m & tl' & Hstep & Hpt & Hmin).
    cbn [length] in Hstep. rewrite Hlen in Hstep. rewrite Hstep. cbn [rbind].
    assert (length tl' = n) as Hlen'.
    { apply Permutation_length in Hpt. cbn [length] in Hpt. lia. }
    replace (Z.succ (Z.of_nat (length pre))) with (Z.of_nat (length (pre ++ [m])))
      by (rewrite length_app; cbn [length]; lia).
    replace (Z.pred (Z.of_nat (S n))) with (Z.of_nat n) by lia.
    replace (length pre + S n)%nat with (length (pre ++ [m]) + n)%nat
      by (rewrite length_app; cbn [length]; lia).
    replace (pre ++ m :: tl') with ((pre ++ [m]) ++ tl')
      by (now rewrite <- app_assoc).
    assert (m ∈ a :: tl) as Hm_in by (rewrite <- Hpt; left).
    destruct (IH (pre ++ [m]) tl' r Hlen') as (z' & Hrun & Hperm & Hs).
    + apply StronglySorted_app_2; [| assumption | repeat constructor].
      intros x y Hx Hy. apply list_elem_of_singleton in Hy as ->.
      rewrite Forall_forall in Hbelow. specialize (Hbelow x Hx).
      rewrite Forall_forall in Hbelow. now apply Hbelow.
    + apply Forall_app. split.
      * eapply Forall_impl; [exact Hbelow|]. intros x Hx. cbv beta in Hx.
        rewrite <- Hpt in Hx. now apply Forall_cons in Hx as [_ Htl].
      * constructor; [|constructor].
        rewrite <- Hpt in Hmin. now apply Forall_cons in Hmin as [_ Htl].
    + exists z'. split; [exact Hrun|]. split; [|assumption].
      rewrite Hperm, <- app_assoc. cbn [app]. now apply Permutation_app_head.
Qed.
End SortLoop.

Section SortClaims.
Context {R : Type} `{ScalarOps R} `{!LtStrictOrder R} `{!ComplexSchur R}.
Import UpperHessenbergEigenComplex.

(** [sortEigenvalues(true)] on [n] eigenvalues and a matrix of [n] columns
    returns; the pairs (eigenvalue, column) are rearranged together, and the
    eigenvalues come out in non-decreasing order of magnitude. *)
Lemma sortEigenvalues_on_sorts (ev : list (Complex R))
    (V : Eigen.DenseMatrix (Complex R)) :
  Eigen.cols V = Eigen.size ev ->
  exists (ev' : list (Complex R)) (V' : Eigen.DenseMatrix (Complex R)),
    sortEigenvalues_on true ev V = Ok (ev', V')
    /\ Eigen.rows V' = Eigen.rows V
    /\ Permutation (zip ev' (Eigen.columns V')) (zip ev (Eigen.columns V))
    /\ magnitudes_ascend ev'.
Proof.
  intros Hcols. destruct V as [r cs]. unfold Eigen.cols, Eigen.size in Hcols.
  cbn [Eigen.columns Eigen.rows] in *.
  assert (length cs = length ev) as Hlen by lia.
  destruct (sort_loop_sorts (length ev) [] (zip ev cs) r) as (z' & Hrun & Hperm & Hs).
  - rewrite length_zip. lia.
  - constructor.
  - constructor.
  - cbn [app length Nat.add] in Hrun, Hperm.
    rewrite fst_zip, snd_zip in Hrun by lia.
    exists z'.*1, (Eigen.mkMatrix r z'.*2).
    unfold sortEigenvalues_on, Eigen.size.
    change (Z.of_nat 0) with 0 in Hrun. rewrite Hrun.
    cbn [Eigen.columns Eigen.rows].
    split; [reflexivity|]. split; [reflexivity|]. split.
    + now rewrite zip_fst_snd.
    + intros i j x y Hij Hi Hj.
      rewrite list_lookup_fmap in Hi, Hj.
      destruct (z' !! i) as [p|] eqn:Hp; [|discriminate].
      destruct (z' !! j) as [p'|] eqn:Hp'; [|discriminate].
      cbn in Hi, Hj. injection Hi as <-. injection Hj as <-.
      exact (strongly_sorted_lookup _ _ Hs i j p p' Hij Hp Hp').
Qed.

(** C7, as the code has it.  [doComputeEigenvectors] fills one column per
    eigenvalue.  After a successful [compute] the stored eigenvalues are the
    diagonal of the Schur factor [T] rearranged, each with the eigenvector
    column computed for it, no stored eigenvalue is smaller in magnitude
    than an earlier one, and the flag is set.  The order among eigenvalues
    of equal magnitude is not part of the statement: the exchanges do not
    keep it. *)
Theorem compute_complex_sorts_eigenpairs doCE (mat : Eigen.DenseMatrix (Complex R))
    (s s' : t) :
  let sc := computeFromHessenberg (m_schur s) mat
              (Eigen.identity (of_real (of_Z 0)) (of_real (of_Z 1))
                 (Eigen.rows mat) (Eigen.cols mat)) true in
  (forall d, Eigen.diagonal (matrixT sc) = Ok d ->
             Eigen.cols (doCE (Eigen.mnorm (matrixT sc)) sc d) = Eigen.size d) ->
  compute doCE mat s = (Ok tt, s') ->
  exists d : list (Complex R),
    Eigen.diagonal (matrixT sc) = Ok d
    /\ Permutation
         (zip (m_eivalues s') (Eigen.columns (m_eivec s')))
         (zip d (Eigen.columns (doCE (Eigen.mnorm (matrixT sc)) sc d)))
    /\ magnitudes_ascend (m_eivalues s')
    /\ m_computed s' = true.
Proof.
  intros sc HdoCE Hrun. unfold compute in Hrun.
  destruct (negb _); [discriminate|].
  unfold bind, modify, lift, gets, throw, get, sortEigenvalues in Hrun.
  cbn [m_schur set_schur set_eivec m_eivec] in Hrun. fold sc in Hrun.
  destruct (schur_success sc); [|discriminate].
  destruct (Eigen.diagonal (matrixT sc)) as [d| |] eqn:Hd; try discriminate.
  exists d. split; [reflexivity|].
  cbn in Hrun. fold sc in Hrun.
  destruct (sortEigenvalues_on_sorts d (doCE (Eigen.mnorm (matrixT sc)) sc d)
              (HdoCE d eq_refl)) as (ev' & V' & Hsort & _ & Hperm & Hasc).
  rewrite Hsort in Hrun. cbn in Hrun. injection Hrun as <-.
  cbn. repeat split; assumption.
Qed.
End SortClaims.

Lemma compute_complex_sorts_eigenpairs_witness :
  let d := [binary64.c 2 0; binary64.c (-2) 0; binary64.c 1 0] in
  let unit_columns :=
    Eigen.columns (Bench.diag_c [binary64.c 1 0; binary64.c 1 0; binary64.c 1 0]) in
  let out := UpperHessenbergEigenComplex.compute Bench.keep_vectors_c
               (Bench.diag_c d) Bench.fresh_c in
  fst out = Ok tt
  /\ Permutation
       (zip (UpperHessenbergEigenComplex.m_eivalues (snd out))
            (Eigen.columns (UpperHessenbergEigenComplex.m_eivec (snd out))))
       (zip d unit_columns)
  /\ magnitudes_ascend (UpperHessenbergEigenComplex.m_eivalues (snd out)).
Proof.
  cbv zeta.
  set (d := [binary64.c 2 0; binary64.c (-2) 0; binary64.c 1 0]).
  set (out := UpperHessenbergEigenComplex.compute Bench.keep_vectors_c
                (Bench.diag_c d) Bench.fresh_c).
  assert (fst out = Ok tt) as Hfst by (vm_compute; reflexivity).
  assert (out = (Ok tt, snd out)) as Hout
    by (rewrite <- Hfst; apply surjective_pairing).
  destruct (compute_complex_sorts_eigenpairs Bench.keep_vectors_c (Bench.diag_c d)
              Bench.fresh_c (snd out))
    as (d' & Hd & Hperm & Hasc & _).
  - intros d' Hd'. vm_compute in Hd'. injection Hd' as <-. by_evaluation.
  - exact Hout.
  - vm_compute in Hd. injection Hd as <-.
    split; [exact Hfst|]. split; [exact Hperm | exact Hasc].
Defined.

(** C7, the counterexample.  The Schur diagonal 2, -2, 1 has two entries of
    magnitude 2.  The first turn exchanges 2 with the minimum 1, and the
    stored order is 1, -2, 2: the entries of equal magnitude come out in the
    opposite order. *)
Lemma sortEigenvalues_reverses_equal_magnitudes :
  let d := [binary64.c 2 0; binary64.c (-2) 0; binary64.c 1 0] in
  let out := UpperHessenbergEigenComplex.compute Bench.keep_vectors_c
               (Bench.diag_c d) Bench.fresh_c in
  fst out = Ok tt
  /\ Eigen.diagonal (matrixT (UpperHessenbergEigenComplex.m_schur (snd out))) = Ok d
  /\ UpperHessenbergEigenComplex.m_eivalues (snd out)
     = [binary64.c 1 0; binary64.c (-2) 0; binary64.c 2 0]
  /\ magnitudes_ascend (UpperHessenbergEigenComplex.m_eivalues (snd out))
  /\ ~ ties_keep_order d (UpperHessenbergEigenComplex.m_eivalues (snd out)).
Proof.
  cbv zeta.
  set (d := [binary64.c 2 0; binary64.c (-2) 0; binary64.c 1 0]).
  set (out := UpperHessenbergEigenComplex.compute Bench.keep_vectors_c
                (Bench.diag_c d) Bench.fresh_c).
  assert (UpperHessenbergEigenComplex.m_eivalues (snd out)
          = [binary64.c 1 0; binary64.c (-2) 0; binary64.c 2 0]) as Hev
    by (vm_compute; reflexivity).
  split; [vm_compute; reflexivity|]. split; [vm_compute; reflexivity|].
  split; [exact Hev|]. rewrite Hev. split.
  - intros i j x y Hij Hi Hj. unfold mag_le.
    destruct i as [|[|[|i]]], j as [|[|[|j]]]; try lia; try discriminate;
      cbn in Hi, Hj; injection Hi as <-; injection Hj as <-;
      vm_compute; reflexivity.
  - intros Hstable.
    destruct (Hstable 0%nat 1%nat (binary64.c 2 0) (binary64.c (-2) 0))
      as (i' & j' & Hlt & Hi & Hj); [lia | reflexivity | reflexivity | by_evaluation |].
    destruct i' as [|[|[|i']]]; vm_compute in Hi; try discriminate.
    destruct j' as [|[|[|j']]]; vm_compute in Hj; try discriminate; lia.
Qed.

(** ** The fuel of the loops is enough *)

Lemma rbind_not_out_of_fuel {A B : Type} (m : result A) (k : A -> result B) :
  m <> OutOfFuel -> (forall a, k a <> OutOfFuel) -> rbind m k <> OutOfFuel.
Proof. destruct m; cbn; [auto | discriminate | congruence]. Qed.

Lemma coeff_not_out_of_fuel {A : Type} (v : list A) (i : Index) :
  Eigen.coeff v i <> OutOfFuel.
Proof. unfold Eigen.coeff. destruct (if 0 <=? i then _ else _); discriminate. Qed.

Lemma set_coeff_not_out_of_fuel {A : Type} (v : list A) (i : Index) (x : A) :
  Eigen.set_coeff v i x <> OutOfFuel.
Proof. unfold Eigen.set_coeff. destruct (_ && _); discriminate. Qed.

Lemma head_not_out_of_fuel {A : Type} (v : list A) (n : Index) :
  Eigen.head v n <> OutOfFuel.
Proof. unfold Eigen.head. destruct (_ && _); discriminate. Qed.

Lemma rfold_not_out_of_fuel {A B : Type} (body : B -> A -> result B) (l : list A) :
  (forall b a, body b a <> OutOfFuel) -> forall b, rfold body l b <> OutOfFuel.
Proof.
  intros Hbody. induction l as [|a l IH]; intros b; cbn [rfold]; [discriminate|].
  apply rbind_not_out_of_fuel; auto.
Qed.

Ltac no_fuel_needed :=
  repeat first
    [ apply coeff_not_out_of_fuel | apply set_coeff_not_out_of_fuel
    | apply head_not_out_of_fuel | discriminate
    | apply rbind_not_out_of_fuel; [|intros ?]
    | apply rfold_not_out_of_fuel; intros ? ?
    | match goal with
      | |- (if ?b then _ else _) <> OutOfFuel => destruct b
      | |- (match ?x with _ => _ end) <> OutOfFuel => destruct x
      end ].

Section HessenbergFuel.
Context {R : Type} `{ScalarOps R}.
Import UpperHessenbergEigen.

Lemma eigenvalue_block_advances (n : Index) (T : Eigen.DenseMatrix R) (i : Index)
    (ev : list (Complex R)) :
  match eigenvalue_block n T i ev with
  | Ok (i', _) => i < i'
  | Throw _ => True
  | OutOfFuel => False
  end.
Proof.
  unfold eigenvalue_block, Eigen.mcoeff, Eigen.col.
  repeat match goal with
         | |- context [Eigen.coeff ?v ?j] =>
             let E := fresh in
             destruct (Eigen.coeff v j) eqn:E;
             [|exact I|now apply coeff_not_out_of_fuel in E]; cbn [rbind]
         | |- context [Eigen.set_coeff ?v ?j ?x] =>
             let E := fresh in
             destruct (Eigen.set_coeff v j x) eqn:E;
             [|exact I|now apply set_coeff_not_out_of_fuel in E]; cbn [rbind]
         | |- context [if ?b then _ else _] => destruct b; cbn [rbind]
         end; lia.
Qed.

(** The [while] loop over the diagonal blocks is given enough fuel. *)
Lemma eigenvalue_loop_enough_fuel (n : Index) (T : Eigen.DenseMatrix R) (fuel : nat) :
  forall (i : Index) (ev : list (Complex R)),
    (Z.to_nat (n - i) < fuel)%nat ->
    eigenvalue_loop fuel n T i ev <> OutOfFuel.
Proof.
  induction fuel as [|fuel IH]; intros i ev Hfuel; [lia|].
  cbn [eigenvalue_loop].
  destruct (Z.ltb_spec i n); [|discriminate].
  pose proof (eigenvalue_block_advances n T i ev) as Hadv.
  destruct (eigenvalue_block n T i ev) as [[i' ev']| |]; cbn [rbind];
    [apply IH; lia | discriminate | contradiction].
Qed.
End HessenbergFuel.

Section SolverFuel.
Context {R Scalar : Type} `{ScalarOps R} `{!TypeTraits R} `{!Krylov R Scalar}
        `{!Specialization R Scalar} `{!Sorter R}
        `{!Eigen.Uninit (Complex R)} `{!Eigen.Uninit bool}.
Import GenEigsBase.

Lemma convergence_flags_not_out_of_fuel (tol : R) (nev : Index) (fnorm : R)
    (ritz_val ritz_est : list (Complex R)) :
  convergence_flags tol nev fnorm ritz_val ritz_est <> OutOfFuel.
Proof. unfold convergence_flags. no_fuel_needed. Qed.

Lemma num_converged_not_out_of_fuel (tol : R) (s : t) :
  fst (num_converged tol s) <> OutOfFuel.
Proof.
  unfold num_converged, bind, get, lift, modify, ret.
  pose proof (convergence_flags_not_out_of_fuel tol (m_nev s) (f_norm (m_fac s))
                (m_ritz_val s) (m_ritz_est s)) as Hf.
  destruct (convergence_flags _ _ _ _ _); cbn [fst];
    [discriminate | discriminate | contradiction].
Qed.

Lemma nev_adjusted_not_out_of_fuel (nconv : Index) (s : t) :
  fst (nev_adjusted nconv s) <> OutOfFuel.
Proof.
  unfold nev_adjusted, bind, get, lift. cbn [fst].
  unfold nev_adjusted_on. no_fuel_needed.
Qed.

(** The restarting loop of [compute] is given enough fuel: it runs out of
    it only if a restart does, that is, only if a collaborator does. *)
Lemma compute_loop_enough_fuel (selection : SortRule) (maxit : Index) (tol : R)
    (fuel : nat) :
  (forall k s, fst (restart k selection s) <> OutOfFuel) ->
  forall (i nconv : Index) (s : t),
    (Z.to_nat (maxit - i) < fuel)%nat ->
    fst (compute_loop fuel selection maxit tol i nconv s) <> OutOfFuel.
Proof.
  intros Hrestart. induction fuel as [|fuel IH]; intros i nconv s Hfuel; [lia|].
  cbn [compute_loop].
  destruct (Z.ltb_spec i maxit); [|discriminate].
  unfold bind at 1.
  pose proof (num_converged_not_out_of_fuel tol s) as Hn.
  destruct (num_converged tol s) as [[n| |] s1]; cbn [fst] in *;
    [|discriminate|contradiction].
  unfold bind at 1, get at 1.
  destruct (n >=? m_nev s1); [discriminate|].
  unfold bind at 1.
  pose proof (nev_adjusted_not_out_of_fuel n s1) as Ha.
  destruct (nev_adjusted n s1) as [[k| |] s2]; cbn [fst] in *;
    [|discriminate|contradiction].
  unfold bind at 1.
  pose proof (Hrestart k s2) as Hr.
  destruct (restart k selection s2) as [[[]| |] s3]; cbn [fst] in *;
    [|discriminate|contradiction].
  apply IH. lia.
Qed.
End SolverFuel.

(** * Further properties *)

(** ** Gathering by an index vector *)

Section GatherFacts.
Context {A : Type}.
Implicit Types (v : list A) (ind : list Index).

Lemma gather_app v ind1 ind2 :
  gather v (ind1 ++ ind2) = gather v ind1 ++ gather v ind2.
Proof. unfold gather. apply omap_app. Qed.

Lemma gather_snoc v ind (j : Index) (x : A) :
  0 <= j -> v !! Z.to_nat j = Some x -> gather v (ind ++ [j]) = gather v ind ++ [x].
Proof.
  intros Hj Hx. rewrite gather_app. f_equal. unfold gather. cbn.
  destruct (Z.leb_spec 0 j); [|lia]. now rewrite Hx.
Qed.

Lemma gather_length v ind :
  Forall (fun j => 0 <= j < Eigen.size v) ind -> length (gather v ind) = length ind.
Proof.
  induction 1 as [|j ind Hj _ IH]; [reflexivity|].
  unfold gather in *. cbn. destruct (Z.leb_spec 0 j); [|lia].
  destruct (lookup_lt_is_Some_2 v (Z.to_nat j)) as [x Hx];
    [unfold Eigen.size in Hj; lia|].
  rewrite Hx. cbn. now rewrite IH.
Qed.

Lemma gather_seqZ v (n : nat) :
  (n <= length v)%nat -> gather v (seqZ 0 (Z.of_nat n)) = take n v.
Proof.
  induction n as [|n IH]; intros Hn; [now rewrite take_0|].
  rewrite seqZ_S. destruct (lookup_lt_is_Some_2 v n) as [x Hx]; [lia|].
  rewrite Z.add_0_l.
  rewrite (gather_snoc _ _ _ x) by (rewrite ?Nat2Z.id; [lia || assumption ..]).
  rewrite IH by lia. symmetry. now apply take_S_r.
Qed.

(** Gathering by a permutation of the first [n] indices permutes the first
    [n] entries. *)
Lemma gather_Permutation v ind (n : nat) :
  Permutation ind (seqZ 0 (Z.of_nat n)) -> (n <= length v)%nat ->
  Permutation (gather v ind) (take n v).
Proof.
  intros Hperm Hn. rewrite <- (gather_seqZ v n Hn).
  unfold gather. now apply omap_Permutation.
Qed.

Lemma permuted_indices_in_range ind (n : Index) :
  Permutation ind (seqZ 0 n) -> Forall (fun j => 0 <= j < n) ind.
Proof.
  intros Hperm. rewrite Forall_forall. intros j Hj.
  rewrite Hperm in Hj. apply elem_of_seqZ in Hj. lia.
Qed.

Lemma gather_zip {B : Type} v (w : list B) ind :
  Forall (fun j => 0 <= j < Eigen.size v) ind ->
  Forall (fun j => 0 <= j < Eigen.size w) ind ->
  gather (zip v w) ind = zip (gather v ind) (gather w ind).
Proof.
  induction 1 as [|j ind Hj _ IH]; intros Hw; [reflexivity|].
  apply Forall_cons in Hw as [Hjw Hw]. specialize (IH Hw).
  unfold gather in *. cbn. destruct (Z.leb_spec 0 j); [|lia].
  destruct (lookup_lt_is_Some_2 v (Z.to_nat j)) as [x Hx];
    [unfold Eigen.size in Hj; lia|].
  destruct (lookup_lt_is_Some_2 w (Z.to_nat j)) as [y Hy];
    [unfold Eigen.size in Hjw; lia|].
  rewrite lookup_zip_with, Hx, Hy. cbn. now rewrite IH.
Qed.

(** Writing entry [length pre] of a vector whose first entries are [pre]. *)
Lemma set_coeff_next (pre rest : list A) (x : A) :
  rest <> [] ->
  Eigen.set_coeff (pre ++ rest) (Z.of_nat (length pre)) x
    = Ok ((pre ++ [x]) ++ drop 1 rest).
Proof.
  intros Hne. destruct rest as [|y rest]; [congruence|].
  rewrite set_coeff_in_range
    by (unfold Eigen.size; rewrite length_app; cbn [length]; lia).
  rewrite Nat2Z.id, insert_app_r_alt, Nat.sub_diag by lia.
  cbn. now rewrite <- app_assoc.
Qed.

Lemma drop_nonempty v (n : nat) : (n < length v)%nat -> drop n v <> [].
Proof.
  intros Hn Hd. apply (f_equal length) in Hd. rewrite length_drop in Hd.
  cbn in Hd. lia.
Qed.

Lemma selected_zip (xs : list A) (flags : list bool) :
  selected xs flags = (filter (fun p : A * bool => Is_true p.2) (zip xs flags)).*1.
Proof.
  revert flags. induction xs as [|x xs IH]; intros [|b flags]; try reflexivity.
  cbn [selected zip zip_with]. rewrite filter_cons. cbn [snd].
  destruct b; cbn.
  - destruct (decide (Is_true true)) as [_|Hn]; [|now destruct Hn].
    cbn. now rewrite IH.
  - destruct (decide (Is_true false)) as [Hf|_]; [now destruct Hf|]. apply IH.
Qed.

Lemma selected_Permutation (xs ys : list A) (f g : list bool) :
  Permutation (zip xs f) (zip ys g) -> Permutation (selected xs f) (selected ys g).
Proof. intros Hp. rewrite !selected_zip. now rewrite Hp. Qed.

Lemma selected_app_l (xs pad : list A) (flags : list bool) :
  (length flags <= length xs)%nat ->
  selected (xs ++ pad) flags = selected xs flags.
Proof.
  revert flags. induction xs as [|x xs IH]; intros [|b flags] Hlen;
    cbn [length] in *; try reflexivity; try lia.
  - now destruct pad.
  - cbn [app selected]. rewrite IH by lia. reflexivity.
Qed.

Lemma selected_length (xs : list A) (flags : list bool) :
  (length flags <= length xs)%nat ->
  Eigen.size (selected xs flags) = Eigen.count flags.
Proof.
  revert flags. induction xs as [|x xs IH]; intros [|b flags] Hlen;
    cbn [selected length] in *; try reflexivity; try lia.
  rewrite count_cons. unfold Eigen.size in *.
  destruct b; cbn [length]; rewrite <- IH by lia; lia.
Qed.

Lemma selected_sublist (xs : list A) (flags : list bool) :
  sublist (selected xs flags) (take (length flags) xs).
Proof.
  revert flags. induction xs as [|x xs IH]; intros [|b flags];
    cbn [selected length take]; try apply sublist_nil.
  destruct b; [apply sublist_skip | apply sublist_cons]; apply IH.
Qed.
End GatherFacts.

Lemma flagged_selected {R : Type} (vals : list (Complex R)) (flags : list bool) :
  flagged vals flags = selected vals flags.
Proof. reflexivity. Qed.

(** Loops that run one after the other. *)
Lemma rfold_app {A B : Type} (body : B -> A -> result B) (l1 l2 : list A) (b : B) :
  rfold body (l1 ++ l2) b = rbind (rfold body l1 b) (rfold body l2).
Proof.
  revert b. induction l1 as [|a l1 IH]; intros b; [reflexivity|].
  cbn [app rfold]. destruct (body b a); cbn [rbind]; auto.
Qed.

Lemma mfor_app {S A : Type} (l1 l2 : list A) (body : A -> M S unit) (s : S) :
  mfor (l1 ++ l2) body s = bind (mfor l1 body) (fun _ => mfor l2 body) s.
Proof.
  revert s. induction l1 as [|a l1 IH]; intros s; [reflexivity|].
  cbn [app mfor]. unfold bind in *.
  destruct (body a s) as [[[]| |] s1]; [|reflexivity|reflexivity].
  apply IH.
Qed.

(** ** GenEigsBase: the final sort moves whole Ritz pairs *)

Section SortPairs.
Context {R Scalar : Type} `{ScalarOps R} `{!TypeTraits R} `{!Krylov R Scalar}
        `{!Specialization R Scalar} `{!Sorter R}
        `{!Eigen.Uninit (Complex R)} `{!Eigen.Uninit bool}.
Import GenEigsBase.

(** The copying loop of [sort_ritzpair] after [n] turns: the first [n]
    entries of the three new arrays are the old entries at the indices
    [ind[0..n)], the others are as they were allocated. *)
Lemma sort_loop_gathers (ind : list Index) (rval : list (Complex R))
    (rvec : Eigen.DenseMatrix (Complex R)) (rconv : list bool)
    (nval0 : list (Complex R)) (r : Index) (cols0 : list (list (Complex R)))
    (nconv0 : list bool) (n : nat) :
  (n <= length ind)%nat ->
  Forall (fun j => 0 <= j < Eigen.size rval) ind ->
  Forall (fun j => 0 <= j < Eigen.cols rvec) ind ->
  Forall (fun j => 0 <= j < Eigen.size rconv) ind ->
  (n <= length nval0)%nat -> (n <= length cols0)%nat -> (n <= length nconv0)%nat ->
  rfold (fun '(nval, nvec, nconv) i =>
           let+ j := Eigen.coeff ind i in
           let+ v := Eigen.coeff rval j in
           let+ nval' := Eigen.set_coeff nval i v in
           let+ c := Eigen.col rvec j in
           let+ nvec' := Eigen.set_col nvec i c in
           let+ b := Eigen.coeff rconv j in
           let+ nconv' := Eigen.set_coeff nconv i b in
           Ok (nval', nvec', nconv'))
        (seqZ 0 (Z.of_nat n)) (nval0, Eigen.mkMatrix r cols0, nconv0)
    = Ok (gather rval (take n ind) ++ drop n nval0,
          Eigen.mkMatrix r (gather (Eigen.columns rvec) (take n ind) ++ drop n cols0),
          gather rconv (take n ind) ++ drop n nconv0).
Proof.
  intros Hn Hval Hvec Hconv. induction n as [|n IH]; intros Hl1 Hl2 Hl3.
  - rewrite take_0, !drop_0. reflexivity.
  - rewrite seqZ_S, rfold_app, IH by lia. cbn [rbind rfold]. rewrite Z.add_0_l.
    destruct (lookup_lt_is_Some_2 ind n) as [j Hj]; [lia|].
    rewrite (coeff_in_range ind (Z.of_nat n) j) by (rewrite ?Nat2Z.id; [lia || assumption ..]).
    cbn [rbind].
    assert (0 <= j < Eigen.size rval) as Hjv
      by (rewrite Forall_forall in Hval; eapply Hval, list_elem_of_lookup_2, Hj).
    assert (0 <= j < Eigen.cols rvec) as Hjc
      by (rewrite Forall_forall in Hvec; eapply Hvec, list_elem_of_lookup_2, Hj).
    assert (0 <= j < Eigen.size rconv) as Hjb
      by (rewrite Forall_forall in Hconv; eapply Hconv, list_elem_of_lookup_2, Hj).
    destruct (coeff_lookup rval j Hjv) as (v & Hv & Hcv).
    destruct (coeff_lookup (Eigen.columns rvec) j Hjc) as (c & Hc & Hcc).
    destruct (coeff_lookup rconv j Hjb) as (b & Hb & Hcb).
    assert (Forall (fun j => 0 <= j < Eigen.size rval) (take n ind)) as Hval'
      by (now apply Forall_take).
    assert (Forall (fun j => 0 <= j < Eigen.size (Eigen.columns rvec)) (take n ind))
      as Hvec' by (now apply Forall_take).
    assert (Forall (fun j => 0 <= j < Eigen.size rconv) (take n ind)) as Hconv'
      by (now apply Forall_take).
    assert (length (take n ind) = n) as Hlt by (rewrite length_take; lia).
    rewrite Hcv. cbn [rbind].
    replace (Z.of_nat n) with (Z.of_nat (length (gather rval (take n ind)))) at 1
      by (now rewrite gather_length, Hlt).
    rewrite set_coeff_next by (apply drop_nonempty; lia). cbn [rbind].
    unfold Eigen.col. rewrite Hcc. cbn [rbind].
    unfold Eigen.set_col. cbn [Eigen.columns Eigen.rows].
    replace (Z.of_nat n)
      with (Z.of_nat (length (gather (Eigen.columns rvec) (take n ind)))) at 1
      by (now rewrite gather_length, Hlt).
    rewrite set_coeff_next by (apply drop_nonempty; lia). cbn [rbind].
    rewrite Hcb. cbn [rbind].
    replace (Z.of_nat n) with (Z.of_nat (length (gather rconv (take n ind)))) at 1
      by (now rewrite gather_length, Hlt).
    rewrite set_coeff_next by (apply drop_nonempty; lia). cbn [rbind].
    rewrite !drop_drop, (take_S_r ind n j Hj).
    rewrite (gather_snoc rval _ j v), (gather_snoc (Eigen.columns rvec) _ j c),
      (gather_snoc rconv _ j b) by (lia || assumption).
    replace (n + 1)%nat with (S n) by lia. reflexivity.
Qed.

(** X3.  [sort_ritzpair] with one of the six rules, on a solver holding its
    [nev] wanted Ritz pairs and one flag for each: it returns; the new Ritz
    value, Ritz vector and flag of position [i] are the old ones of index
    [ind[i]], where [ind] is the index vector of the sorter, so the three
    stay matched; positions [nev] and above of the new value vector are
    left as they were allocated; and the values whose flag is set are the
    same collection as before. *)
Theorem sort_ritzpair_moves_pairs_together `{!SorterPermutes R}
    (sort_rule : SortRule) (s : t) :
  sort_rule <> UnsupportedRule ->
  0 <= m_nev s <= m_ncv s ->
  m_nev s <= Eigen.size (m_ritz_val s) ->
  m_nev s <= Eigen.cols (m_ritz_vec s) ->
  Eigen.size (m_ritz_conv s) = m_nev s ->
  let ind := sort_index sort_rule (m_ritz_val s) (m_nev s) in
  exists s' : t,
    sort_ritzpair sort_rule s = (Ok tt, s')
    /\ m_ritz_val s' =
         gather (m_ritz_val s) ind
         ++ replicate (Z.to_nat (m_ncv s - m_nev s)) Eigen.indeterminate
    /\ m_ritz_vec s' =
         Eigen.mkMatrix (m_ncv s) (gather (Eigen.columns (m_ritz_vec s)) ind)
    /\ m_ritz_conv s' = gather (m_ritz_conv s) ind
    /\ Permutation (zip (gather (m_ritz_val s) ind) (m_ritz_conv s'))
                   (zip (take (Z.to_nat (m_nev s)) (m_ritz_val s)) (m_ritz_conv s))
    /\ Permutation (selected (m_ritz_val s') (m_ritz_conv s'))
                   (selected (m_ritz_val s) (m_ritz_conv s)).
Proof.
  intros Hrule Hnev Hval Hvec Hconv ind.
  assert (Permutation ind (seqZ 0 (m_nev s))) as Hperm by apply sort_index_permutes.
  assert (length ind = Z.to_nat (m_nev s)) as Hlen
    by (rewrite (Permutation_length Hperm), length_seqZ; reflexivity).
  pose proof (permuted_indices_in_range _ _ Hperm) as Hrange.
  assert (Forall (fun j => 0 <= j < Eigen.size (m_ritz_val s)) ind) as Hr1
    by (eapply Forall_impl; [exact Hrange | cbv beta; intros; lia]).
  assert (Forall (fun j => 0 <= j < Eigen.cols (m_ritz_vec s)) ind) as Hr2
    by (eapply Forall_impl; [exact Hrange | cbv beta; intros; lia]).
  assert (Forall (fun j => 0 <= j < Eigen.size (m_ritz_conv s)) ind) as Hr3
    by (eapply Forall_impl; [exact Hrange | cbv beta; intros; lia]).
  pose proof (sort_loop_gathers ind (m_ritz_val s) (m_ritz_vec s) (m_ritz_conv s)
                (replicate (Z.to_nat (m_ncv s)) Eigen.indeterminate) (m_ncv s)
                (replicate (Z.to_nat (m_nev s))
                   (replicate (Z.to_nat (m_ncv s)) Eigen.indeterminate))
                (replicate (Z.to_nat (m_nev s)) Eigen.indeterminate)
                (Z.to_nat (m_nev s))) as Hloop.
  rewrite !length_replicate in Hloop.
  specialize (Hloop ltac:(lia) Hr1 Hr2 Hr3 ltac:(lia) ltac:(lia) ltac:(lia)).
  rewrite Z2Nat.id in Hloop by lia.
  rewrite <- Hlen, firstn_all in Hloop. rewrite Hlen in Hloop.
  rewrite !drop_replicate, Nat.sub_diag in Hloop. cbn [replicate] in Hloop.
  rewrite !app_nil_r in Hloop.
  replace (Z.to_nat (m_ncv s) - Z.to_nat (m_nev s))%nat
    with (Z.to_nat (m_ncv s - m_nev s)) in Hloop by lia.
  eexists. split.
  { unfold sort_ritzpair, bind, get, lift, modify.
    replace (sorted_indices "unsupported sorting rule" sort_rule (m_ritz_val s) (m_nev s))
      with (Ok ind) by (destruct sort_rule; try reflexivity; contradiction).
    unfold Eigen.constant. rewrite Hloop. reflexivity. }
  cbn [m_ritz_val m_ritz_vec m_ritz_conv set_ritz_conv set_ritz_vec set_ritz_val].
  split; [reflexivity|]. split; [reflexivity|]. split; [reflexivity|].
  assert (Permutation (zip (gather (m_ritz_val s) ind) (gather (m_ritz_conv s) ind))
                      (zip (take (Z.to_nat (m_nev s)) (m_ritz_val s)) (m_ritz_conv s)))
    as Hpairs.
  { rewrite <- gather_zip by assumption.
    replace (m_nev s) with (Z.of_nat (Z.to_nat (m_nev s))) in Hperm by lia.
    rewrite (gather_Permutation _ _ _ Hperm)
      by (unfold Eigen.size in *; rewrite length_zip; lia).
    rewrite zip_with_take.
    rewrite (take_ge (m_ritz_conv s)) by (unfold Eigen.size in *; lia).
    reflexivity. }
  split; [exact Hpairs|].
  rewrite selected_app_l by (rewrite !gather_length by assumption; lia).
  rewrite (selected_Permutation _ _ _ _ Hpairs).
  rewrite !selected_zip. unfold Eigen.size in *.
  rewrite zip_with_take_l' by lia. reflexivity.
Qed.
End SortPairs.

(** ** GenEigsBase: the accessors and [init] *)

Lemma selected_snoc {A : Type} (xs : list A) (flags : list bool) (b : bool) (x : A) :
  xs !! length flags = Some x ->
  selected xs (flags ++ [b]) = selected xs flags ++ (if b then [x] else []).
Proof.
  revert xs. induction flags as [|c flags IH]; intros [|y xs] Hx; try discriminate.
  - cbn in Hx. injection Hx as ->. destruct b, xs; reflexivity.
  - cbn [app selected length]. cbn in Hx. rewrite (IH _ Hx).
    destruct c; reflexivity.
Qed.

Lemma selected_nil_r {A : Type} (xs : list A) : selected xs [] = [].
Proof. now destruct xs. Qed.

Lemma count_replicate_false (n : nat) : Eigen.count (replicate n false) = 0.
Proof. induction n as [|n IH]; [reflexivity|]. cbn [replicate]. now rewrite count_cons, IH. Qed.

Section AccessorProperties.
Context {R Scalar : Type} `{ScalarOps R} `{!TypeTraits R} `{!Krylov R Scalar}
        `{!Specialization R Scalar} `{!Sorter R}
        `{!Eigen.Uninit (Complex R)} `{!Eigen.Uninit bool}.
Import GenEigsBase.

(** X5.  On a solver holding one flag for each of its [nev] wanted Ritz
    values, [eigenvalues()] returns, and leaves the solver as it is: the
    result is made of the Ritz values whose flag is set, in the order of the
    vector; it has as many entries as there are flags set, and never holds
    a value of index [nev] or above. *)
Theorem eigenvalues_returns_values_with_flag_set (s : t) :
  Eigen.size (m_ritz_conv s) = m_nev s ->
  m_nev s <= Eigen.size (m_ritz_val s) ->
  exists vals : list (Complex R),
    eigenvalues s = (Ok vals, s)
    /\ vals = selected (m_ritz_val s) (m_ritz_conv s)
    /\ Eigen.size vals = Eigen.count (m_ritz_conv s)
    /\ sublist vals (take (Z.to_nat (m_nev s)) (m_ritz_val s)).
Proof.
  intros Hconv Hval. exists (selected (m_ritz_val s) (m_ritz_conv s)).
  split; [now rewrite eigenvalues_returns_flagged|].
  split; [reflexivity|]. unfold Eigen.size in *. split.
  - apply selected_length. lia.
  - rewrite <- Hconv, Nat2Z.id. apply selected_sublist.
Qed.

(** The copying loop of [eigenvectors(nvec)] after [i] turns: the columns
    whose flag is set among the first [i], as long as there is room. *)
Lemma eigenvectors_loop (rvec : Eigen.DenseMatrix (Complex R)) (conv : list bool)
    (nvec r : Index) (pad : list (list (Complex R))) (i : nat) :
  (i <= length conv)%nat -> (length conv <= length (Eigen.columns rvec))%nat ->
  length pad = Z.to_nat nvec -> 0 <= nvec ->
  let chosen := selected (Eigen.columns rvec) (take i conv) in
  let j := Nat.min (Z.to_nat nvec) (length chosen) in
  rfold (fun '(rvc, j) i =>
           if j <? nvec then
             let+ b := Eigen.coeff conv i in
             if b : bool then
               let+ c := Eigen.col rvec i in
               let+ rvc' := Eigen.set_col rvc j c in
               Ok (rvc', j + 1)
             else Ok (rvc, j)
           else Ok (rvc, j))
        (seqZ 0 (Z.of_nat i)) (Eigen.mkMatrix r pad, 0)
    = Ok (Eigen.mkMatrix r (take (Z.to_nat nvec) chosen ++ drop j pad), Z.of_nat j).
Proof.
  intros Hi Hcols Hpad Hnvec. induction i as [|i IH]; cbv zeta.
  - rewrite take_0, selected_nil_r. cbn [length rfold seqZ].
    rewrite Nat.min_0_r, take_nil, drop_0. reflexivity.
  - rewrite seqZ_S, rfold_app, IH by lia. clear IH. cbn [rbind rfold].
    rewrite Z.add_0_l.
    destruct (lookup_lt_is_Some_2 conv i) as [b Hb]; [lia|].
    destruct (lookup_lt_is_Some_2 (Eigen.columns rvec) i) as [c Hc]; [lia|].
    rewrite (take_S_r conv i b Hb).
    rewrite (selected_snoc _ _ b c) by (rewrite length_take, Nat.min_l by lia; exact Hc).
    set (chosen := selected (Eigen.columns rvec) (take i conv)).
    destruct (Z.ltb_spec (Z.of_nat (Nat.min (Z.to_nat nvec) (length chosen))) nvec)
      as [Hroom|Hfull].
    + assert (length chosen < Z.to_nat nvec)%nat as Hlt by lia.
      rewrite (Nat.min_r _ _ (Nat.lt_le_incl _ _ Hlt)).
      rewrite (coeff_in_range conv (Z.of_nat i) b)
        by (rewrite ?Nat2Z.id; [lia || assumption ..]).
      cbn [rbind]. destruct b.
      * unfold Eigen.col.
        rewrite (coeff_in_range _ (Z.of_nat i) c)
          by (rewrite ?Nat2Z.id; [lia || assumption ..]).
        cbn [rbind]. unfold Eigen.set_col. cbn [Eigen.columns Eigen.rows].
        rewrite (take_ge chosen) by lia.
        rewrite set_coeff_next by (apply drop_nonempty; lia). cbn [rbind].
        rewrite drop_drop, length_app. cbn [length].
        rewrite (take_ge (chosen ++ [c])) by (rewrite length_app; cbn [length]; lia).
        rewrite Nat.min_r by lia. repeat f_equal; lia.
      * cbn [rbind]. rewrite app_nil_r.
        rewrite (Nat.min_r _ _ (Nat.lt_le_incl _ _ Hlt)). reflexivity.
    + assert (Z.to_nat nvec <= length chosen)%nat as Hle by lia.
      rewrite Nat.min_l by lia.
      rewrite take_app_le by lia.
      rewrite Nat.min_l by (rewrite length_app; lia). reflexivity.
Qed.

(** X6.  [eigenvectors(nvec)], for [nvec >= 0], on a solver holding one
    flag and one Ritz vector for each wanted Ritz value: with
    [k = min(nvec, nconv)], [nconv] being the number of flags set, it
    returns the empty [n] x 0 matrix when [k] is 0 and otherwise the
    product of the Krylov basis with the first [k] Ritz vectors whose flag
    is set, in the order of the flags (the order in which [eigenvalues()]
    lists the values); [eigenvectors()] takes all of them. *)
Theorem eigenvectors_multiplies_columns_with_flag_set (nvec : Index) (s : t) :
  0 <= nvec ->
  Eigen.size (m_ritz_conv s) = m_nev s ->
  m_nev s <= Eigen.cols (m_ritz_vec s) ->
  let chosen := selected (Eigen.columns (m_ritz_vec s)) (m_ritz_conv s) in
  let nconv := Eigen.count (m_ritz_conv s) in
  let k := Z.min nvec nconv in
  Eigen.size chosen = nconv
  /\ eigenvectors nvec s =
       (Ok (if k =? 0 then Eigen.mkMatrix (m_n s) []
            else matrix_V_times (m_fac s)
                   (Eigen.mkMatrix (m_ncv s) (take (Z.to_nat k) chosen))), s)
  /\ eigenvectors_all s =
       (Ok (if nconv =? 0 then Eigen.mkMatrix (m_n s) []
            else matrix_V_times (m_fac s) (Eigen.mkMatrix (m_ncv s) chosen)), s).
Proof.
  intros Hnvec Hconv Hvec chosen nconv k.
  assert (Eigen.size chosen = nconv) as Hsize
    by (apply selected_length; unfold Eigen.cols, Eigen.size in *; lia).
  assert (forall nv : Index, 0 <= nv ->
            eigenvectors nv s =
              (Ok (if Z.min nv nconv =? 0 then Eigen.mkMatrix (m_n s) []
                   else matrix_V_times (m_fac s)
                          (Eigen.mkMatrix (m_ncv s)
                             (take (Z.to_nat (Z.min nv nconv)) chosen))), s)) as Hgen.
  { intros nv Hnv. unfold eigenvectors, bind, get, ret, lift. fold nconv.
    pose proof (count_nonneg (m_ritz_conv s)) as Hc. fold nconv in Hc.
    destruct (Z.eqb_spec (Z.min nv nconv) 0) as [Hz|Hnz].
    { rewrite Hz. reflexivity. }
    pose proof (eigenvectors_loop (m_ritz_vec s) (m_ritz_conv s) (Z.min nv nconv)
                  (m_ncv s)
                  (replicate (Z.to_nat (Z.min nv nconv))
                     (replicate (Z.to_nat (m_ncv s)) Eigen.indeterminate))
                  (length (m_ritz_conv s))) as Hloop.
    rewrite length_replicate in Hloop.
    specialize (Hloop ltac:(lia)
                  ltac:(unfold Eigen.cols, Eigen.size in *; lia) eq_refl ltac:(lia)).
    cbv zeta in Hloop. rewrite firstn_all in Hloop. fold chosen in Hloop.
    unfold Eigen.size in Hconv, Hsize. rewrite Hconv in Hloop.
    unfold Eigen.constant. rewrite Hloop.
    rewrite Nat.min_l by lia.
    rewrite drop_replicate, Nat.sub_diag. cbn [replicate]. now rewrite app_nil_r. }
  split; [exact Hsize|]. split; [now apply Hgen|].
  unfold eigenvectors_all, bind, get.
  assert (0 <= nconv <= m_nev s) as Hn.
  { split; [apply count_nonneg|]. rewrite <- Hconv. apply count_le_size. }
  rewrite Hgen by lia. rewrite Z.min_r by lia.
  rewrite (take_ge chosen) by (unfold Eigen.size in Hsize; lia). reflexivity.
Qed.

(** X7.  [init(init_resid)], when the factorization accepts the residual:
    the Ritz vectors are zero with the sizes [ncv], [ncv] x [nev], [ncv];
    there are [nev] flags, all unset; the iteration counter is 0 and the
    operator counter is what the factorization made of 0.  The status is not
    reset: it is the one the solver had.  So whatever the solver had
    computed before, [eigenvalues()] is empty afterwards, while [info()]
    still answers for the earlier computation. *)
Theorem init_resets_results_but_not_status (init_resid : list Scalar) (s s' : t) :
  init init_resid s = (Ok tt, s') ->
  m_ritz_val s' = replicate (Z.to_nat (m_ncv s)) (of_real (of_Z 0))
  /\ m_ritz_est s' = replicate (Z.to_nat (m_ncv s)) (of_real (of_Z 0))
  /\ m_ritz_vec s' = Eigen.constant (m_ncv s) (m_nev s) (of_real (of_Z 0))
  /\ m_ritz_conv s' = replicate (Z.to_nat (m_nev s)) false
  /\ m_niter s' = 0
  /\ fac_init init_resid 0 (m_fac s) = Ok (m_nmatop s', m_fac s')
  /\ eval info s' = eval info s
  /\ eigenvalues s' = (Ok [], s')
  /\ m_n s' = m_n s /\ m_nev s' = m_nev s /\ m_ncv s' = m_ncv s.
Proof.
  unfold init, bind, get, modify, lift. cbn.
  destruct (fac_init init_resid 0 (m_fac s)) as [[nmatop f]| |] eqn:Hfac;
    try discriminate.
  intros [= <-]. cbn. repeat split; try reflexivity.
  unfold eigenvalues, bind, get, ret. cbn.
  now rewrite count_replicate_false.
Qed.
End AccessorProperties.

(** ** GenEigsBase: retrieving the Ritz pairs *)

Section RowFacts.
Context {A : Type}.

Lemma row_lookup_columns (cols : list (list A)) (i : nat) :
  Forall (fun col => (i < length col)%nat) cols ->
  forall j : nat,
    omap (fun col : list A => col !! i) cols !! j = cols !! j ≫= (.!! i).
Proof.
  induction 1 as [|col cols Hcol _ IH]; intros j; [reflexivity|].
  destruct (lookup_lt_is_Some_2 col i Hcol) as [x Hx].
  cbn [omap list_omap]. rewrite Hx. destruct j as [|j]; cbn.
  - now rewrite Hx.
  - apply IH.
Qed.

Lemma row_length (m : Eigen.DenseMatrix A) (r c i : Index) :
  shaped r c m -> 0 <= i < r -> Eigen.size (row m i) = c.
Proof.
  intros (_ & <- & Hall) Hi. unfold row, Eigen.cols, Eigen.size. f_equal.
  induction Hall as [|col cols Hcol _ IH]; [reflexivity|].
  destruct (lookup_lt_is_Some_2 col (Z.to_nat i)) as [x Hx];
    [unfold Eigen.size in Hcol; lia|].
  cbn [omap list_omap length]. rewrite Hx. cbn [length]. now rewrite IH.
Qed.

(** In an [r] x [c] matrix every coefficient is there, and [row] lists
    those of a row. *)
Lemma mcoeff_in_shape (m : Eigen.DenseMatrix A) (r c i j : Index) :
  shaped r c m -> 0 <= i < r -> 0 <= j < c ->
  exists x : A, Eigen.mcoeff m i j = Ok x /\ row m i !! Z.to_nat j = Some x.
Proof.
  intros (_ & Hc & Hall) Hi Hj. unfold Eigen.cols in Hc.
  destruct (coeff_lookup (Eigen.columns m) j) as (col & Hcol & Hccol); [lia|].
  assert (Eigen.size col = r) as Hlen.
  { rewrite Forall_forall in Hall. eapply Hall, list_elem_of_lookup_2, Hcol. }
  destruct (coeff_lookup col i) as (x & Hx & Hcx); [lia|].
  exists x. split.
  - unfold Eigen.mcoeff, Eigen.col. rewrite Hccol. cbn [rbind]. exact Hcx.
  - unfold row. rewrite row_lookup_columns.
    + rewrite Hcol. cbn. exact Hx.
    + eapply Forall_impl; [exact Hall|]. cbv beta. unfold Eigen.size. intros; lia.
Qed.
End RowFacts.

Section RetrieveFacts.
Context {R Scalar : Type} `{ScalarOps R} `{!TypeTraits R} `{!Krylov R Scalar}
        `{!Specialization R Scalar} `{!Sorter R}
        `{!Eigen.Uninit (Complex R)} `{!Eigen.Uninit bool}.
Import GenEigsBase.

(** The first copying loop of [retrieve_ritzpair] after [n] turns. *)
Lemma retrieve_values_loop (ind : list Index) (evals : list (Complex R))
    (evecs : Eigen.DenseMatrix (Complex R)) (s : t) (n : nat) :
  (n <= length ind)%nat ->
  Forall (fun j => 0 <= j < m_ncv s) ind ->
  Eigen.size evals = m_ncv s ->
  shaped (m_ncv s) (m_ncv s) evecs ->
  (n <= length (m_ritz_val s))%nat -> (n <= length (m_ritz_est s))%nat ->
  mfor (seqZ 0 (Z.of_nat n)) (fun i =>
    let* s := get in
    let* j := lift (Eigen.coeff ind i) in
    let* v := lift (Eigen.coeff evals j) in
    let* rv := lift (Eigen.set_coeff (m_ritz_val s) i v) in
    let* _ := modify (set_ritz_val rv) in
    let* e := lift (Eigen.mcoeff evecs (m_ncv s - 1) j) in
    let* re := lift (Eigen.set_coeff (m_ritz_est s) i e) in
    modify (set_ritz_est re)) s
  = (Ok tt,
     set_ritz_est (gather (row evecs (m_ncv s - 1)) (take n ind)
                   ++ drop n (m_ritz_est s))
       (set_ritz_val (gather evals (take n ind) ++ drop n (m_ritz_val s)) s)).
Proof.
  intros Hn Hind Hevals Hshape. induction n as [|n IH]; intros Hl1 Hl2.
  - rewrite take_0, !drop_0. destruct s. reflexivity.
  - rewrite seqZ_S, mfor_app. unfold bind at 1. rewrite IH by lia. clear IH.
    cbn [mfor]. rewrite Z.add_0_l.
    destruct (lookup_lt_is_Some_2 ind n) as [j Hj]; [lia|].
    assert (0 <= j < m_ncv s) as Hjr
      by (rewrite Forall_forall in Hind; eapply Hind, list_elem_of_lookup_2, Hj).
    destruct (coeff_lookup evals j) as (v & Hv & Hcv); [lia|].
    destruct (mcoeff_in_shape evecs _ _ (m_ncv s - 1) j Hshape) as (e & He & Hre);
      [lia | lia |].
    assert (Forall (fun j => 0 <= j < Eigen.size evals) (take n ind)) as Hr1.
    { apply Forall_take. eapply Forall_impl; [exact Hind|]. cbv beta. intros; lia. }
    assert (Forall (fun j => 0 <= j < Eigen.size (row evecs (m_ncv s - 1))) (take n ind))
      as Hr2.
    { apply Forall_take. eapply Forall_impl; [exact Hind|]. cbv beta.
      rewrite (row_length evecs _ _ _ Hshape) by lia. intros; lia. }
    assert (length (take n ind) = n) as Hlt by (rewrite length_take; lia).
    unfold bind, get, lift, modify, ret.
    cbn [m_ritz_val m_ritz_est m_ncv set_ritz_val set_ritz_est].
    rewrite (coeff_in_range ind (Z.of_nat n) j)
      by (rewrite ?Nat2Z.id; [lia || assumption ..]).
    rewrite Hcv.
    replace (Z.of_nat n) with (Z.of_nat (length (gather evals (take n ind)))) at 1
      by (now rewrite gather_length, Hlt).
    rewrite set_coeff_next by (apply drop_nonempty; lia).
    cbn [m_ritz_val m_ritz_est m_ncv set_ritz_val set_ritz_est].
    rewrite He.
    replace (Z.of_nat n)
      with (Z.of_nat (length (gather (row evecs (m_ncv s - 1)) (take n ind)))) at 1
      by (now rewrite gather_length, Hlt).
    rewrite set_coeff_next by (apply drop_nonempty; lia).
    rewrite !drop_drop, (take_S_r ind n j Hj).
    rewrite (gather_snoc evals _ j v), (gather_snoc (row evecs (m_ncv s - 1)) _ j e)
      by (lia || assumption).
    replace (n + 1)%nat with (S n) by lia. reflexivity.
Qed.

(** The second one: the columns of the wanted Ritz vectors. *)
Lemma retrieve_vectors_loop (ind : list Index)
    (evecs : Eigen.DenseMatrix (Complex R)) (s : t) (n : nat) :
  (n <= length ind)%nat ->
  Forall (fun j => 0 <= j < Eigen.cols evecs) ind ->
  (n <= length (Eigen.columns (m_ritz_vec s)))%nat ->
  mfor (seqZ 0 (Z.of_nat n)) (fun i =>
    let* s := get in
    let* j := lift (Eigen.coeff ind i) in
    let* c := lift (Eigen.col evecs j) in
    let* rvec := lift (Eigen.set_col (m_ritz_vec s) i c) in
    modify (set_ritz_vec rvec)) s
  = (Ok tt,
     set_ritz_vec
       (Eigen.mkMatrix (Eigen.rows (m_ritz_vec s))
          (gather (Eigen.columns evecs) (take n ind)
           ++ drop n (Eigen.columns (m_ritz_vec s)))) s).
Proof.
  intros Hn Hind. induction n as [|n IH]; intros Hl.
  - rewrite take_0, !drop_0. destruct s as [? ? ? ? ? ? ? ? [] ? ? ?]. reflexivity.
  - rewrite seqZ_S, mfor_app. unfold bind at 1. rewrite IH by lia. clear IH.
    cbn [mfor]. rewrite Z.add_0_l.
    destruct (lookup_lt_is_Some_2 ind n) as [j Hj]; [lia|].
    assert (0 <= j < Eigen.cols evecs) as Hjr
      by (rewrite Forall_forall in Hind; eapply Hind, list_elem_of_lookup_2, Hj).
    destruct (coeff_lookup (Eigen.columns evecs) j Hjr) as (c & Hc & Hcc).
    assert (Forall (fun j => 0 <= j < Eigen.size (Eigen.columns evecs)) (take n ind))
      as Hr1 by (now apply Forall_take).
    assert (length (take n ind) = n) as Hlt by (rewrite length_take; lia).
    unfold bind, get, lift, modify, ret.
    cbn [m_ritz_vec set_ritz_vec].
    rewrite (coeff_in_range ind (Z.of_nat n) j)
      by (rewrite ?Nat2Z.id; [lia || assumption ..]).
    unfold Eigen.col. rewrite Hcc.
    unfold Eigen.set_col. cbn [Eigen.columns Eigen.rows rbind].
    replace (Z.of_nat n)
      with (Z.of_nat (length (gather (Eigen.columns evecs) (take n ind)))) at 1
      by (now rewrite gather_length, Hlt).
    rewrite set_coeff_next by (apply drop_nonempty; lia).
    cbn [rbind m_ritz_vec set_ritz_vec].
    rewrite !drop_drop, (take_S_r ind n j Hj).
    rewrite (gather_snoc (Eigen.columns evecs) _ j c) by (lia || assumption).
    replace (n + 1)%nat with (S n) by lia. reflexivity.
Qed.

(** X1.  [retrieve_ritzpair] with one of the six rules, when the
    decomposition of the projected matrix [H] yields [ncv] eigenvalues and
    an [ncv] x [ncv] matrix of eigenvectors and the solver holds vectors of
    the sizes [init] gives them: it returns; Ritz value [i] is eigenvalue
    [ind[i]], Ritz estimate [i] is the last component of eigenvector
    [ind[i]] and, for [i < nev], Ritz vector [i] is eigenvector [ind[i]],
    where [ind] is the index vector of the sorter.  So the three stay
    matched, the Ritz values are the eigenvalues of [H] in another order,
    and nothing else of the solver changes. *)
Theorem retrieve_ritzpair_gathers_eigenpairs `{!SorterPermutes R}
    (selection : SortRule) (s : t)
    (evals : list (Complex R)) (evecs : Eigen.DenseMatrix (Complex R)) :
  selection <> UnsupportedRule ->
  hessenberg_eigen (matrix_H (m_fac s)) = Ok (evals, evecs) ->
  Eigen.size evals = m_ncv s ->
  shaped (m_ncv s) (m_ncv s) evecs ->
  0 <= m_nev s <= m_ncv s ->
  Eigen.size (m_ritz_val s) = m_ncv s ->
  Eigen.size (m_ritz_est s) = m_ncv s ->
  m_nev s <= Eigen.cols (m_ritz_vec s) ->
  let ind := sort_index selection evals (m_ncv s) in
  let last_row := row evecs (m_ncv s - 1) in
  let wanted := Z.to_nat (m_nev s) in
  let vectors :=
    Eigen.mkMatrix (Eigen.rows (m_ritz_vec s))
      (gather (Eigen.columns evecs) (take wanted ind)
       ++ drop wanted (Eigen.columns (m_ritz_vec s))) in
  retrieve_ritzpair selection s =
    (Ok tt, set_ritz_vec vectors
              (set_ritz_est (gather last_row ind) (set_ritz_val (gather evals ind) s)))
  /\ Permutation (zip (gather evals ind) (gather last_row ind)) (zip evals last_row)
  /\ Permutation (gather evals ind) evals.
Proof.
  intros Hrule Hdec Hevals Hshape Hnev Hval Hest Hvec ind last_row wanted vectors.
  assert (Permutation ind (seqZ 0 (m_ncv s))) as Hperm by apply sort_index_permutes.
  assert (length ind = Z.to_nat (m_ncv s)) as Hlen
    by (rewrite (Permutation_length Hperm), length_seqZ; reflexivity).
  pose proof (permuted_indices_in_range _ _ Hperm) as Hrange.
  assert (Eigen.size last_row = m_ncv s) as Hrow.
  { destruct (Z.eq_dec (m_ncv s) 0) as [Hz|Hnz].
    - destruct Hshape as (_ & Hc & _). unfold last_row, row.
      unfold Eigen.cols, Eigen.size in Hc.
      destruct (Eigen.columns evecs); [now rewrite Hz | cbn in Hc; lia].
    - apply (row_length evecs _ _ _ Hshape). lia. }
  split.
  - unfold retrieve_ritzpair. unfold bind at 1, get at 1.
    unfold bind at 1, lift at 1. rewrite Hdec.
    unfold bind at 1, lift at 1.
    replace (sorted_indices "unsupported selection rule" selection evals (m_ncv s))
      with (Ok ind) by (destruct selection; try reflexivity; contradiction).
    unfold bind at 1.
    pose proof (retrieve_values_loop ind evals evecs s (Z.to_nat (m_ncv s))
                  ltac:(lia) Hrange Hevals Hshape) as Hloop1.
    rewrite Z2Nat.id in Hloop1 by lia.
    rewrite Hloop1 by (unfold Eigen.size in *; lia). clear Hloop1.
    rewrite <- Hlen, firstn_all, Hlen.
    rewrite !drop_ge by (unfold Eigen.size in *; lia). rewrite !app_nil_r.
    fold last_row.
    set (s1 := set_ritz_est _ _).
    pose proof (retrieve_vectors_loop ind evecs s1 (Z.to_nat (m_nev s))
                  ltac:(lia)) as Hloop2.
    rewrite Z2Nat.id in Hloop2 by lia.
    rewrite Hloop2.
    + reflexivity.
    + destruct Hshape as (_ & -> & _). exact Hrange.
    + subst s1. cbn [m_ritz_vec set_ritz_est set_ritz_val].
      unfold Eigen.cols, Eigen.size in *. lia.
  - assert (Forall (fun j => 0 <= j < Eigen.size evals) ind) as Hr1
      by (eapply Forall_impl; [exact Hrange | cbv beta; intros; lia]).
    assert (Forall (fun j => 0 <= j < Eigen.size last_row) ind) as Hr2
      by (eapply Forall_impl; [exact Hrange | cbv beta; intros; lia]).
    replace (m_ncv s) with (Z.of_nat (Z.to_nat (m_ncv s))) in Hperm by lia.
    split.
    + rewrite <- gather_zip by assumption.
      rewrite (gather_Permutation _ _ _ Hperm)
        by (unfold Eigen.size in *; rewrite length_zip; lia).
      rewrite take_ge by (unfold Eigen.size in *; rewrite length_zip; lia).
      reflexivity.
    + rewrite (gather_Permutation _ _ _ Hperm) by (unfold Eigen.size in *; lia).
      rewrite take_ge by (unfold Eigen.size in *; lia). reflexivity.
Qed.

(** X2.  The default branch of the [switch] in [retrieve_ritzpair]: with a
    rule that is not one of the six, [compute] throws
    [std::invalid_argument], and it does so only after the first Arnoldi
    expansion and the decomposition of [H] have run: the operator counter
    has advanced, the Ritz vectors, the iteration counter and the status
    are untouched. *)
Theorem compute_rejects_selection_rule_after_expansion
    (maxit : Index) (tol : R) (sorting : SortRule) (s s1 : t)
    (evals : list (Complex R)) (evecs : Eigen.DenseMatrix (Complex R)) :
  factorize 1 (m_ncv s) s = (Ok tt, s1) ->
  hessenberg_eigen (matrix_H (m_fac s1)) = Ok (evals, evecs) ->
  compute UnsupportedRule maxit tol sorting s =
    (Throw (invalid_argument "unsupported selection rule"), s1)
  /\ (exists f : ArnoldiFac,
        factorize_from 1 (m_ncv s) (m_nmatop s) (m_fac s) = Ok (m_nmatop s1, f)
        /\ s1 = set_fac f (set_nmatop (m_nmatop s1) s)).
Proof.
  intros Hfac Hdec. split.
  - unfold compute. unfold bind at 1, get at 1. unfold bind at 1. rewrite Hfac.
    unfold bind at 1. unfold retrieve_ritzpair at 1.
    unfold bind at 1, get at 1. unfold bind at 1, lift at 1. rewrite Hdec.
    reflexivity.
  - unfold factorize, bind, get, lift, modify in Hfac.
    destruct (factorize_from 1 (m_ncv s) (m_nmatop s) (m_fac s)) as [[nmatop f]| |];
      try discriminate.
    injection Hfac as <-. exists f. split; reflexivity.
Qed.
End RetrieveFacts.

(** ** GenEigsBase: the restart and the result of [compute] *)

Section RestartProperties.
Context {R Scalar : Type} `{ScalarOps R} `{!TypeTraits R} `{!Krylov R Scalar}
        `{!Specialization R Scalar} `{!Sorter R}
        `{!Eigen.Uninit (Complex R)} `{!Eigen.Uninit bool}.
Import GenEigsBase.

(** The adjusted rank before the test of the conjugate pair. *)
Lemma adjusted_rank_range (nev ncv locked nconv : Index) :
  1 <= nev -> nev + 2 <= ncv -> 0 <= locked <= ncv - nev -> 0 <= nconv ->
  let r1 := nev + locked in
  let r2 := r1 + Z.min nconv (Z.quot (ncv - r1) 2) in
  let r3 := if (r2 =? 1) && (ncv >=? 6) then Z.quot ncv 2
            else if (r2 =? 1) && (ncv >? 3) then 2 else r2 in
  let r4 := if r3 >? ncv - 2 then ncv - 2 else r3 in
  nev <= r4 <= ncv - 2.
Proof.
  intros Hnev Hncv Hlocked Hnconv r1 r2 r3 r4.
  assert (0 <= Z.quot (ncv - r1) 2) as Hhalf by (apply Z.quot_pos; subst r1; lia).
  assert (nev <= r2) as Hr2 by (subst r2 r1; lia).
  assert (nev <= r3) as Hr3.
  { subst r3. destruct (Z.eqb_spec r2 1); cbn [andb]; [|lia].
    rewrite Z.geb_leb, Z.gtb_ltb.
    destruct (Z.leb_spec 6 ncv); [|destruct (Z.ltb_spec 3 ncv); lia].
    assert (3 <= Z.quot ncv 2) by (apply Z.quot_le_lower_bound; lia). lia. }
  subst r4. rewrite Z.gtb_ltb. destruct (Z.ltb_spec (ncv - 2) r3); lia.
Qed.

(** X8.  On a solver whose parameters passed the constructor's checks and
    whose Ritz vectors have their [ncv] entries, the adjusted rank lies in
    [nev, ncv - 1]: [nev_adjusted] reads inside the vectors, and the
    [restart] that [compute] calls with it never takes its early return
    [k >= m_ncv]; at least one shift is left to apply. *)
Theorem nev_adjusted_between_nev_and_ncv (s : t) (nconv : Index) :
  1 <= m_nev s ->
  m_nev s + 2 <= m_ncv s ->
  Eigen.size (m_ritz_val s) = m_ncv s ->
  Eigen.size (m_ritz_est s) = m_ncv s ->
  0 <= nconv ->
  exists k : Index,
    nev_adjusted nconv s = (Ok k, s)
    /\ m_nev s <= k <= m_ncv s - 1
    /\ (k >=? m_ncv s) = false.
Proof.
  intros Hnev Hncv Hval Hest Hnconv.
  unfold nev_adjusted, bind, get, lift, nev_adjusted_on.
  set (near_0 := fmul TypeTraits_min (of_Z 10)).
  assert (seqZ (m_nev s) (m_ncv s - m_nev s)
          = seqZ (m_nev s) (Z.of_nat (Z.to_nat (m_ncv s - m_nev s)))) as ->
    by (f_equal; lia).
  rewrite count_locked by lia. cbn [rbind].
  set (locked := Z.of_nat (length _)).
  assert (0 <= locked <= m_ncv s - m_nev s) as Hlocked.
  { subst locked. split; [lia|].
    etransitivity; [apply inj_le, List.filter_length_le|].
    rewrite length_take. lia. }
  pose proof (adjusted_rank_range (m_nev s) (m_ncv s) locked nconv
                Hnev Hncv Hlocked Hnconv) as Hr4.
  cbv zeta in Hr4.
  set (r4 := if _ >? m_ncv s - 2 then m_ncv s - 2 else _) in *.
  destruct (coeff_lookup (m_ritz_val s) (r4 - 1)) as (a & _ & Hca); [lia|].
  destruct (coeff_lookup (m_ritz_val s) r4) as (b & _ & Hcb); [lia|].
  rewrite Hca, Hcb. cbn [rbind].
  destruct (is_complex a); cbn [rbind]; [destruct (is_conj a b)|];
    eexists; (split; [reflexivity|]); (split; [lia|]);
    rewrite Z.geb_leb; apply Z.leb_gt; lia.
Qed.

(** X9.  [restart] writes neither the parameters, nor the convergence
    flags, nor the iteration counter, nor the status, whatever its outcome:
    after a turn of the loop of [compute] the flags are still those of the
    test that preceded the restart.  With [k >= ncv] it changes nothing at
    all. *)
Theorem restart_keeps_flags_and_counter (k : Index) (selection : SortRule) (s : t) :
  restart_frame s (snd (restart k selection s))
  /\ (m_ncv s <= k -> restart k selection s = (Ok tt, s)).
Proof.
  split; [apply keeps_restart|].
  intros Hk. unfold restart, bind, get.
  destruct (Z.geb_spec k (m_ncv s)); [reflexivity | lia].
Qed.

(** X10.  The value [compute] returns lies in [0, nev], and it tells the
    status: it is [nev] exactly when the status is [Successful], and below
    [nev] exactly when it is [NotConverging]; a [compute] that returns
    never leaves [NotComputed]. *)
Theorem compute_result_tells_status (selection : SortRule) (maxit : Index)
    (tol : R) (sorting : SortRule) (s s' : t) (r : Index) :
  0 <= m_nev s ->
  compute selection maxit tol sorting s = (Ok r, s') ->
  0 <= r <= m_nev s
  /\ (m_info s' = Successful <-> r = m_nev s)
  /\ (m_info s' = NotConverging <-> r < m_nev s)
  /\ m_info s' <> NotComputed.
Proof.
  intros Hnev Hrun.
  apply compute_niter in Hrun as (i & nconv & s1 & Hloop & _ & Hinfo & ->).
  assert (0 <= nconv <= m_nev s) as Hn.
  { apply compute_until_sorting_Ok in Hloop
      as [_ [(_ & _ & ->) | (_ & _ & -> & Hsize & _)]]; [lia|].
    split; [apply count_nonneg|]. rewrite <- Hsize. apply count_le_size. }
  rewrite Hinfo, Z.min_r by lia.
  destruct (Z.geb_spec nconv (m_nev s)); repeat split;
    intros; try discriminate; try reflexivity; lia.
Qed.

(** X11.  The default branch of the [switch] in [sort_ritzpair]: with a
    sorting rule that is not one of the six, [compute] throws
    [std::invalid_argument] only once its loop is over, and the statements
    after the sort are skipped: the Ritz pairs are those the loop left, and
    the iteration counter and the status are the ones the solver had before
    the call. *)
Theorem compute_rejects_sorting_rule_after_the_loop
    (selection : SortRule) (maxit : Index) (tol : R) (s s1 : t) (i nconv : Index) :
  compute_until_sorting selection maxit tol s = (Ok (i, nconv), s1) ->
  compute selection maxit tol UnsupportedRule s =
    (Throw (invalid_argument "unsupported sorting rule"), s1)
  /\ m_niter s1 = m_niter s /\ m_info s1 = m_info s.
Proof.
  intros Hloop. rewrite compute_split, Hloop, compute_finish_run.
  split; [reflexivity|].
  apply compute_until_sorting_Ok in Hloop as [(_ & _ & _ & Hniter & Hinfo) _].
  now split.
Qed.
End RestartProperties.

(** ** UpperHessenbergEigen (real): eigenvalues and eigenvectors *)

Lemma tail_drop {A : Type} (l : list A) (k : nat) : tail (drop k l) = drop (S k) l.
Proof.
  revert l. induction k as [|k IH]; intros [|x l]; try reflexivity.
  cbn [drop]. apply IH.
Qed.

Lemma set_coeff_after {A : Type} (pre rest : list A) (x : A) (i : Index) :
  i = Z.of_nat (length pre) -> rest <> [] ->
  Eigen.set_coeff (pre ++ rest) i x = Ok ((pre ++ [x]) ++ drop 1 rest).
Proof. intros ->. apply set_coeff_next. Qed.

Section BlockFacts.
Context {R : Type} `{ScalarOps R}.

Lemma conjugate_blocks_app (l1 l2 : list (Complex R)) :
  conjugate_blocks l1 -> conjugate_blocks l2 -> conjugate_blocks (l1 ++ l2).
Proof.
  induction 1 as [|d rest _ IH|a z rest _ IH]; intros H2; cbn [app].
  - exact H2.
  - constructor. now apply IH.
  - constructor. now apply IH.
Qed.

Lemma normalize_length (c : list (Complex R)) :
  length (UpperHessenbergEigen.normalize c) = length c.
Proof.
  unfold UpperHessenbergEigen.normalize.
  destruct (flt _ _); [now rewrite length_fmap | reflexivity].
Qed.

Lemma paired_columns_nil_r (ev : list (Complex R)) : paired_columns ev [] = [].
Proof. reflexivity. Qed.

Lemma paired_columns_cons2 (v : Complex R) (ev : list (Complex R))
    (c c1 : list R) (cols : list (list R)) :
  paired_columns (v :: ev) (c :: c1 :: cols) =
    if feq (imag v) (of_Z 0)
    then UpperHessenbergEigen.normalize (of_real <$> c)
         :: paired_columns ev (c1 :: cols)
    else UpperHessenbergEigen.normalize (zip_with (fun x y => mkComplex x y) c c1)
         :: UpperHessenbergEigen.normalize
              (zip_with (fun x y => mkComplex x (fneg y)) c c1)
         :: paired_columns (tail ev) cols.
Proof. reflexivity. Qed.

Lemma paired_columns_length (cols : list (list R)) :
  forall ev : list (Complex R),
    (length cols <= length ev)%nat ->
    length (paired_columns ev cols) = length cols.
Proof.
  induction cols as [cols IH] using (induction_ltof1 _ (@length _)).
  unfold ltof in IH. intros ev Hlen.
  destruct cols as [|c [|c1 cols]], ev as [|v ev]; cbn [length] in *;
    try reflexivity; try lia.
  rewrite paired_columns_cons2. destruct (feq _ _); cbn [length].
  - rewrite (IH (c1 :: cols)); cbn [length]; lia.
  - rewrite (IH cols); [reflexivity | lia |].
    destruct ev; cbn [tail length] in *; lia.
Qed.

Lemma paired_columns_rows (n : Index) (cols : list (list R)) :
  Forall (fun col => Eigen.size col = n) cols ->
  forall ev : list (Complex R),
    Forall (fun col => Eigen.size col = n) (paired_columns ev cols).
Proof.
  induction cols as [cols IH] using (induction_ltof1 _ (@length _)).
  unfold ltof in IH. intros Hall ev.
  destruct cols as [|c [|c1 cols]], ev as [|v ev]; try constructor.
  - unfold Eigen.size. rewrite normalize_length, length_fmap.
    now apply Forall_cons in Hall as [Hc _].
  - constructor.
  - apply Forall_cons in Hall as [Hc Hall].
    apply Forall_cons in Hall as Hall'. destruct Hall' as [Hc1 Hall'].
    rewrite paired_columns_cons2. destruct (feq _ _).
    + constructor.
      * unfold Eigen.size. now rewrite normalize_length, length_fmap.
      * apply IH; [cbn [length]; lia | assumption].
    + unfold Eigen.size in *. constructor; [|constructor].
      * rewrite normalize_length, length_zip_with. lia.
      * rewrite normalize_length, length_zip_with. lia.
      * apply IH; [cbn [length]; lia | assumption].
Qed.
End BlockFacts.

Section ShapeFacts.
Context {A : Type}.

Lemma shaped_cols_nonneg (m : Eigen.DenseMatrix A) (r c : Index) :
  shaped r c m -> 0 <= c.
Proof. intros (_ & <- & _). unfold Eigen.cols, Eigen.size. lia. Qed.
End ShapeFacts.

Section RealEigenFacts.
Context {R : Type} `{ScalarOps R} `{!RealSchur R} `{!Eigen.Uninit (Complex R)}.
Import UpperHessenbergEigen.

(** The [while] loop of [compute] from index [i] on, the entries before it
    being written: on an [n] x [n] matrix it reads and writes in range and
    ends, and what it writes is a real entry or a pair of conjugates. *)
Lemma eigenvalue_loop_blocks (n : Index) (T : Eigen.DenseMatrix R) (fuel : nat) :
  shaped n n T ->
  forall (i : nat) (written rest : list (Complex R)),
    length written = i -> Z.of_nat (i + length rest) = n ->
    conjugate_blocks written ->
    (length rest < fuel)%nat ->
    exists ev : list (Complex R),
      eigenvalue_loop fuel n T (Z.of_nat i) (written ++ rest) = Ok ev
      /\ conjugate_blocks ev /\ Eigen.size ev = n.
Proof.
  intros Hshape. induction fuel as [|fuel IH];
    intros i written rest Hi Hn Hblocks Hfuel; [lia|].
  cbn [eigenvalue_loop].
  destruct (Z.ltb_spec (Z.of_nat i) n) as [Hlt|Hge].
  2:{ exists (written ++ rest). split; [reflexivity|].
      destruct rest; [|cbn [length] in Hn; lia].
      rewrite app_nil_r. split; [assumption|].
      unfold Eigen.size. cbn [length] in Hn. lia. }
  destruct rest as [|x0 rest]; [cbn [length] in Hn; lia|].
  cbn [length] in Hn, Hfuel.
  unfold eigenvalue_block.
  destruct (mcoeff_in_shape T n n (Z.of_nat i) (Z.of_nat i) Hshape)
    as (tii & Htii & _); [lia | lia |].
  destruct (Z.eqb_spec (Z.of_nat i) (n - 1)) as [Hlast|Hmore].
  { (* the last diagonal entry *)
    cbn [rbind]. rewrite Htii. cbn [rbind].
    rewrite set_coeff_after by (lia || discriminate).
    cbn [rbind drop].
    replace (Z.of_nat i + 1) with (Z.of_nat (S i)) by lia.
    apply IH; try lia.
    - rewrite length_app. cbn [length]. lia.
    - rewrite drop_0. lia.
    - apply conjugate_blocks_app; [assumption | repeat constructor].
    - rewrite drop_0. lia. }
  destruct (mcoeff_in_shape T n n (Z.of_nat i + 1) (Z.of_nat i) Hshape)
    as (sub & Hsub & _); [lia | lia |].
  rewrite Hsub. cbn [rbind].
  destruct (feq sub (of_Z 0)).
  { cbn [rbind]. rewrite Htii. cbn [rbind].
    rewrite set_coeff_after by (lia || discriminate).
    cbn [rbind drop].
    replace (Z.of_nat i + 1) with (Z.of_nat (S i)) by lia.
    apply IH; try lia.
    - rewrite length_app. cbn [length]. lia.
    - rewrite drop_0. lia.
    - apply conjugate_blocks_app; [assumption | repeat constructor].
    - rewrite drop_0. lia. }
  (* a 2 x 2 block *)
  destruct rest as [|x1 rest]; [cbn [length] in Hn; lia|].
  cbn [length] in Hn, Hfuel.
  destruct (mcoeff_in_shape T n n (Z.of_nat i + 1) (Z.of_nat i + 1) Hshape)
    as (tjj & Htjj & _); [lia | lia |].
  destruct (mcoeff_in_shape T n n (Z.of_nat i) (Z.of_nat i + 1) Hshape)
    as (t1 & Ht1 & _); [lia | lia |].
  rewrite Htii, Htjj, Ht1. cbn [rbind].
  rewrite set_coeff_after by (lia || discriminate).
  cbn [rbind drop]. rewrite ?drop_0.
  match goal with
  | |- context [Eigen.set_coeff ((written ++ [?a]) ++ x1 :: rest) _ ?b] =>
      set (first := a); set (second := b)
  end.
  rewrite set_coeff_after
    by (discriminate || (rewrite length_app; cbn [length]; lia)).
  cbn [rbind drop]. rewrite ?drop_0.
  replace (Z.of_nat i + 2) with (Z.of_nat (S (S i))) by lia.
  apply IH; try lia.
  - rewrite !length_app. cbn [length]. lia.
  - rewrite <- !app_assoc. cbn [app].
    apply conjugate_blocks_app; [assumption|].
    subst first second. repeat constructor.
Qed.

(** [compute] once its loop over the diagonal blocks has produced the
    eigenvalues [ev]. *)
Lemma compute_real_run
    (doCE : list (Complex R) -> Eigen.DenseMatrix R -> Eigen.DenseMatrix R ->
            Eigen.DenseMatrix R * Eigen.DenseMatrix R)
    (mat : Eigen.DenseMatrix R) (s : t) (scale : R) (T U : Eigen.DenseMatrix R)
    (ev : list (Complex R)) :
  Eigen.rows mat = Eigen.cols mat ->
  scale_of mat = Ok scale ->
  schur_compute (Eigen.div_scalar mat scale) = Ok (T, U) ->
  eigenvalue_loop (S (Z.to_nat (Eigen.rows mat))) (Eigen.rows mat) T 0
    (replicate (Z.to_nat (Eigen.rows mat)) Eigen.indeterminate) = Ok ev ->
  compute doCE mat s =
    (Ok tt, mkT (Eigen.rows mat) (doCE ev T U).1 (doCE ev T U).2
                (scale_back scale ev) true).
Proof.
  intros Hsq Hscale Hschur Hloop.
  unfold compute. rewrite Hsq, Z.eqb_refl. cbn [negb].
  unfold bind, modify, lift, gets. rewrite <- Hsq, Hscale, Hschur.
  cbn [m_n set_n set_schur]. rewrite Hloop.
  cbn [m_eivalues m_matT m_eivec set_eivalues set_schur set_n].
  destruct (doCE ev T U) as [T' V']. reflexivity.
Qed.

(** X12.  The real-scalar [compute] on a square matrix that has a largest
    absolute entry, when the Schur reduction returns an [n] x [n] factor
    [T]: the loop over the diagonal blocks of [T] stays inside [T] and
    inside the vector of eigenvalues, and [compute] returns with the flag
    set and [m_n = n].  The [n] eigenvalues it stores are, before the final
    scaling, real entries [(d, 0)] and pairs [(a, z)], [(a, -z)] at
    consecutive positions; the two matrices are those
    [doComputeEigenvectors] made from these eigenvalues and the Schur
    factors. *)
Theorem compute_real_stores_conjugate_blocks
    (doCE : list (Complex R) -> Eigen.DenseMatrix R -> Eigen.DenseMatrix R ->
            Eigen.DenseMatrix R * Eigen.DenseMatrix R)
    (mat : Eigen.DenseMatrix R) (s : t) (scale : R) (T U : Eigen.DenseMatrix R) :
  Eigen.rows mat = Eigen.cols mat ->
  scale_of mat = Ok scale ->
  schur_compute (Eigen.div_scalar mat scale) = Ok (T, U) ->
  shaped (Eigen.rows mat) (Eigen.rows mat) T ->
  exists ev : list (Complex R),
    conjugate_blocks ev
    /\ Eigen.size ev = Eigen.rows mat
    /\ compute doCE mat s =
         (Ok tt, mkT (Eigen.rows mat) (doCE ev T U).1 (doCE ev T U).2
                     (scale_back scale ev) true).
Proof.
  intros Hsq Hscale Hschur Hshape.
  assert (0 <= Eigen.rows mat) as Hn.
  { destruct Hshape as (_ & <- & _). unfold Eigen.cols, Eigen.size. lia. }
  destruct (eigenvalue_loop_blocks (Eigen.rows mat) T (S (Z.to_nat (Eigen.rows mat)))
              Hshape 0 [] (replicate (Z.to_nat (Eigen.rows mat)) Eigen.indeterminate))
    as (ev & Hloop & Hblocks & Hsize);
    [reflexivity | rewrite length_replicate; lia | constructor
    | rewrite length_replicate; lia |].
  cbn [app] in Hloop. change (Z.of_nat 0) with 0 in Hloop.
  exists ev. split; [assumption|]. split; [assumption|].
  now apply compute_real_run.
Qed.



(** The loop of [eigenvectors()] from column [j] on, the columns before it
    being written. *)
Lemma eigenvector_loop_pairs (V : Eigen.DenseMatrix R) (ev : list (Complex R))
    (pad : list (list (Complex R))) (r : Index) (fuel : nat) :
  Eigen.cols V <= Eigen.size ev ->
  length pad = length (Eigen.columns V) ->
  forall (j : nat) (written : list (list (Complex R))),
    (j <= length pad)%nat -> length written = j ->
    (length pad - j < fuel)%nat ->
    eigenvector_loop fuel (Eigen.cols V) V ev (Z.of_nat j)
      (Eigen.mkMatrix r (written ++ drop j pad))
    = Ok (Eigen.mkMatrix r
            (written ++ paired_columns (drop j ev) (drop j (Eigen.columns V)))).
Proof.
  intros Hev Hpad. unfold Eigen.cols, Eigen.size in *.
  induction fuel as [|fuel IH]; intros j written Hj Hw Hfuel; [lia|].
  cbn [eigenvector_loop].
  destruct (Z.ltb_spec (Z.of_nat j) (Z.of_nat (length (Eigen.columns V))))
    as [Hlt|Hge].
  2:{ rewrite (drop_ge pad), (drop_ge (Eigen.columns V)) by lia.
      now rewrite paired_columns_nil_r. }
  destruct (lookup_lt_is_Some_2 ev j) as [v Hv]; [lia|].
  destruct (lookup_lt_is_Some_2 (Eigen.columns V) j) as [c Hc]; [lia|].
  rewrite (drop_S _ _ _ Hv), (drop_S _ _ _ Hc).
  unfold eigenvector_block.
  rewrite (coeff_in_range ev (Z.of_nat j) v)
    by (rewrite ?Nat2Z.id; [lia || assumption ..]).
  cbn [rbind]. unfold Eigen.col.
  rewrite (coeff_in_range _ (Z.of_nat j) c)
    by (rewrite ?Nat2Z.id; [lia || assumption ..]).
  cbn [rbind].
  destruct (Z.eqb_spec (Z.of_nat j + 1) (Z.of_nat (length (Eigen.columns V))))
    as [Hlast|Hmore].
  { (* the last column *)
    rewrite orb_true_r. unfold Eigen.set_col. cbn [Eigen.columns Eigen.rows].
    rewrite set_coeff_after by (lia || (apply drop_nonempty; lia)).
    cbn [rbind]. rewrite drop_drop.
    replace (Z.of_nat j + 1) with (Z.of_nat (j + 1)) by lia.
    rewrite IH by (rewrite ?length_app; cbn [length]; lia).
    rewrite (drop_ge (Eigen.columns V) (S j)) by lia.
    rewrite (drop_ge (Eigen.columns V) (j + 1)) by lia.
    cbn [paired_columns]. rewrite app_nil_r. reflexivity. }
  destruct (lookup_lt_is_Some_2 (Eigen.columns V) (S j)) as [c1 Hc1]; [lia|].
  rewrite (drop_S _ _ _ Hc1), paired_columns_cons2.
  rewrite orb_false_r.
  destruct (feq (imag v) (of_Z 0)).
  { unfold Eigen.set_col. cbn [Eigen.columns Eigen.rows].
    rewrite set_coeff_after by (lia || (apply drop_nonempty; lia)).
    cbn [rbind]. rewrite drop_drop.
    replace (Z.of_nat j + 1) with (Z.of_nat (j + 1)) by lia.
    rewrite IH by (rewrite ?length_app; cbn [length]; lia).
    replace (j + 1)%nat with (S j) by lia.
    rewrite (drop_S _ _ _ Hc1), <- app_assoc. reflexivity. }
  (* a pair of columns *)
  rewrite (coeff_in_range _ (Z.of_nat j + 1) c1)
    by (replace (Z.to_nat (Z.of_nat j + 1)) with (S j) by lia; [lia || assumption ..]).
  cbn [rbind Eigen.columns].
  destruct (lookup_lt_is_Some_2 (written ++ drop j pad) j) as [p0 Hp0];
    [rewrite length_app, length_drop; lia|].
  destruct (lookup_lt_is_Some_2 (written ++ drop j pad) (S j)) as [p1 Hp1];
    [rewrite length_app, length_drop; lia|].
  rewrite (coeff_in_range _ (Z.of_nat j) p0)
    by (rewrite ?Nat2Z.id; [lia || assumption ..]).
  rewrite (coeff_in_range _ (Z.of_nat j + 1) p1)
    by (replace (Z.to_nat (Z.of_nat j + 1)) with (S j) by lia; [lia || assumption ..]).
  cbn [rbind]. unfold Eigen.set_col. cbn [Eigen.columns Eigen.rows].
  rewrite set_coeff_after by (lia || (apply drop_nonempty; lia)).
  cbn [rbind Eigen.columns Eigen.rows]. rewrite drop_drop.
  match goal with
  | |- context [Eigen.set_coeff ((written ++ [?a]) ++ _) _ ?b] =>
      set (first := a); set (second := b)
  end.
  rewrite set_coeff_after
    by ((apply drop_nonempty; lia) || (rewrite length_app; cbn [length]; lia)).
  cbn [rbind]. rewrite drop_drop.
  replace (Z.of_nat j + 1 + 1) with (Z.of_nat (j + 1 + 1)) by lia.
  rewrite IH by (rewrite ?length_app; cbn [length]; lia).
  rewrite tail_drop.
  replace (j + 1 + 1)%nat with (S (S j)) by lia.
  rewrite <- !app_assoc. reflexivity.
Qed.

(** [eigenvectors()] on a computed object with an eigenvalue for each
    column of [m_eivec]. *)
Lemma eigenvectors_real_run (s : t) :
  m_computed s = true ->
  Eigen.cols (m_eivec s) <= Eigen.size (m_eivalues s) ->
  eigenvectors s =
    (Ok (Eigen.mkMatrix (Eigen.cols (m_eivec s))
           (paired_columns (m_eivalues s) (Eigen.columns (m_eivec s)))), s).
Proof.
  intros Hcomputed Hev. set (n := Eigen.cols (m_eivec s)) in *.
  unfold eigenvectors, bind, gets, get, lift. rewrite Hcomputed. cbn [negb].
  fold n. unfold Eigen.constant.
  pose proof (eigenvector_loop_pairs (m_eivec s) (m_eivalues s)
                (replicate (Z.to_nat n) (replicate (Z.to_nat n) Eigen.indeterminate))
                n (S (Z.to_nat n)) Hev) as Hloop.
  rewrite length_replicate in Hloop.
  specialize (Hloop ltac:(unfold n, Eigen.cols, Eigen.size; lia) 0%nat []
                ltac:(lia) eq_refl ltac:(lia)).
  cbn [app] in Hloop. rewrite !drop_0 in Hloop.
  change (Z.of_nat 0) with 0 in Hloop. fold n in Hloop. now rewrite Hloop.
Qed.

(** The columns [eigenvectors()] builds from an [n] x [n] matrix make an
    [n] x [n] matrix. *)
Lemma paired_columns_shaped (V : Eigen.DenseMatrix R) (ev : list (Complex R))
    (n : Index) :
  shaped n n V -> n <= Eigen.size ev ->
  shaped n n (Eigen.mkMatrix n (paired_columns ev (Eigen.columns V))).
Proof.
  intros (_ & Hc & Hall) Hev. split; [reflexivity|]. split.
  - unfold Eigen.cols, Eigen.size in *. cbn [Eigen.columns].
    rewrite paired_columns_length; [exact Hc | lia].
  - now apply paired_columns_rows.
Qed.

(** X13.  The real-scalar [eigenvectors()] on a computed object that holds
    an [n] x [n] matrix of real columns and at least [n] eigenvalues: the
    guard [j + 1 == n] keeps the read of column [j + 1] inside the matrix,
    the call returns and leaves the object as it is, and the result is the
    [n] x [n] matrix of the columns [paired_columns] describes (a column
    for a real eigenvalue or for the last position, two conjugate columns
    for any other), each normalized. *)
Theorem eigenvectors_real_pairs_columns (s : t) :
  m_computed s = true ->
  let n := Eigen.cols (m_eivec s) in
  shaped n n (m_eivec s) ->
  n <= Eigen.size (m_eivalues s) ->
  let matV := Eigen.mkMatrix n
                (paired_columns (m_eivalues s) (Eigen.columns (m_eivec s))) in
  eigenvectors s = (Ok matV, s) /\ shaped n n matV.
Proof.
  intros Hcomputed n Hshape Hev matV. split.
  - now apply eigenvectors_real_run.
  - now apply paired_columns_shaped.
Qed.
End RealEigenFacts.

(** ** UpperHessenbergEigen (complex): a decomposition that fails *)

Section ComplexFailure.
Context {R : Type} `{ScalarOps R} `{!ComplexSchur R}.
Import UpperHessenbergEigenComplex.

(** X14.  The complex-scalar [compute] on a square matrix whose Schur
    reduction does not report success: it throws [std::runtime_error]
    after it has overwritten [m_eivec] by the identity and replaced the
    Schur object, and it leaves the eigenvalues and the flag as they were.
    On an object that had been computed before, the queries therefore
    still answer: [eigenvalues()] with the eigenvalues of the earlier
    matrix, [eigenvectors()] with the identity. *)
Theorem compute_complex_failure_leaves_stale_answers
    (doCE : R -> ComplexSchurSolver -> list (Complex R) -> Eigen.DenseMatrix (Complex R))
    (mat : Eigen.DenseMatrix (Complex R)) (s : t) :
  Eigen.rows mat = Eigen.cols mat ->
  let id := Eigen.identity (of_real (of_Z 0)) (of_real (of_Z 1))
              (Eigen.rows mat) (Eigen.cols mat) in
  let sc := computeFromHessenberg (m_schur s) mat id true in
  schur_success sc = false ->
  let s' := set_schur sc (set_eivec id s) in
  compute doCE mat s =
    (Throw (runtime_error "UpperHessenbergEigen: eigen decomposition failed"), s')
  /\ m_eivalues s' = m_eivalues s
  /\ m_computed s' = m_computed s
  /\ (m_computed s = true ->
      eigenvalues s' = (Ok (m_eivalues s), s') /\ eigenvectors s' = (Ok id, s')).
Proof.
  intros Hsq id sc Hfail s'. split.
  - subst s' sc id. unfold compute.
    destruct (Z.eqb_spec (Eigen.rows mat) (Eigen.cols mat)); [|contradiction].
    cbn [negb]. unfold bind, modify, gets, throw.
    cbn [m_schur m_eivec set_eivec set_schur]. rewrite Hfail. reflexivity.
  - split; [reflexivity|]. split; [reflexivity|].
    intros Hc. subst s'. unfold eigenvalues, eigenvectors, bind, gets.
    cbn [m_computed set_schur set_eivec]. rewrite Hc. split; reflexivity.
Qed.
End ComplexFailure.

(** ** UpperHessenbergEigen (complex): the eigenvectors of the Schur form *)

Section MatrixFacts.
Context {A : Type}.
Implicit Types (m : Eigen.DenseMatrix A).

Lemma shaped_constant (r c : Index) (x : A) :
  0 <= r -> 0 <= c -> shaped r c (Eigen.constant r c x).
Proof.
  intros Hr Hc. unfold shaped, Eigen.constant, Eigen.cols, Eigen.size.
  cbn [Eigen.rows Eigen.columns]. rewrite length_replicate.
  split; [reflexivity|]. split; [lia|].
  apply Forall_replicate. rewrite length_replicate. lia.
Qed.

Lemma shaped_column m (r c : Index) (j : nat) (col : list A) :
  shaped r c m -> Eigen.columns m !! j = Some col -> Eigen.size col = r.
Proof.
  intros (_ & _ & Hall) Hcol. rewrite Forall_forall in Hall.
  eapply Hall, list_elem_of_lookup_2, Hcol.
Qed.

Lemma shaped_insert m (r c : Index) (j : nat) (col : list A) :
  shaped r c m -> Eigen.size col = r ->
  shaped r c (Eigen.mkMatrix r (<[j := col]> (Eigen.columns m))).
Proof.
  intros (_ & Hc & Hall) Hcol. unfold shaped, Eigen.cols, Eigen.size in *.
  cbn [Eigen.rows Eigen.columns]. rewrite length_insert.
  split; [reflexivity|]. split; [assumption|]. now apply Forall_insert.
Qed.

Lemma mcoeff_at m (i j : nat) (col : list A) (x : A) :
  Eigen.columns m !! j = Some col -> col !! i = Some x ->
  Eigen.mcoeff m (Z.of_nat i) (Z.of_nat j) = Ok x.
Proof.
  intros Hcol Hx. unfold Eigen.mcoeff, Eigen.col.
  rewrite (coeff_in_range _ _ col) by (rewrite ?Nat2Z.id; [lia || assumption ..]).
  cbn [rbind]. apply coeff_in_range; rewrite ?Nat2Z.id; [lia | assumption].
Qed.

(** Writing one coefficient of an [r] x [c] matrix. *)
Lemma set_mcoeff_in_shape m (r c : Index) (i j : nat) (x : A) (col : list A) :
  shaped r c m -> Z.of_nat i < r ->
  Eigen.columns m !! j = Some col ->
  Eigen.set_mcoeff m (Z.of_nat i) (Z.of_nat j) x
    = Ok (Eigen.mkMatrix r (<[j := <[i := x]> col]> (Eigen.columns m))).
Proof.
  intros Hshape Hi Hcol.
  pose proof (shaped_column _ _ _ _ _ Hshape Hcol) as Hlen.
  apply lookup_lt_Some in Hcol as Hj.
  unfold Eigen.set_mcoeff, Eigen.col, Eigen.set_col.
  rewrite (coeff_in_range _ _ col) by (rewrite ?Nat2Z.id; [lia || assumption ..]).
  cbn [rbind]. rewrite set_coeff_in_range by lia. cbn [rbind].
  rewrite set_coeff_in_range by (unfold Eigen.size; lia). cbn [rbind].
  rewrite !Nat2Z.id. destruct Hshape as (-> & _). reflexivity.
Qed.

(** A loop that collects one coefficient per index. *)
Lemma collect_total (f : Index -> result A) (n : nat) :
  forall (start : Index) (seg0 : list A),
    (forall l : Index, start <= l < start + Z.of_nat n -> exists x : A, f l = Ok x) ->
    exists seg : list A,
      rfold (fun seg l => let+ x := f l in Ok (seg ++ [x]))
            (seqZ start (Z.of_nat n)) seg0 = Ok seg
      /\ length seg = (length seg0 + n)%nat.
Proof.
  induction n as [|n IH]; intros start seg0 Hf.
  - exists seg0. split; [reflexivity | lia].
  - rewrite seqZ_cons by lia. cbn [rfold].
    destruct (Hf start) as [x Hx]; [lia|]. rewrite Hx. cbn [rbind].
    replace (Z.pred (Z.of_nat (S n))) with (Z.of_nat n) by lia.
    destruct (IH (Z.succ start) (seg0 ++ [x])) as (seg & Hseg & Hlen).
    + intros l Hl. apply Hf. lia.
    + exists seg. split; [assumption|].
      rewrite Hlen, length_app. cbn [length]. lia.
Qed.

Lemma row_segment_in_shape m (r c i start len : Index) :
  shaped r c m -> 0 <= i < r -> 0 <= start -> start + len <= c ->
  exists seg : list A, row_segment m i start len = Ok seg.
Proof.
  intros Hshape Hi Hs Hlen. unfold row_segment.
  destruct (Z.le_gt_cases len 0) as [Hle|Hgt].
  { rewrite seqZ_nil by assumption. now exists []. }
  destruct (collect_total (fun l => Eigen.mcoeff m i l) (Z.to_nat len) start [])
    as (seg & Hseg & _); [|rewrite Z2Nat.id in Hseg by lia; eauto].
  intros l Hl. destruct (mcoeff_in_shape m r c i l Hshape) as (x & Hx & _);
    [lia | lia | eauto].
Qed.

Lemma col_segment_in_shape m (r c j start len : Index) :
  shaped r c m -> 0 <= j < c -> 0 <= start -> start + len <= r ->
  exists seg : list A,
    col_segment m j start len = Ok seg
    /\ length seg = Z.to_nat len.
Proof.
  intros Hshape Hj Hs Hlen. unfold col_segment.
  destruct (Z.le_gt_cases len 0) as [Hle|Hgt].
  { rewrite seqZ_nil by assumption. exists []. split; [reflexivity | cbn; lia]. }
  destruct (collect_total (fun l => Eigen.mcoeff m l j) (Z.to_nat len) start [])
    as (seg & Hseg & Hl); [|rewrite Z2Nat.id in Hseg by lia; eauto].
  intros l Hl. destruct (mcoeff_in_shape m r c l j Hshape) as (x & Hx & _);
    [lia | lia | eauto].
Qed.

Lemma diagonal_in_shape m (n : Index) :
  shaped n n m ->
  exists d : list A, Eigen.diagonal m = Ok d /\ Eigen.size d = n.
Proof.
  intros Hshape. assert (0 <= n) as Hn.
  { destruct Hshape as (_ & <- & _). unfold Eigen.cols, Eigen.size. lia. }
  unfold Eigen.diagonal. destruct Hshape as (Hr & Hc & Hall) eqn:E. clear E.
  rewrite Hr, Hc, Z.min_id.
  destruct (collect_total (fun i => Eigen.mcoeff m i i) (Z.to_nat n) 0 [])
    as (d & Hd & Hlen).
  - intros l Hl.
    destruct (mcoeff_in_shape m n n l l) as (x & Hx & _);
      [repeat split; assumption | lia | lia |]. eauto.
  - rewrite Z2Nat.id in Hd by lia.
    exists d. split; [exact Hd|]. unfold Eigen.size. cbn [length] in Hlen. lia.
Qed.
End MatrixFacts.

Section TriangularSolve.
Context {R : Type} `{ScalarOps R} `{!TypeTraits R} `{!ComplexArith R}
        `{!ComplexSchur R}.
Import ComplexEigenvectors.

Abbreviation CMatrix := (Eigen.DenseMatrix (Complex R)).

(** One turn of the loop over [i] writes the entry [(i, k)] and nothing
    else, and reads inside [T] and [X]. *)
Lemma solve_entry_writes_one_entry (T X : CMatrix) (matrixnorm : R) (n : Index)
    (k i : nat) (c : list (Complex R)) :
  shaped n n T -> shaped n n X -> (i < k)%nat -> Z.of_nat k < n ->
  Eigen.columns X !! k = Some c ->
  exists v : Complex R,
    solve_entry T matrixnorm (Z.of_nat k) X (Z.of_nat i)
      = Ok (Eigen.mkMatrix n (<[k := <[i := v]> c]> (Eigen.columns X))).
Proof.
  intros HT HX Hik Hk Hc.
  pose proof (shaped_column _ _ _ _ _ HX Hc) as Hlen. unfold Eigen.size in Hlen.
  apply lookup_lt_Some in Hc as Hkc.
  assert (forall (a : Complex R),
            let Xa := Eigen.mkMatrix n (<[k := <[i := a]> c]> (Eigen.columns X)) in
            shaped n n Xa
            /\ Eigen.mcoeff Xa (Z.of_nat i) (Z.of_nat k) = Ok a
            /\ forall b : Complex R,
                 Eigen.set_mcoeff Xa (Z.of_nat i) (Z.of_nat k) b
                   = Ok (Eigen.mkMatrix n (<[k := <[i := b]> c]> (Eigen.columns X))))
    as Hstep.
  { intros a Xa.
    assert (shaped n n Xa) as HXa
      by (apply shaped_insert; [assumption | unfold Eigen.size; rewrite length_insert; lia]).
    assert (Eigen.columns Xa !! k = Some (<[i := a]> c)) as Hca
      by (apply list_lookup_insert_eq; lia).
    split; [assumption|]. split.
    - apply (mcoeff_at Xa i k _ a Hca). apply list_lookup_insert_eq. lia.
    - intros b. rewrite (set_mcoeff_in_shape Xa n n i k b _ HXa ltac:(lia) Hca).
      subst Xa. cbn [Eigen.columns].
      now rewrite !list_insert_insert_eq. }
  unfold solve_entry.
  destruct (mcoeff_in_shape T n n (Z.of_nat i) (Z.of_nat k) HT) as (tik & -> & _);
    [lia | lia |].
  cbn [rbind].
  rewrite (set_mcoeff_in_shape X n n i k _ c HX ltac:(lia) Hc). cbn [rbind].
  destruct (Hstep (cneg tik)) as (HX1 & Hread1 & Hwrite1).
  assert (exists v2 : Complex R,
            (if Z.of_nat k - Z.of_nat i - 1 >? 0
             then
               let+ r := row_segment T (Z.of_nat i) (Z.of_nat i + 1)
                           (Z.of_nat k - Z.of_nat i - 1) in
               let+ c0 := col_segment
                            (Eigen.mkMatrix n (<[k := <[i := cneg tik]> c]> (Eigen.columns X)))
                            (Z.of_nat k) (Z.of_nat i + 1)
                            (Z.of_nat k - Z.of_nat i - 1) in
               let+ xik := Eigen.mcoeff
                             (Eigen.mkMatrix n (<[k := <[i := cneg tik]> c]> (Eigen.columns X)))
                             (Z.of_nat i) (Z.of_nat k) in
               Eigen.set_mcoeff
                 (Eigen.mkMatrix n (<[k := <[i := cneg tik]> c]> (Eigen.columns X)))
                 (Z.of_nat i) (Z.of_nat k) (csub xik (inner r c0))
             else Ok (Eigen.mkMatrix n (<[k := <[i := cneg tik]> c]> (Eigen.columns X))))
            = Ok (Eigen.mkMatrix n (<[k := <[i := v2]> c]> (Eigen.columns X))))
    as (v2 & ->).
  { destruct (Z.of_nat k - Z.of_nat i - 1 >? 0); [|eauto].
    destruct (row_segment_in_shape T n n (Z.of_nat i) (Z.of_nat i + 1)
                (Z.of_nat k - Z.of_nat i - 1) HT) as (r & ->); [lia | lia | lia |].
    destruct (col_segment_in_shape _ n n (Z.of_nat k) (Z.of_nat i + 1)
                (Z.of_nat k - Z.of_nat i - 1) HX1) as (c0 & -> & _); [lia | lia | lia |].
    cbn [rbind]. rewrite Hread1. cbn [rbind]. rewrite Hwrite1. eauto. }
  cbn [rbind].
  destruct (mcoeff_in_shape T n n (Z.of_nat i) (Z.of_nat i) HT) as (tii & -> & _);
    [lia | lia |].
  destruct (mcoeff_in_shape T n n (Z.of_nat k) (Z.of_nat k) HT) as (tkk & -> & _);
    [lia | lia |].
  cbn [rbind].
  destruct (Hstep v2) as (_ & Hread2 & Hwrite2).
  rewrite Hread2. cbn [rbind]. rewrite Hwrite2. eauto.
Qed.

Lemma reverse_seqZ_S (m : nat) :
  reverse (seqZ 0 (Z.of_nat (S m))) = Z.of_nat m :: reverse (seqZ 0 (Z.of_nat m)).
Proof. now rewrite seqZ_S, reverse_app, Z.add_0_l. Qed.

(** The loop over [i] from [m - 1] down to 0 writes the entries above row
    [m] of column [k]. *)
Lemma solve_entries_write_above (T : CMatrix) (matrixnorm : R) (n : Index)
    (k : nat) (m : nat) :
  shaped n n T -> Z.of_nat k < n -> (m <= k)%nat ->
  forall (X : CMatrix) (c : list (Complex R)),
    shaped n n X -> Eigen.columns X !! k = Some c ->
    exists c' : list (Complex R),
      rfold (solve_entry T matrixnorm (Z.of_nat k))
            (reverse (seqZ 0 (Z.of_nat m))) X
        = Ok (Eigen.mkMatrix n (<[k := c']> (Eigen.columns X)))
      /\ length c' = length c /\ drop m c' = drop m c.
Proof.
  intros HT Hk. induction m as [|m IH]; intros Hm X c HX Hc.
  - exists c. cbn [seqZ rfold reverse]. split; [|now split].
    rewrite list_insert_id by assumption.
    destruct X as [r cs]. destruct HX as (Hr & _). cbn in Hr. now subst r.
  - rewrite reverse_seqZ_S. cbn [rfold].
    destruct (solve_entry_writes_one_entry T X matrixnorm n k m c HT HX
                ltac:(lia) Hk Hc) as (v & ->).
    cbn [rbind].
    pose proof (shaped_column _ _ _ _ _ HX Hc) as Hlen. unfold Eigen.size in Hlen.
    apply lookup_lt_Some in Hc as Hkc.
    destruct (IH ltac:(lia) (Eigen.mkMatrix n (<[k := <[m := v]> c]> (Eigen.columns X)))
                (<[m := v]> c)) as (c' & Hrun & Hlen' & Hdrop).
    + apply shaped_insert; [assumption|]. unfold Eigen.size. rewrite length_insert. lia.
    + apply list_lookup_insert_eq. lia.
    + exists c'. rewrite Hrun. cbn [Eigen.columns].
      rewrite list_insert_insert_eq. split; [reflexivity|].
      rewrite length_insert in Hlen'. split; [assumption|].
      apply (f_equal (drop 1)) in Hdrop. rewrite !drop_drop in Hdrop.
      replace (m + 1)%nat with (S m) in Hdrop by lia.
      rewrite Hdrop. apply drop_insert_lt. lia.
Qed.

(** One turn of the loop over [k] writes column [k] from its diagonal
    entry upwards: the diagonal entry is 1, the entries below it are left
    alone. *)
Lemma solve_column_fills_column (T : CMatrix) (matrixnorm : R) (n : Index)
    (k : nat) (X : CMatrix) (c : list (Complex R)) :
  shaped n n T -> shaped n n X -> Z.of_nat k < n ->
  Eigen.columns X !! k = Some c ->
  exists c' : list (Complex R),
    solve_column T matrixnorm X (Z.of_nat k)
      = Ok (Eigen.mkMatrix n (<[k := c']> (Eigen.columns X)))
    /\ length c' = length c
    /\ c' !! k = Some (mkComplex (of_Z 1) (of_Z 0))
    /\ drop (S k) c' = drop (S k) c.
Proof.
  intros HT HX Hk Hc. unfold solve_column.
  pose proof (shaped_column _ _ _ _ _ HX Hc) as Hlen. unfold Eigen.size in Hlen.
  apply lookup_lt_Some in Hc as Hkc.
  rewrite (set_mcoeff_in_shape X n n k k _ c HX ltac:(lia) Hc). cbn [rbind].
  set (one := mkComplex (of_Z 1) (of_Z 0)).
  destruct (solve_entries_write_above T matrixnorm n k k HT Hk ltac:(lia)
              (Eigen.mkMatrix n (<[k := <[k := one]> c]> (Eigen.columns X)))
              (<[k := one]> c)) as (c' & Hrun & Hlen' & Hdrop).
  - apply shaped_insert; [assumption|]. unfold Eigen.size. rewrite length_insert. lia.
  - apply list_lookup_insert_eq. lia.
  - exists c'. rewrite Hrun. cbn [Eigen.columns].
    rewrite list_insert_insert_eq. split; [reflexivity|].
    rewrite length_insert in Hlen'. split; [assumption|]. split.
    + rewrite <- (Nat.add_0_r k) at 1. rewrite <- lookup_drop, Hdrop, lookup_drop.
      rewrite Nat.add_0_r. apply list_lookup_insert_eq. lia.
    + apply (f_equal (drop 1)) in Hdrop. rewrite !drop_drop in Hdrop.
      replace (k + 1)%nat with (S k) in Hdrop by lia.
      rewrite Hdrop. apply drop_insert_lt. lia.
Qed.

(** The loop over [k] from [m - 1] down to 0. *)
Lemma solve_columns_fill_columns (T : CMatrix) (matrixnorm : R) (n : Index) (m : nat) :
  shaped n n T -> Z.of_nat m <= n ->
  forall X : CMatrix,
    shaped n n X ->
    exists X' : CMatrix,
      rfold (solve_column T matrixnorm) (reverse (seqZ 0 (Z.of_nat m))) X = Ok X'
      /\ shaped n n X'
      /\ (forall j : nat, (m <= j)%nat ->
            Eigen.columns X' !! j = Eigen.columns X !! j)
      /\ (forall (j : nat) (c c' : list (Complex R)),
            (j < m)%nat ->
            Eigen.columns X !! j = Some c -> Eigen.columns X' !! j = Some c' ->
            c' !! j = Some (mkComplex (of_Z 1) (of_Z 0))
            /\ drop (S j) c' = drop (S j) c).
Proof.
  intros HT. induction m as [|m IH]; intros Hm X HX.
  - exists X. split; [reflexivity|]. split; [assumption|].
    split; [reflexivity|]. intros; lia.
  - rewrite reverse_seqZ_S. cbn [rfold].
    destruct (lookup_lt_is_Some_2 (Eigen.columns X) m) as [c Hc].
    { destruct HX as (_ & Hc & _). unfold Eigen.cols, Eigen.size in Hc. lia. }
    destruct (solve_column_fills_column T matrixnorm n m X c HT HX ltac:(lia) Hc)
      as (c1 & -> & Hlen1 & Hone & Hdrop1).
    cbn [rbind].
    pose proof (shaped_column _ _ _ _ _ HX Hc) as Hlen. unfold Eigen.size in Hlen.
    apply lookup_lt_Some in Hc as Hmc.
    destruct (IH ltac:(lia) (Eigen.mkMatrix n (<[m := c1]> (Eigen.columns X))))
      as (X' & Hrun & HX' & Hkeep & Hnew).
    { apply shaped_insert; [assumption | unfold Eigen.size; lia]. }
    exists X'. split; [assumption|]. split; [assumption|]. split.
    + intros j Hj. rewrite Hkeep by lia. cbn [Eigen.columns].
      apply list_lookup_insert_ne. lia.
    + intros j c0 c' Hj Hc0 Hc'.
      destruct (decide (j = m)) as [->|Hne].
      * rewrite Hkeep in Hc' by lia. cbn [Eigen.columns] in Hc'.
        rewrite list_lookup_insert_eq in Hc' by lia. injection Hc' as <-.
        rewrite Hc in Hc0. injection Hc0 as <-. now split.
      * apply (Hnew j c0 c'); [lia | | assumption].
        cbn [Eigen.columns]. rewrite list_lookup_insert_ne by lia. assumption.
Qed.

(** X15.  The triangular solve of the complex [doComputeEigenvectors] on
    an [n] x [n] Schur factor [T]: every read of [T] and every access to
    [X] is in range, the loops end, and the matrix [X] they build is unit
    upper triangular, as the source announces: ones on the diagonal, zeros
    below it, whatever the arithmetic does with the entries above. *)
Theorem triangular_solve_is_unit_upper_triangular (T : CMatrix) (matrixnorm : R)
    (n : Index) :
  shaped n n T ->
  exists X : CMatrix,
    triangular_solve T matrixnorm n = Ok X /\ unit_upper_triangular n X.
Proof.
  intros HT. assert (0 <= n) as Hn.
  { destruct HT as (_ & <- & _). unfold Eigen.cols, Eigen.size. lia. }
  unfold triangular_solve.
  destruct (solve_columns_fill_columns T matrixnorm n (Z.to_nat n) HT ltac:(lia)
              (Eigen.constant n n (of_real (of_Z 0))))
    as (X & Hrun & HX & _ & Hnew).
  { now apply shaped_constant. }
  rewrite Z2Nat.id in Hrun by lia.
  exists X. split; [assumption|]. split; [assumption|].
  intros k c Hc. apply lookup_lt_Some in Hc as Hk.
  assert (k < Z.to_nat n)%nat as Hkn.
  { destruct HX as (_ & HXc & _). unfold Eigen.cols, Eigen.size in HXc. lia. }
  destruct (Hnew k (replicate (Z.to_nat n) (of_real (of_Z 0))) c Hkn) as [Hone Hdrop];
    [|assumption|].
  { unfold Eigen.constant. cbn [Eigen.columns]. now apply lookup_replicate_2. }
  split; [assumption|].
  intros i x Hi Hx.
  assert (drop (S k) c !! (i - S k)%nat = Some x) as Hx'
    by (rewrite lookup_drop; replace (S k + (i - S k))%nat with i by lia; assumption).
  rewrite Hdrop, lookup_drop in Hx'. now apply lookup_replicate_1 in Hx' as [-> _].
Qed.
End TriangularSolve.

(** *** The product, the normalization and [compute] *)

(** A loop that appends one entry per index. *)
Lemma collect_loop {B : Type} (P : B -> Prop) (body : list B -> Index -> result (list B))
    (n : nat) :
  forall (start : Index) (acc : list B),
    (forall (acc : list B) (l : Index),
       start <= l < start + Z.of_nat n ->
       exists x : B, body acc l = Ok (acc ++ [x]) /\ P x) ->
    exists seg : list B,
      rfold body (seqZ start (Z.of_nat n)) acc = Ok (acc ++ seg)
      /\ length seg = n /\ Forall P seg.
Proof.
  induction n as [|n IH]; intros start acc Hbody.
  - exists []. rewrite app_nil_r. repeat split. constructor.
  - rewrite seqZ_cons by lia. cbn [rfold].
    destruct (Hbody acc start) as (x & Hx & HP); [lia|]. rewrite Hx. cbn [rbind].
    replace (Z.pred (Z.of_nat (S n))) with (Z.of_nat n) by lia.
    destruct (IH (Z.succ start) (acc ++ [x])) as (seg & Hseg & Hlen & Hall).
    + intros acc' l Hl. apply Hbody. lia.
    + exists (x :: seg). rewrite Hseg, <- app_assoc. cbn [app length].
      split; [reflexivity|]. split; [now rewrite Hlen | now constructor].
Qed.

Section ComplexVectors.
Context {R : Type} `{ScalarOps R} `{!TypeTraits R} `{!ComplexArith R}
        `{!ComplexSchur R}.
Import ComplexEigenvectors.

Abbreviation CMatrix := (Eigen.DenseMatrix (Complex R)).

(** The product of an [r] x [n] by an [n] x [c] matrix is evaluated inside
    both and is [r] x [c]. *)
Lemma mat_mul_in_shape (A B : CMatrix) (r n c : Index) :
  0 <= r -> shaped r n A -> shaped n c B ->
  exists V : CMatrix, mat_mul A B = Ok V /\ shaped r c V.
Proof.
  intros Hr HA HB. unfold mat_mul.
  assert (Eigen.rows A = r /\ Eigen.cols A = n) as [HAr HAc]
    by (destruct HA as (? & ? & _); now split).
  assert (Eigen.rows B = n /\ Eigen.cols B = c) as [HBr HBc]
    by (destruct HB as (? & ? & _); now split).
  assert (0 <= c) as Hc by (rewrite <- HBc; unfold Eigen.cols, Eigen.size; lia).
  assert (0 <= n) as Hn by (rewrite <- HAc; unfold Eigen.cols, Eigen.size; lia).
  rewrite HAc, HBr, Z.eqb_refl, HBc, HAr.
  destruct (collect_loop (fun col : list (Complex R) => Eigen.size col = r)
              (fun cs j =>
                 let+ b := col_segment B j 0 n in
                 let+ c :=
                   rfold (fun c i =>
                            let+ a := row_segment A i 0 n in
                            Ok (c ++ [inner a b]))
                         (seqZ 0 r) [] in
                 Ok (cs ++ [c]))
              (Z.to_nat c) 0 []) as (cs & Hcs & Hlen & Hall).
  - intros acc j Hj.
    destruct (col_segment_in_shape B n c j 0 n HB) as (b & -> & _); [lia | lia | lia |].
    cbn [rbind].
    destruct (collect_loop (fun _ : Complex R => True)
                (fun c i => let+ a := row_segment A i 0 n in Ok (c ++ [inner a b]))
                (Z.to_nat r) 0 []) as (col & Hcol & Hlen & _).
    + intros acc' i Hi.
      destruct (row_segment_in_shape A r n i 0 n HA) as (a & ->); [lia | lia | lia |].
      cbn [rbind]. eauto.
    + rewrite Z2Nat.id in Hcol by lia. rewrite Hcol. cbn [rbind app].
      exists col. split; [reflexivity|]. unfold Eigen.size. lia.
  - rewrite Z2Nat.id in Hcs by lia. rewrite Hcs. cbn [rbind app].
    eexists. split; [reflexivity|].
    unfold shaped, Eigen.cols, Eigen.size. cbn [Eigen.rows Eigen.columns].
    split; [reflexivity|]. split; [lia | assumption].
Qed.

(** The normalization loop normalizes each column of an [r] x [n] matrix
    and leaves its shape. *)
Lemma normalize_columns_in_shape (V : CMatrix) (r n : Index) :
  shaped r n V ->
  normalize_columns V n =
    Ok (Eigen.mkMatrix r (UpperHessenbergEigen.normalize <$> Eigen.columns V))
  /\ shaped r n (Eigen.mkMatrix r (UpperHessenbergEigen.normalize <$> Eigen.columns V)).
Proof.
  intros HV. destruct V as [r0 cs]. destruct HV as (Hr & Hc & Hall).
  cbn [Eigen.rows Eigen.columns] in *. unfold Eigen.cols, Eigen.size in Hc.
  cbn [Eigen.columns] in Hc. subst r0. split.
  - unfold normalize_columns. rewrite <- Hc.
    assert (forall m : nat, (m <= length cs)%nat ->
              rfold (fun V k =>
                       let+ c := Eigen.col V k in
                       Eigen.set_col V k (UpperHessenbergEigen.normalize c))
                    (seqZ 0 (Z.of_nat m)) (Eigen.mkMatrix r cs)
              = Ok (Eigen.mkMatrix r
                      ((UpperHessenbergEigen.normalize <$> take m cs) ++ drop m cs)))
      as Hloop.
    { induction m as [|m IH]; intros Hm.
      - now rewrite take_0, drop_0.
      - rewrite seqZ_S, rfold_app, IH by lia. cbn [rbind rfold]. rewrite Z.add_0_l.
        destruct (lookup_lt_is_Some_2 cs m) as [col Hcol]; [lia|].
        unfold Eigen.col, Eigen.set_col. cbn [Eigen.columns Eigen.rows].
        rewrite (coeff_in_range _ (Z.of_nat m) col).
        2: lia.
        2:{ rewrite Nat2Z.id, lookup_app_r by (rewrite length_fmap, length_take; lia).
            rewrite length_fmap, length_take, lookup_drop.
            replace (m + (m - m `min` length cs))%nat with m by lia. assumption. }
        cbn [rbind].
        rewrite set_coeff_after
          by ((apply drop_nonempty; lia)
              || (rewrite length_fmap, length_take; lia)).
        cbn [rbind]. rewrite drop_drop, (take_S_r cs m col Hcol), fmap_app.
        replace (m + 1)%nat with (S m) by lia. reflexivity. }
    rewrite Hloop by lia. now rewrite firstn_all, drop_all, app_nil_r.
  - unfold shaped, Eigen.cols, Eigen.size. cbn [Eigen.rows Eigen.columns].
    rewrite length_fmap. split; [reflexivity|]. split; [assumption|].
    apply Forall_fmap. eapply Forall_impl; [exact Hall|].
    intros col Hcol. cbv beta in *. unfold Eigen.size in *. cbn.
    now rewrite normalize_length.
Qed.

(** X16.  The complex [doComputeEigenvectors] on [n] eigenvalues and
    [n] x [n] Schur factors [T] and [U]: every access to [T], [U], [X] and
    [m_eivec] is in range and the function ends; the new [m_eivec] is the
    [n] x [n] matrix whose columns are the columns of the product [U X],
    each normalized. *)
Theorem doComputeEigenvectors_complex_stays_in_range (matrixnorm : R)
    (sc : ComplexSchurSolver) (eivalues : list (Complex R)) :
  let n := Eigen.size eivalues in
  shaped n n (matrixT sc) -> shaped n n (matrixU sc) ->
  exists X UX : CMatrix,
    triangular_solve (matrixT sc) (fmax matrixnorm TypeTraits_min) n = Ok X
    /\ mat_mul (matrixU sc) X = Ok UX
    /\ doComputeEigenvectors matrixnorm sc eivalues =
         Ok (Eigen.mkMatrix n (UpperHessenbergEigen.normalize <$> Eigen.columns UX))
    /\ shaped n n (eigenvectors_of matrixnorm sc eivalues).
Proof.
  intros n HT HU. assert (0 <= n) as Hn by (unfold n, Eigen.size; lia).
  destruct (solve_columns_fill_columns (matrixT sc) (fmax matrixnorm TypeTraits_min)
              n (Z.to_nat n) HT ltac:(lia) (Eigen.constant n n (of_real (of_Z 0))))
    as (X & Hsolve & HX & _); [now apply shaped_constant|].
  rewrite Z2Nat.id in Hsolve by lia.
  destruct (mat_mul_in_shape (matrixU sc) X n n n Hn HU HX) as (UX & Hmul & HUX).
  destruct (normalize_columns_in_shape UX n n HUX) as [Hnorm Hshape].
  assert (doComputeEigenvectors matrixnorm sc eivalues =
            Ok (Eigen.mkMatrix n (UpperHessenbergEigen.normalize <$> Eigen.columns UX)))
    as Hrun.
  { unfold doComputeEigenvectors. fold n. unfold triangular_solve.
    rewrite Hsolve. cbn [rbind]. rewrite Hmul. cbn [rbind]. exact Hnorm. }
  exists X, UX. split; [exact Hsolve|]. split; [exact Hmul|]. split; [exact Hrun|].
  unfold eigenvectors_of. now rewrite Hrun.
Qed.
End ComplexVectors.

Section ComplexCompute.
Context {R : Type} `{ScalarOps R} `{!TypeTraits R} `{!ComplexArith R}
        `{!ComplexSchur R} `{!LtStrictOrder R}.
Import UpperHessenbergEigenComplex.

(** [sortEigenvalues(true)] on the pairs (eigenvalue, column). *)
Lemma sortEigenvalues_on_pairs (ev : list (Complex R))
    (V : Eigen.DenseMatrix (Complex R)) :
  Eigen.cols V = Eigen.size ev ->
  exists z : list (Complex R * list (Complex R)),
    sortEigenvalues_on true ev V = Ok (z.*1, Eigen.mkMatrix (Eigen.rows V) z.*2)
    /\ Permutation z (zip ev (Eigen.columns V))
    /\ StronglySorted pair_mag_le z.
Proof.
  intros Hcols. destruct V as [r cs]. unfold Eigen.cols, Eigen.size in Hcols.
  cbn [Eigen.columns Eigen.rows] in *.
  destruct (sort_loop_sorts (length ev) [] (zip ev cs) r) as (z & Hrun & Hperm & Hs);
    [rewrite length_zip; lia | constructor | constructor |].
  cbn [app length Nat.add] in Hrun, Hperm.
  rewrite fst_zip, snd_zip in Hrun by lia.
  change (Z.of_nat 0) with 0 in Hrun.
  exists z. unfold sortEigenvalues_on, Eigen.size. now rewrite Hrun.
Qed.

(** X17.  The complex-scalar [compute] with its own eigenvector routine,
    on a square matrix whose Schur reduction reports success and hands over
    [n] x [n] factors: no access leaves the matrices, [compute] returns and
    sets the flag; it stores the [n] diagonal entries of [T] in an order in
    which no eigenvalue is smaller in magnitude than an earlier one, with
    an [n] x [n] matrix of eigenvectors. *)
Theorem compute_complex_returns_on_schur_success
    (mat : Eigen.DenseMatrix (Complex R)) (s : t) :
  Eigen.rows mat = Eigen.cols mat ->
  let n := Eigen.rows mat in
  let sc := computeFromHessenberg (m_schur s) mat
              (Eigen.identity (of_real (of_Z 0)) (of_real (of_Z 1))
                 (Eigen.rows mat) (Eigen.cols mat)) true in
  schur_success sc = true ->
  shaped n n (matrixT sc) -> shaped n n (matrixU sc) ->
  exists (s' : t) (d : list (Complex R)),
    compute ComplexEigenvectors.eigenvectors_of mat s = (Ok tt, s')
    /\ m_computed s' = true
    /\ Eigen.diagonal (matrixT sc) = Ok d
    /\ Permutation (m_eivalues s') d
    /\ Eigen.size (m_eivalues s') = n
    /\ magnitudes_ascend (m_eivalues s')
    /\ shaped n n (m_eivec s').
Proof.
  intros Hsq n sc Hok HT HU.
  assert (0 <= n) as Hn.
  { destruct HT as (_ & <- & _). unfold Eigen.cols, Eigen.size. lia. }
  destruct (diagonal_in_shape (matrixT sc) n HT) as (d & Hd & Hsize).
  set (norm0 := fmax (Eigen.mnorm (matrixT sc)) TypeTraits_min).
  destruct (solve_columns_fill_columns (matrixT sc) norm0 n (Z.to_nat n) HT
              ltac:(lia) (Eigen.constant n n (of_real (of_Z 0))))
    as (X & Hsolve & HX & _); [now apply shaped_constant|].
  rewrite Z2Nat.id in Hsolve by lia.
  destruct (mat_mul_in_shape (matrixU sc) X n n n Hn HU HX) as (UX & Hmul & HUX).
  destruct (normalize_columns_in_shape UX n n HUX) as [Hnorm HV].
  set (V := Eigen.mkMatrix n (UpperHessenbergEigen.normalize <$> Eigen.columns UX)) in *.
  assert (ComplexEigenvectors.eigenvectors_of (Eigen.mnorm (matrixT sc)) sc d = V)
    as HV_eq.
  { unfold ComplexEigenvectors.eigenvectors_of,
      ComplexEigenvectors.doComputeEigenvectors,
      ComplexEigenvectors.triangular_solve.
    rewrite Hsize. fold norm0. rewrite Hsolve. cbn [rbind]. rewrite Hmul.
    cbn [rbind]. now rewrite Hnorm. }
  destruct (sortEigenvalues_on_pairs d V) as (z & Hsort & Hperm & Hsorted).
  { destruct HV as (_ & -> & _). now symmetry. }
  assert (length (Eigen.columns V) = length d) as Hlen.
  { destruct HV as (_ & Hc & _). unfold Eigen.cols, Eigen.size in *. lia. }
  exists (set_computed true
            (set_eivec (Eigen.mkMatrix (Eigen.rows V) z.*2)
               (set_eivalues z.*1
                  (set_eivec V
                     (set_eivalues d
                        (set_schur sc
                           (set_eivec (Eigen.identity (of_real (of_Z 0))
                                         (of_real (of_Z 1)) (Eigen.rows mat)
                                         (Eigen.cols mat)) s))))))), d.
  split.
  { unfold compute.
    destruct (Z.eqb_spec (Eigen.rows mat) (Eigen.cols mat)); [|contradiction].
    cbn [negb]. unfold bind, modify, lift, gets, throw, get, sortEigenvalues.
    cbn [m_schur set_schur set_eivec m_eivec]. fold sc. rewrite Hok, Hd.
    cbn [m_schur m_eivalues m_eivec set_schur set_eivec set_eivalues].
    rewrite HV_eq. unfold bind, get, lift, modify.
    cbn [m_schur m_eivalues m_eivec set_schur set_eivec set_eivalues].
    rewrite Hsort. reflexivity. }
  cbn [m_computed m_eivalues m_eivec set_computed set_eivec set_eivalues].
  split; [reflexivity|]. split; [exact Hd|].
  assert (Permutation z.*1 d) as Hpd.
  { rewrite Hperm. rewrite fst_zip by lia. reflexivity. }
  assert (Permutation z.*2 (Eigen.columns V)) as Hpc.
  { rewrite Hperm. rewrite snd_zip by lia. reflexivity. }
  split; [exact Hpd|]. split.
  { unfold Eigen.size in *. now rewrite (Permutation_length Hpd). }
  split.
  { intros i j x y Hij Hi Hj. rewrite list_lookup_fmap in Hi, Hj.
    destruct (z !! i) as [p|] eqn:Hp; [|discriminate].
    destruct (z !! j) as [p'|] eqn:Hp'; [|discriminate].
    cbn in Hi, Hj. injection Hi as <-. injection Hj as <-.
    exact (strongly_sorted_lookup _ _ Hsorted i j p p' Hij Hp Hp'). }
  destruct HV as (Hr & Hc & Hall).
  unfold shaped, Eigen.cols, Eigen.size in *. cbn [Eigen.rows Eigen.columns] in *.
  split; [exact Hr|]. split.
  - now rewrite (Permutation_length Hpc).
  - now rewrite Hpc.
Qed.
End ComplexCompute.

(** ** Computations that return *)

Section ReturnRules.
Context {A : Type}.

Lemma returns_ok (P : A -> Prop) (x : A) : P x -> returns P (Ok x).
Proof. intros Hx. exists x. now split. Qed.

Lemma returns_weaken (P Q : A -> Prop) (m : result A) :
  returns P m -> (forall x : A, P x -> Q x) -> returns Q m.
Proof. intros (x & -> & Hx) HPQ. exists x. split; [reflexivity | now apply HPQ]. Qed.
End ReturnRules.

Section ReturnSequence.
Context {A B : Type}.

Lemma returns_bind (P : A -> Prop) (Q : B -> Prop) (m : result A)
    (k : A -> result B) :
  returns P m -> (forall x : A, P x -> returns Q (k x)) -> returns Q (rbind m k).
Proof. intros (x & -> & Hx) Hk. cbn [rbind]. now apply Hk. Qed.
End ReturnSequence.

Section ReturnLoops.
Context {A B : Type}.

(** A loop whose body keeps an invariant returns, with the invariant. *)
Lemma returns_rfold (I : B -> Prop) (body : B -> A -> result B) (l : list A) :
  (forall (b : B) (a : A), a ∈ l -> I b -> returns I (body b a)) ->
  forall b : B, I b -> returns I (rfold body l b).
Proof.
  induction l as [|a l IH]; intros Hbody b Hb; cbn [rfold].
  - now apply returns_ok.
  - eapply returns_bind; [apply Hbody; [left | exact Hb]|].
    intros b' Hb'. apply IH; [|exact Hb'].
    intros b0 a0 Ha0. apply Hbody. now right.
Qed.
End ReturnLoops.

Section DescendingLoops.
Context {B : Type}.

(** A loop [for (Index i = k - 1; i >= 0; i--)] whose invariant depends on
    the index that comes next. *)
Lemma returns_rfold_down (I : Index -> B -> Prop) (body : B -> Index -> result B)
    (k : nat) :
  (forall (b : B) (i : Index),
      0 <= i < Z.of_nat k -> I i b -> returns (I (i - 1)) (body b i)) ->
  forall b : B, I (Z.of_nat k - 1) b ->
    returns (I (-1)) (rfold body (reverse (seqZ 0 (Z.of_nat k))) b).
Proof.
  induction k as [|k IH]; intros Hbody b Hb.
  - now apply returns_ok.
  - rewrite seqZ_S, reverse_app, Z.add_0_l. cbn [reverse app rfold].
    replace (Z.of_nat (S k) - 1) with (Z.of_nat k) in Hb by lia.
    eapply returns_bind; [apply Hbody; [lia | exact Hb]|].
    intros b' Hb'. apply IH; [|exact Hb'].
    intros b0 i Hi. apply Hbody. lia.
Qed.
End DescendingLoops.

Section ShapedAccess.
Context {A : Type}.
Implicit Types (m : Eigen.DenseMatrix A).

Lemma col_returns m (r c j : Index) :
  shaped r c m -> 0 <= j < c ->
  returns (fun col => Eigen.size col = r /\ Eigen.columns m !! Z.to_nat j = Some col)
          (Eigen.col m j).
Proof.
  intros Hshape Hj. pose proof Hshape as (_ & Hc & _). unfold Eigen.cols in Hc.
  destruct (coeff_lookup (Eigen.columns m) j) as (col & Hcol & Hccol); [lia|].
  exists col. split; [exact Hccol|]. split; [|exact Hcol].
  now apply (shaped_column m r c (Z.to_nat j)).
Qed.

Lemma mcoeff_returns m (r c i j : Index) (P : A -> Prop) :
  shaped r c m -> 0 <= i < r -> 0 <= j < c -> (forall x : A, P x) ->
  returns P (Eigen.mcoeff m i j).
Proof.
  intros Hshape Hi Hj HP.
  destruct (mcoeff_in_shape m r c i j Hshape Hi Hj) as (x & Hx & _).
  exists x. now split.
Qed.

Lemma set_col_returns m (r c j : Index) (col : list A) :
  shaped r c m -> 0 <= j < c -> Eigen.size col = r ->
  returns (shaped r c) (Eigen.set_col m j col).
Proof.
  intros Hshape Hj Hcol. pose proof Hshape as (Hr & Hc & _).
  unfold Eigen.set_col. unfold Eigen.cols in Hc.
  rewrite set_coeff_in_range by lia. cbn [rbind].
  apply returns_ok. rewrite Hr. now apply shaped_insert.
Qed.

Lemma set_mcoeff_returns m (r c i j : Index) (x : A) :
  shaped r c m -> 0 <= i < r -> 0 <= j < c ->
  returns (shaped r c) (Eigen.set_mcoeff m i j x).
Proof.
  intros Hshape Hi Hj. unfold Eigen.set_mcoeff.
  eapply returns_bind; [now apply (col_returns m r c)|].
  intros col [Hsize Hcol]. cbv beta.
  rewrite set_coeff_in_range by lia. cbn [rbind].
  apply (set_col_returns m r c); [assumption | assumption |].
  unfold Eigen.size in *. rewrite length_insert. exact Hsize.
Qed.

Lemma row_segment_returns m (r c i start len : Index) (P : list A -> Prop) :
  shaped r c m -> 0 <= i < r -> 0 <= start -> start + len <= c ->
  (forall seg : list A, P seg) ->
  returns P (row_segment m i start len).
Proof.
  intros Hshape Hi Hs Hlen HP.
  destruct (row_segment_in_shape m r c i start len Hshape Hi Hs Hlen) as (seg & Hseg).
  exists seg. now split.
Qed.

Lemma col_segment_returns m (r c j start len : Index) :
  shaped r c m -> 0 <= j < c -> 0 <= start -> start + len <= r ->
  returns (fun seg => length seg = Z.to_nat len) (col_segment m j start len).
Proof.
  intros Hshape Hj Hs Hlen.
  destruct (col_segment_in_shape m r c j start len Hshape Hj Hs Hlen) as (seg & Hseg).
  now exists seg.
Qed.
End ShapedAccess.

(** ** UpperHessenbergEigen (real): the eigenvectors of the Schur form *)

Section AscendingLoops.
Context {B : Type}.

(** A loop [for (Index i = 0; i < k; i++)] whose invariant depends on the
    index that comes next. *)
Lemma returns_rfold_up (I : Index -> B -> Prop) (body : B -> Index -> result B)
    (k : nat) :
  (forall (b : B) (i : Index),
      0 <= i < Z.of_nat k -> I i b -> returns (I (i + 1)) (body b i)) ->
  forall b : B, I 0 b -> returns (I (Z.of_nat k)) (rfold body (seqZ 0 (Z.of_nat k)) b).
Proof.
  induction k as [|k IH]; intros Hbody b Hb.
  - now apply returns_ok.
  - rewrite seqZ_S, rfold_app, Z.add_0_l.
    eapply returns_bind; [apply IH; [|exact Hb]|].
    + intros b0 i Hi. apply Hbody. lia.
    + intros b' Hb'. cbn [rfold].
      eapply returns_bind; [apply Hbody; [lia | exact Hb']|].
      intros b'' Hb''. apply returns_ok.
      now replace (Z.of_nat (S k)) with (Z.of_nat k + 1) by lia.
Qed.
End AscendingLoops.

Section VectorAccess.
Context {A : Type}.

Lemma coeff_returns (v : list A) (i : Index) (P : A -> Prop) :
  0 <= i < Eigen.size v -> (forall x : A, P x) -> returns P (Eigen.coeff v i).
Proof.
  intros Hi HP. destruct (coeff_lookup v i Hi) as (x & _ & Hx).
  exists x. now split.
Qed.
End VectorAccess.

Section LoopBodies.
Context {A B : Type}.

(** Two bodies that agree on the indices of a loop give the same loop. *)
Lemma rfold_ext_in (f g : B -> A -> result B) (l : list A) :
  (forall (b : B) (a : A), a ∈ l -> f b a = g b a) ->
  forall b : B, rfold f l b = rfold g l b.
Proof.
  induction l as [|a l IH]; intros Hfg b; [reflexivity|].
  cbn [rfold]. rewrite Hfg by left.
  destruct (g b a) as [b'| |]; cbn [rbind]; try reflexivity.
  apply IH. intros b0 a0 Ha0. apply Hfg. now right.
Qed.
End LoopBodies.

Section ColumnsRead.
Context {A : Type}.
Implicit Types (m : Eigen.DenseMatrix A).

(** A part of a row is read from the columns it crosses and from no
    other. *)
Lemma row_segment_agree m m' (i start len : Index) :
  0 <= start ->
  (forall l : nat, start <= Z.of_nat l < start + len ->
     exists c : list A, Eigen.columns m !! l = Some c /\ Eigen.columns m' !! l = Some c) ->
  row_segment m i start len = row_segment m' i start len.
Proof.
  intros Hstart Hcols. unfold row_segment. apply rfold_ext_in.
  intros seg l Hl. apply elem_of_seqZ in Hl.
  destruct (Hcols (Z.to_nat l)) as (c & Hc & Hc'); [lia|].
  unfold Eigen.mcoeff, Eigen.col.
  now rewrite (coeff_in_range _ l c), (coeff_in_range _ l c) by (lia || assumption).
Qed.
End ColumnsRead.

(** A read of a coefficient, a read of an entry of a vector and a write of
    a coefficient of a matrix of known shape. *)
Ltac read_mcoeff HT :=
  eapply returns_bind;
  [ eapply (mcoeff_returns _ _ _ _ _ (fun _ => True));
    [exact HT | lia | lia | intros; exact I]
  | intros ? _; cbv beta ].
Ltac read_coeff :=
  eapply returns_bind;
  [ eapply (coeff_returns _ _ (fun _ => True)); [lia | intros; exact I]
  | intros ? _; cbv beta ].
Ltac read_row HT :=
  eapply returns_bind;
  [ eapply (row_segment_returns _ _ _ _ _ _ (fun _ => True));
    [exact HT | lia | lia | lia | intros; exact I]
  | intros ? _; cbv beta ].
Ltac read_col HT :=
  eapply returns_bind;
  [ eapply col_segment_returns; [exact HT | lia | lia | lia]
  | intros ? _; cbv beta ].
Ltac write_mcoeff HT T1 HT1 :=
  eapply returns_bind;
  [ eapply set_mcoeff_returns; [exact HT | lia | lia]
  | intros T1 HT1; cbv beta ].

Section RealVectors.
Context {R : Type} `{ScalarOps R} `{!NumTraits R} `{!ComplexArith R}.

Abbreviation RMatrix := (Eigen.DenseMatrix R).

Lemma scale_segment_returns (T : RMatrix) (r c j start len : Index) (t : R) :
  shaped r c T -> 0 <= j < c -> 0 <= start -> 0 <= len -> start + len <= r ->
  returns (shaped r c) (RealEigenvectors.scale_segment T j start len t).
Proof.
  intros HT Hj Hs Hl Hr. unfold RealEigenvectors.scale_segment.
  eapply returns_bind; [now apply (col_returns T r c)|].
  intros col [Hsize _]. cbv beta.
  destruct (Z.leb_spec 0 start); [|lia]. destruct (Z.leb_spec 0 len); [|lia].
  destruct (Z.leb_spec (start + len) (Eigen.size col)); [|lia]. cbn [andb].
  apply (set_col_returns T r c); [assumption | assumption |].
  unfold Eigen.size in *.
  rewrite !length_app, length_fmap, !length_take, !length_drop. lia.
Qed.

Lemma scale_tail_returns (T : RMatrix) (r c n k : Index) (t : R) :
  shaped r c T -> 0 <= n < c -> 0 <= k <= r ->
  returns (shaped r c) (RealEigenvectors.scale_tail T n k t).
Proof.
  intros HT Hn Hk. unfold RealEigenvectors.scale_tail.
  eapply returns_bind; [now apply (col_returns T r c)|].
  intros col [Hsize _]. cbv beta.
  apply scale_segment_returns; [assumption | lia ..].
Qed.

Lemma scale_block_returns (T : RMatrix) (r c i j len : Index) (t : R) :
  shaped r c T -> 0 <= j -> j + 1 < c -> 0 <= i -> 0 <= len -> i + len <= r ->
  returns (shaped r c) (RealEigenvectors.scale_block T i j len t).
Proof.
  intros HT Hj Hj1 Hi Hl Hr. unfold RealEigenvectors.scale_block.
  eapply returns_bind; [apply scale_segment_returns; [exact HT | lia ..]|].
  intros T1 HT1. cbv beta. apply scale_segment_returns; [exact HT1 | lia ..].
Qed.

(** The loop that accumulates [norm] reads inside [m_matT]. *)
Lemma hessenberg_norm_returns (T : RMatrix) (size : Index) :
  shaped size size T ->
  returns (fun _ => True) (RealEigenvectors.hessenberg_norm T size).
Proof.
  intros HT. unfold RealEigenvectors.hessenberg_norm.
  apply returns_rfold; [|exact I].
  intros norm j Hj _. apply elem_of_seqZ in Hj.
  read_row HT. now apply returns_ok.
Qed.

(** A turn of the loop over [i] for a real eigenvalue stays inside
    [m_matT] and the eigenvalues. *)
Lemma real_step_returns (size : Index) (norm : R) (ev : list (Complex R))
    (n : Index) (p : R) (T : RMatrix) (l : Index) (lastr lastw : R) (i : Index) :
  n < size -> size <= Eigen.size ev -> 0 <= i < n ->
  rows_left size n i T l ->
  returns (fun st => let '(T', l', _, _) := st in rows_left size n (i - 1) T' l')
          (RealEigenvectors.real_step size norm ev n p (T, l, lastr, lastw) i).
Proof.
  intros Hn Hev Hi [HT Hl]. unfold RealEigenvectors.real_step.
  read_mcoeff HT. read_row HT. read_col HT. read_coeff.
  destruct (flt (imag _) (of_Z 0)).
  { apply returns_ok. split; [exact HT | lia]. }
  eapply returns_bind with (P := shaped size size).
  { destruct (feq (imag _) (of_Z 0)).
    - destruct (negb _); apply (set_mcoeff_returns T size size); (exact HT || lia).
    - read_mcoeff HT. read_mcoeff HT. write_mcoeff HT T1 HT1.
      destruct (flt _ _); apply (set_mcoeff_returns T1 size size); (exact HT1 || lia). }
  intros T1 HT1. cbv beta. read_mcoeff HT1.
  eapply returns_bind with (P := shaped size size).
  { destruct (flt _ _); [|now apply returns_ok].
    apply (scale_tail_returns T1 size size); [exact HT1 | lia | lia]. }
  intros T2 HT2. apply returns_ok. split; [exact HT2 | lia].
Qed.

(** The branch for a real eigenvalue at a position [n] of [m_matT]. *)
Lemma real_vector_returns (size : Index) (norm : R) (ev : list (Complex R))
    (T : RMatrix) (n : Index) (p : R) :
  shaped size size T -> 0 <= n < size -> size <= Eigen.size ev ->
  returns (shaped size size) (RealEigenvectors.real_vector size norm ev T n p).
Proof.
  intros HT Hn Hev. unfold RealEigenvectors.real_vector.
  write_mcoeff HT T1 HT1.
  eapply returns_bind.
  - replace (seqZ 0 n) with (seqZ 0 (Z.of_nat (Z.to_nat n)))
      by (now rewrite Z2Nat.id by lia).
    apply (returns_rfold_down
             (fun i st => let '(T', l', _, _) := st in rows_left size n i T' l')).
    + intros [[[T' l'] lastr] lastw] i Hi Hinv.
      apply real_step_returns; [lia | assumption | lia | exact Hinv].
    + split; [exact HT1 | lia].
  - intros [[[T2 l2] lastr] lastw] [HT2 _]. now apply returns_ok.
Qed.

(** The statements before the loop over [i] for a complex pair. *)
Lemma complex_head_returns (size : Index) (T : RMatrix) (n : Index) (p q : R) :
  shaped size size T -> 0 < n < size ->
  returns (shaped size size) (RealEigenvectors.complex_head T n p q).
Proof.
  intros HT Hn. unfold RealEigenvectors.complex_head.
  read_mcoeff HT. read_mcoeff HT.
  eapply returns_bind with (P := shaped size size).
  { destruct (flt _ _).
    - read_mcoeff HT. write_mcoeff HT T1 HT1. read_mcoeff HT1. read_mcoeff HT1.
      apply (set_mcoeff_returns T1 size size); (exact HT1 || lia).
    - read_mcoeff HT. read_mcoeff HT. write_mcoeff HT T1 HT1.
      apply (set_mcoeff_returns T1 size size); (exact HT1 || lia). }
  intros T2 HT2. cbv beta. write_mcoeff HT2 T3 HT3.
  apply (set_mcoeff_returns T3 size size); (exact HT3 || lia).
Qed.

(** A turn of the loop over [i] for a complex pair stays inside [m_matT]
    and the eigenvalues. *)
Lemma complex_step_returns (size : Index) (norm : R) (ev : list (Complex R))
    (n : Index) (p q : R) (T : RMatrix) (l : Index) (lastra lastsa lastw : R)
    (i : Index) :
  n < size -> size <= Eigen.size ev -> 0 <= i < n - 1 ->
  rows_left size (n - 1) i T l ->
  returns (fun st => let '(T', l', _, _, _) := st in
                     rows_left size (n - 1) (i - 1) T' l')
          (RealEigenvectors.complex_step size norm ev n p q
             (T, l, lastra, lastsa, lastw) i).
Proof.
  intros Hn Hev Hi [HT Hl]. unfold RealEigenvectors.complex_step.
  read_row HT. read_col HT. read_row HT. read_col HT. read_mcoeff HT. read_coeff.
  destruct (flt (imag _) (of_Z 0)).
  { apply returns_ok. split; [exact HT | lia]. }
  eapply returns_bind with (P := shaped size size).
  { destruct (feq (imag _) (of_Z 0)).
    - write_mcoeff HT T1 HT1.
      apply (set_mcoeff_returns T1 size size); (exact HT1 || lia).
    - read_mcoeff HT. read_mcoeff HT. write_mcoeff HT T1 HT1.
      write_mcoeff HT1 T2 HT2.
      destruct (flt _ _).
      + read_mcoeff HT2. read_mcoeff HT2. write_mcoeff HT2 T3 HT3.
        read_mcoeff HT3. read_mcoeff HT3.
        apply (set_mcoeff_returns T3 size size); (exact HT3 || lia).
      + read_mcoeff HT2. read_mcoeff HT2. write_mcoeff HT2 T3 HT3.
        apply (set_mcoeff_returns T3 size size); (exact HT3 || lia). }
  intros T1 HT1. cbv beta. read_mcoeff HT1. read_mcoeff HT1.
  eapply returns_bind with (P := shaped size size).
  { destruct (flt _ _); [|now apply returns_ok].
    apply (scale_block_returns T1 size size); (exact HT1 || lia). }
  intros T2 HT2. apply returns_ok. split; [exact HT2 | lia].
Qed.

(** The branch for a pair of complex eigenvalues at the positions [n - 1]
    and [n] of [m_matT]. *)
Lemma complex_vector_returns (size : Index) (norm : R) (ev : list (Complex R))
    (T : RMatrix) (n : Index) (p q : R) :
  shaped size size T -> 0 < n < size -> size <= Eigen.size ev ->
  returns (shaped size size) (RealEigenvectors.complex_vector size norm ev T n p q).
Proof.
  intros HT Hn Hev. unfold RealEigenvectors.complex_vector.
  eapply returns_bind; [apply (complex_head_returns size); assumption|].
  intros T1 HT1. cbv beta.
  eapply returns_bind.
  - replace (seqZ 0 (n - 1)) with (seqZ 0 (Z.of_nat (Z.to_nat (n - 1))))
      by (now rewrite Z2Nat.id by lia).
    apply (returns_rfold_down
             (fun i st => let '(T', l', _, _, _) := st in
                          rows_left size (n - 1) i T' l')).
    + intros [[[[T' l'] lastra] lastsa] lastw] i Hi Hinv.
      apply complex_step_returns; [lia | assumption | lia | exact Hinv].
    + split; [exact HT1 | lia].
  - intros [[[[T2 l2] lastra] lastsa] lastw] [HT2 _]. now apply returns_ok.
Qed.

(** The loop over [n] ends within [n + 2] turns and keeps the shape of
    [m_matT]. *)
Lemma vector_loop_returns (size : Index) (norm : R) (ev : list (Complex R))
    (fuel : nat) :
  size <= Eigen.size ev ->
  forall (T : RMatrix) (n : Index),
    shaped size size T -> -1 <= n < size -> n + 1 < Z.of_nat fuel ->
    returns (shaped size size) (RealEigenvectors.vector_loop fuel size norm ev T n).
Proof.
  intros Hev. induction fuel as [|fuel IH]; intros T n HT Hn Hfuel; [lia|].
  cbn [RealEigenvectors.vector_loop].
  rewrite Z.geb_leb. destruct (Z.leb_spec 0 n); [|now apply returns_ok].
  read_coeff. destruct (feq _ _).
  - eapply returns_bind; [apply real_vector_returns; [exact HT | lia | exact Hev]|].
    intros T1 HT1. cbv beta. apply IH; [exact HT1 | lia | lia].
  - destruct (flt _ _); cbn [andb]; [|apply IH; [exact HT | lia | lia]].
    rewrite Z.gtb_ltb. destruct (Z.ltb_spec 0 n); [|apply IH; [exact HT | lia | lia]].
    eapply returns_bind;
      [apply complex_vector_returns; [exact HT | lia | exact Hev]|].
    intros T1 HT1. cbv beta. apply IH; [exact HT1 | lia | lia].
Qed.

(** The product of the leading columns of [m_eivec] by the head of a
    column of [m_matT] has a coefficient for each row of [m_eivec]. *)
Lemma left_product_returns (size r : Index) (T V : RMatrix) (j : Index) :
  shaped size size T -> shaped r size V -> 0 <= r -> 0 <= j < size ->
  returns (fun tmp => Eigen.size tmp = r) (RealEigenvectors.left_product V T j).
Proof.
  intros HT HV Hr Hj. unfold RealEigenvectors.left_product.
  read_col HT. pose proof HV as (Hrows & _). rewrite Hrows.
  rewrite <- (Z2Nat.id r) at 1 by lia.
  eapply returns_weaken.
  - apply (returns_rfold_up (fun i tmp => Eigen.size tmp = i)); [|reflexivity].
    intros tmp i Hi Htmp. read_row HV. apply returns_ok.
    unfold Eigen.size in *. rewrite length_app. cbn [length]. lia.
  - cbv beta. intros tmp Htmp. lia.
Qed.

(** The shape of [m_eivec] has a number of rows that is not negative. *)
Lemma shaped_rows (V : RMatrix) (r c : Index) : shaped r c V -> 0 < c -> 0 <= r.
Proof.
  intros (_ & Hc & Hall) Hpos. unfold Eigen.cols, Eigen.size in *.
  destruct (Eigen.columns V) as [|col cols]; [cbn in Hc; lia|].
  apply Forall_cons in Hall as [Hcol _]. lia.
Qed.

(** The back transformation keeps the shape of [m_eivec]. *)
Lemma back_transform_returns (size r : Index) (T V : RMatrix) :
  shaped size size T -> shaped r size V ->
  returns (shaped r size) (RealEigenvectors.back_transform size T V).
Proof.
  intros HT HV. unfold RealEigenvectors.back_transform.
  apply returns_rfold; [|exact HV].
  intros V0 j Hj HV0. apply elem_of_reverse, elem_of_seqZ in Hj.
  eapply returns_bind.
  { apply (left_product_returns size r);
      [assumption | assumption | apply (shaped_rows V0 r size HV0); lia | lia]. }
  intros tmp Htmp. cbv beta.
  apply (set_col_returns V0 r size); [exact HV0 | lia | exact Htmp].
Qed.

(** The product for column [j] reads the first [j + 1] columns of
    [m_eivec] and no other. *)
Lemma left_product_agree (V0 V T : RMatrix) (j : Index) :
  0 <= j -> Eigen.rows V0 = Eigen.rows V ->
  (forall l : nat, Z.of_nat l <= j ->
     exists c : list R, Eigen.columns V0 !! l = Some c /\ Eigen.columns V !! l = Some c) ->
  RealEigenvectors.left_product V0 T j = RealEigenvectors.left_product V T j.
Proof.
  intros Hj Hrows Hcols. unfold RealEigenvectors.left_product.
  destruct (col_segment T j 0 (j + 1)) as [x| |]; cbn [rbind]; try reflexivity.
  rewrite Hrows. apply rfold_ext_in. intros tmp i _.
  rewrite (row_segment_agree V0 V); [reflexivity | lia |].
  intros l Hl. apply Hcols. lia.
Qed.

(** The back transformation from column [k - 1] down to column 0, on a
    matrix whose first [k] columns are still those of [V]: these columns
    become the products with the columns of [V], and the others stay. *)
Lemma back_transform_columns (size r : Index) (T V : RMatrix) (k : nat) :
  shaped size size T -> shaped r size V -> Z.of_nat k <= size ->
  forall V0 : RMatrix,
    shaped r size V0 ->
    (forall l : nat, (l < k)%nat -> Eigen.columns V0 !! l = Eigen.columns V !! l) ->
    exists V' : RMatrix,
      rfold (fun V j =>
               let+ m_tmp := RealEigenvectors.left_product V T j in
               Eigen.set_col V j m_tmp)
            (reverse (seqZ 0 (Z.of_nat k))) V0 = Ok V'
      /\ shaped r size V'
      /\ (forall j : nat, (j < k)%nat ->
            Eigen.col V' (Z.of_nat j) = RealEigenvectors.left_product V T (Z.of_nat j))
      /\ (forall j : nat, (k <= j)%nat ->
            Eigen.columns V' !! j = Eigen.columns V0 !! j).
Proof.
  intros HT HV. induction k as [|k IH]; intros Hk V0 HV0 Hsame.
  { exists V0. split; [reflexivity|]. split; [exact HV0|]. split; [lia | reflexivity]. }
  rewrite reverse_seqZ_S. cbn [rfold].
  pose proof HV as (HVr & HVc & _). pose proof HV0 as (HV0r & HV0c & _).
  unfold Eigen.cols, Eigen.size in HVc, HV0c.
  assert (0 <= r) as Hr by (apply (shaped_rows V r size HV); lia).
  rewrite (left_product_agree V0 V T (Z.of_nat k)); [|lia|congruence|].
  2:{ intros l Hl. destruct (lookup_lt_is_Some_2 (Eigen.columns V) l) as [c Hc]; [lia|].
      exists c. split; [|exact Hc]. rewrite Hsame by lia. exact Hc. }
  destruct (left_product_returns size r T V (Z.of_nat k) HT HV Hr) as (tmp & Htmp & Hlen);
    [lia|].
  rewrite Htmp. cbn [rbind]. unfold Eigen.set_col.
  rewrite set_coeff_in_range by (unfold Eigen.size; lia). cbn [rbind].
  rewrite Nat2Z.id.
  destruct (IH ltac:(lia) (Eigen.mkMatrix (Eigen.rows V0) (<[k := tmp]> (Eigen.columns V0))))
    as (V' & Hloop & HV' & Hdone & Hkept).
  - rewrite HV0r. now apply shaped_insert.
  - intros l Hl. cbn [Eigen.columns].
    rewrite list_lookup_insert_ne by lia. apply Hsame. lia.
  - exists V'. split; [exact Hloop|]. split; [exact HV'|]. split.
    + intros j Hj. destruct (decide (j = k)) as [->|Hne]; [|apply Hdone; lia].
      rewrite Htmp. unfold Eigen.col. apply coeff_in_range; [lia|].
      rewrite Nat2Z.id, Hkept by lia. cbn [Eigen.columns].
      apply list_lookup_insert_eq. lia.
    + intros j Hj. rewrite Hkept by lia. cbn [Eigen.columns].
      apply list_lookup_insert_ne. lia.
Qed.

(** X19.  The back transformation works in place, from the last column to
    the first, and this order makes the overwriting harmless: column [j]
    of the result is the product of the first [j + 1] columns of the
    matrix [m_eivec] it was given, none of them overwritten yet, by the
    head of column [j] of [m_matT]; the shape is kept. *)
Theorem back_transform_multiplies_given_columns (size r : Index) (T V : RMatrix) :
  shaped size size T -> shaped r size V ->
  exists V' : RMatrix,
    RealEigenvectors.back_transform size T V = Ok V'
    /\ shaped r size V'
    /\ forall j : Index, 0 <= j < size ->
         Eigen.col V' j = RealEigenvectors.left_product V T j.
Proof.
  intros HT HV. pose proof (shaped_cols_nonneg V _ _ HV) as Hsize.
  destruct (back_transform_columns size r T V (Z.to_nat size) HT HV ltac:(lia) V HV)
    as (V' & Hloop & HV' & Hdone & _); [reflexivity|].
  rewrite Z2Nat.id in Hloop by lia.
  exists V'. split; [exact Hloop|]. split; [exact HV'|].
  intros j Hj. rewrite <- (Z2Nat.id j) by lia. apply Hdone. lia.
Qed.

(** The whole of [doComputeEigenvectors] returns and keeps the shapes. *)
Lemma doComputeEigenvectors_returns (ev : list (Complex R)) (T V : RMatrix)
    (size r : Index) :
  shaped size size T -> shaped r size V -> size <= Eigen.size ev ->
  returns (fun TV => shaped size size TV.1 /\ shaped r size TV.2)
          (RealEigenvectors.doComputeEigenvectors ev T V).
Proof.
  intros HT HV Hev. unfold RealEigenvectors.doComputeEigenvectors.
  pose proof HV as (_ & -> & _).
  pose proof (shaped_cols_nonneg V _ _ HV) as Hsize.
  eapply returns_bind; [now apply hessenberg_norm_returns|].
  intros norm _. cbv beta.
  destruct (feq norm (of_Z 0)); [now apply returns_ok|].
  eapply returns_bind;
    [apply (vector_loop_returns size norm ev); [exact Hev | exact HT | lia | lia]|].
  intros T' HT'. cbv beta.
  eapply returns_bind; [apply (back_transform_returns size r); eassumption|].
  intros V' HV'. now apply returns_ok.
Qed.

(** X4.  The real-scalar [doComputeEigenvectors] on [size] eigenvalues or
    more, a [size] x [size] matrix [m_matT] and a matrix [m_eivec] of
    [size] columns: every access to the two matrices and to the vector of
    eigenvalues is in range, whatever the eigenvalues are (real, paired or
    not), the loop over [n] ends, and the two matrices keep their shapes.
    When the accumulated norm compares equal to zero the two matrices are
    returned as they were. *)
Theorem doComputeEigenvectors_real_stays_in_range (ev : list (Complex R))
    (T V : RMatrix) :
  let size := Eigen.cols V in
  shaped size size T -> shaped (Eigen.rows V) size V -> size <= Eigen.size ev ->
  exists (norm : R) (T' V' : RMatrix),
    RealEigenvectors.hessenberg_norm T size = Ok norm
    /\ RealEigenvectors.doComputeEigenvectors ev T V = Ok (T', V')
    /\ RealEigenvectors.eigenvectors_of ev T V = (T', V')
    /\ shaped size size T'
    /\ shaped (Eigen.rows V) size V'
    /\ (feq norm (of_Z 0) = true -> T' = T /\ V' = V).
Proof.
  intros size HT HV Hev.
  destruct (hessenberg_norm_returns T size HT) as (norm & Hnorm & _).
  destruct (doComputeEigenvectors_returns ev T V size (Eigen.rows V) HT HV Hev)
    as ([T' V'] & Hrun & HT' & HV').
  exists norm, T', V'. split; [exact Hnorm|]. split; [exact Hrun|].
  split; [unfold RealEigenvectors.eigenvectors_of; now rewrite Hrun|].
  split; [exact HT'|]. split; [exact HV'|].
  intros Hzero. unfold RealEigenvectors.doComputeEigenvectors in Hrun.
  fold size in Hrun. rewrite Hnorm in Hrun. cbn [rbind] in Hrun.
  rewrite Hzero in Hrun. injection Hrun as <- <-. now split.
Qed.
End RealVectors.

(** ** UpperHessenbergEigen (real): [compute] with its eigenvector routine *)

Section RealCompute.
Context {R : Type} `{ScalarOps R} `{!NumTraits R} `{!ComplexArith R}
        `{!RealSchur R} `{!Eigen.Uninit (Complex R)}.
Import UpperHessenbergEigen.

(** X18.  The real-scalar [compute] with its own eigenvector routine, on a
    square matrix with a largest absolute entry whose Schur reduction hands
    over [n] x [n] factors: no access leaves the matrices or the vector of
    eigenvalues, [compute] returns and sets the flag, and the two queries
    then return as well: [eigenvalues()] with [n] values and
    [eigenvectors()] with an [n] x [n] matrix, neither changing the
    object. *)
Theorem compute_real_then_queries_return (mat : Eigen.DenseMatrix R) (s : t)
    (scale : R) (T U : Eigen.DenseMatrix R) :
  let n := Eigen.rows mat in
  Eigen.rows mat = Eigen.cols mat ->
  scale_of mat = Ok scale ->
  schur_compute (Eigen.div_scalar mat scale) = Ok (T, U) ->
  shaped n n T -> shaped n n U ->
  exists s' : t,
    compute RealEigenvectors.eigenvectors_of mat s = (Ok tt, s')
    /\ m_computed s' = true
    /\ m_n s' = n
    /\ shaped n n (m_matT s')
    /\ shaped n n (m_eivec s')
    /\ (exists vals : list (Complex R),
          eigenvalues s' = (Ok vals, s') /\ Eigen.size vals = n)
    /\ (exists matV : Eigen.DenseMatrix (Complex R),
          eigenvectors s' = (Ok matV, s') /\ shaped n n matV).
Proof.
  intros n Hsq Hscale Hschur HT HU.
  pose proof (shaped_cols_nonneg T _ _ HT) as Hn.
  destruct (eigenvalue_loop_blocks n T (S (Z.to_nat n)) HT 0 []
              (replicate (Z.to_nat n) Eigen.indeterminate))
    as (ev & Hloop & _ & Hsize);
    [reflexivity | rewrite length_replicate; lia | constructor
    | rewrite length_replicate; lia |].
  cbn [app] in Hloop. change (Z.of_nat 0) with 0 in Hloop.
  destruct (doComputeEigenvectors_returns ev T U n n HT HU)
    as ([T' V'] & Hrun & HT' & HV'); [lia|].
  cbn [fst snd] in HT', HV'.
  assert (RealEigenvectors.eigenvectors_of ev T U = (T', V')) as Hof
    by (unfold RealEigenvectors.eigenvectors_of; now rewrite Hrun).
  exists (mkT n T' V' (scale_back scale ev) true).
  split.
  { rewrite (compute_real_run _ mat s scale T U ev Hsq Hscale Hschur Hloop).
    now rewrite Hof. }
  split; [reflexivity|]. split; [reflexivity|].
  split; [exact HT'|]. split; [exact HV'|].
  assert (Eigen.size (scale_back scale ev) = n) as Hvals.
  { unfold scale_back, Eigen.size in *. now rewrite length_fmap. }
  pose proof HV' as (_ & Hcols & _).
  split.
  - exists (scale_back scale ev). split; [reflexivity | exact Hvals].
  - eexists. split.
    + apply eigenvectors_real_run; [reflexivity|].
      cbn [m_eivec m_eivalues]. lia.
    + cbn [m_eivec m_eivalues]. rewrite Hcols.
      apply paired_columns_shaped; [exact HV' | lia].
Qed.
End RealCompute.

(** ** The restart on the eigenvalues of the real decomposition *)

Section RestartOnBlocks.
Context {R : Type} `{ScalarOps R} `{!Krylov R R} `{!RealShiftQR R}.
Import RestartArnoldi.

(** On shifts stored in blocks the walk of [run] never needs the successor
    of the last shift. *)
Lemma conjugate_blocks_pairs_closed (shifts : list (Complex R)) :
  feq (of_Z 0) (of_Z 0) = true ->
  (forall x : R, fneg (fneg x) = x) ->
  (forall x : R, feq (fneg x) (of_Z 0) = feq x (of_Z 0)) ->
  conjugate_blocks shifts -> Forall self_equal shifts ->
  pairs_closed shifts = true.
Proof.
  intros Hzero Hneg Hsign Hblocks.
  induction Hblocks as [|d rest _ IH|a z rest _ IH]; intros Hall.
  - reflexivity.
  - apply Forall_cons in Hall as [_ Hrest].
    assert (is_complex (of_real d) = false) as Hreal
      by (unfold is_complex, of_real; cbn [imag]; now rewrite Hzero).
    destruct rest as [|w rest]; [cbn [pairs_closed]; now rewrite Hreal|].
    rewrite pairs_closed_cons2, Hreal. cbn [andb]. now apply IH.
  - apply Forall_cons in Hall as [[Ha Hz] Hrest].
    apply Forall_cons in Hrest as [_ Hrest]. cbn [real imag] in Ha, Hz.
    rewrite pairs_closed_cons2.
    unfold is_complex at 1, is_conj, ceq, conj. cbn [real imag].
    rewrite Hneg, Ha, Hz. cbn [andb].
    destruct (feq z (of_Z 0)) eqn:Hz0; cbn [negb andb]; [|now apply IH].
    assert (is_complex (mkComplex a (fneg z)) = false) as Hreal
      by (unfold is_complex; cbn [imag]; now rewrite Hsign, Hz0).
    destruct rest as [|w rest]; [cbn [pairs_closed]; now rewrite Hreal|].
    rewrite pairs_closed_cons2, Hreal. cbn [andb]. now apply IH.
Qed.

(** X21.  The eigenvalues of the real decomposition are the shifts the
    exact tests of [RestartArnoldi::run] are written for: when the shifts
    [ritz_val[k..]] are real values with an imaginary part that is exactly
    zero and exact conjugate pairs at consecutive positions, none with a
    NaN, [run] never reads [ritz_val[i + 1]] past the end; it returns, and
    what it returns is the schedule of the shifts.  This holds for an
    arithmetic in which zero compares equal to itself, negating twice
    gives the value back, and negating does not change the comparison
    with zero. *)
Theorem run_on_conjugate_blocks_stays_in_range (ritz_val : list (Complex R))
    (k : Index) (fac0 : ArnoldiFac) (Q0 : Eigen.DenseMatrix R) :
  feq (of_Z 0) (of_Z 0) = true ->
  (forall x : R, fneg (fneg x) = x) ->
  (forall x : R, feq (fneg x) (of_Z 0) = feq x (of_Z 0)) ->
  0 <= k ->
  let ncv := Eigen.size ritz_val in
  let shifts := drop (Z.to_nat k) ritz_val in
  conjugate_blocks shifts -> Forall self_equal shifts ->
  let l := apply_schedule (shift_schedule shifts)
             (mkLocals fac0 Q0 (ds_new ncv) (hb_new ncv)) in
  pairs_closed shifts = true
  /\ run ritz_val k fac0 Q0 = Ok (fac l, Q l).
Proof.
  intros Hzero Hneg Hsign Hk ncv shifts Hblocks Hall l.
  assert (pairs_closed shifts = true) as Hclosed
    by now apply conjugate_blocks_pairs_closed.
  split; [exact Hclosed|].
  pose proof (run_follows_schedule ritz_val k fac0 Q0 Hk) as Hrun.
  cbv zeta in Hrun. fold ncv shifts in Hrun. now rewrite Hclosed in Hrun.
Qed.
End RestartOnBlocks.

(** ** The restart for a complex scalar *)

Section RestartComplexTotal.
Context {R : Type} `{ScalarOps R} `{!Krylov R (Complex R)} `{!ComplexShiftQR R}.
Import RestartArnoldiComplex.

(** X22.  The complex specialization of [RestartArnoldi::run] has no test
    on the next value: for every vector of Ritz values and every start
    index [k >= 0] it reads inside the vector and returns, after one
    single shift for each of [ritz_val[k..]], in order and with the value
    itself as the shift.  The shifts of a restart from [k] are the shift
    by [ritz_val[k]] followed by those of a restart from [k + 1], and from
    [k >= ncv] on there is none: [fac] and [Q] come back as they were. *)
Theorem run_complex_always_returns (ritz_val : list (Complex R)) (k : Index)
    (fac0 : ArnoldiFac) (Q0 : Eigen.DenseMatrix (Complex R)) :
  0 <= k ->
  let ncv := Eigen.size ritz_val in
  let shifted (shifts : list (Complex R)) (l : locals) : locals :=
    fold_left (fun l mu => single_shift mu l) shifts l in
  let l0 := mkLocals fac0 Q0 (hbc_new ncv) in
  (let l := shifted (drop (Z.to_nat k) ritz_val) l0 in
   run ritz_val k fac0 Q0 = Ok (fac l, Q l))
  /\ (forall mu : Complex R,
        ritz_val !! Z.to_nat k = Some mu ->
        let l := shifted (drop (Z.to_nat (k + 1)) ritz_val) (single_shift mu l0) in
        run ritz_val k fac0 Q0 = Ok (fac l, Q l))
  /\ (ncv <= k -> run ritz_val k fac0 Q0 = Ok (fac0, Q0)).
Proof.
  intros Hk ncv shifted l0.
  pose proof (run_complex_single_shifts ritz_val k fac0 Q0 Hk) as Hrun.
  cbv zeta in Hrun. fold ncv l0 in Hrun.
  split; [exact Hrun|]. split.
  - intros mu Hmu l. rewrite Hrun.
    rewrite (drop_S _ _ _ Hmu). cbn [fold_left].
    subst l shifted. cbv beta. now replace (Z.to_nat (k + 1)) with (S (Z.to_nat k)) by lia.
  - intros Hge. rewrite Hrun.
    rewrite drop_ge by (unfold ncv, Eigen.size in Hge; lia). reflexivity.
Qed.
End RestartComplexTotal.

(** ** The further properties on runs of the bench *)

Lemma retrieve_ritzpair_gathers_eigenpairs_witness :
  let s := Bench.started 6 2 5 in
  let out := GenEigsBase.retrieve_ritzpair SmallestMagn s in
  fst out = Ok tt
  /\ GenEigsBase.m_ritz_val (snd out)
     = [binary64.c 1 0; binary64.c 2 0; binary64.c 3 0; binary64.c 4 0; binary64.c 5 0]
  /\ Permutation (GenEigsBase.m_ritz_val (snd out))
       [binary64.c 5 0; binary64.c 4 0; binary64.c 3 0; binary64.c 2 0; binary64.c 1 0].
Proof.
  cbv zeta. set (s := Bench.started 6 2 5).
  set (p := match hessenberg_eigen (matrix_H (GenEigsBase.m_fac s)) with
            | Ok p => p
            | _ => ([], Eigen.mkMatrix 0 [])
            end).
  destruct (retrieve_ritzpair_gathers_eigenpairs SmallestMagn s p.1 p.2)
    as (Hrun & _ & Hperm);
    [discriminate | by_evaluation | by_evaluation | by_shape | by_evaluation
    | by_evaluation | by_evaluation | by_evaluation |].
  rewrite Hrun. cbn [fst snd]. split; [reflexivity|]. split; [by_evaluation|].
  cbn [GenEigsBase.m_ritz_val GenEigsBase.set_ritz_vec GenEigsBase.set_ritz_est
       GenEigsBase.set_ritz_val].
  etransitivity; [exact Hperm|]. vm_compute. reflexivity.
Defined.

Lemma compute_rejects_selection_rule_after_expansion_witness :
  let s := Bench.started 6 2 5 in
  let out := GenEigsBase.compute UnsupportedRule 3 Bench.default_tol LargestMagn s in
  fst out = Throw (invalid_argument "unsupported selection rule")
  /\ GenEigsBase.m_nmatop s = 0 /\ GenEigsBase.m_nmatop (snd out) = 4
  /\ GenEigsBase.m_info (snd out) = NotComputed.
Proof.
  cbv zeta. set (s := Bench.started 6 2 5).
  set (p := match hessenberg_eigen (matrix_H (GenEigsBase.m_fac s)) with
            | Ok p => p
            | _ => ([], Eigen.mkMatrix 0 [])
            end).
  destruct (compute_rejects_selection_rule_after_expansion 3 Bench.default_tol
              LargestMagn s (snd (GenEigsBase.factorize 1 5 s)) p.1 p.2)
    as [Hrun _]; [by_evaluation | by_evaluation |].
  rewrite Hrun. cbn [fst snd]. by_evaluation.
Defined.

Lemma sort_ritzpair_moves_pairs_together_witness :
  let s := snd (GenEigsBase.num_converged Bench.default_tol
                  (Bench.expanded 6 2 5 SmallestMagn)) in
  let out := GenEigsBase.sort_ritzpair LargestMagn s in
  (take 2 (GenEigsBase.m_ritz_val s) = [binary64.c 1 0; binary64.c 2 0]
   /\ GenEigsBase.m_ritz_conv s = [false; true])
  /\ fst out = Ok tt
  /\ take 2 (GenEigsBase.m_ritz_val (snd out)) = [binary64.c 2 0; binary64.c 1 0]
  /\ GenEigsBase.m_ritz_conv (snd out) = [true; false]
  /\ selected (GenEigsBase.m_ritz_val (snd out)) (GenEigsBase.m_ritz_conv (snd out))
     = [binary64.c 2 0].
Proof.
  cbv zeta.
  set (s := snd (GenEigsBase.num_converged Bench.default_tol
                   (Bench.expanded 6 2 5 SmallestMagn))).
  destruct (sort_ritzpair_moves_pairs_together LargestMagn s)
    as (s' & Hrun & Hval & Hvec & Hconv & _);
    [discriminate | by_evaluation | by_evaluation | by_evaluation | by_evaluation |].
  rewrite Hrun. cbn [fst snd]. rewrite Hval, Hconv.
  split; [by_evaluation|]. split; [reflexivity|]. by_evaluation.
Defined.

Lemma eigenvalues_returns_values_with_flag_set_witness :
  let s := snd (GenEigsBase.num_converged Bench.default_tol
                  (Bench.expanded 6 2 5 SmallestMagn)) in
  GenEigsBase.eigenvalues s = (Ok [binary64.c 2 0], s).
Proof.
  cbv zeta.
  set (s := snd (GenEigsBase.num_converged Bench.default_tol
                   (Bench.expanded 6 2 5 SmallestMagn))).
  destruct (eigenvalues_returns_values_with_flag_set s)
    as (vals & Hrun & -> & _); [by_evaluation | by_evaluation |].
  rewrite Hrun. f_equal.
Defined.

Lemma eigenvectors_multiplies_columns_with_flag_set_witness :
  let s := snd (GenEigsBase.num_converged Bench.default_tol
                  (Bench.expanded 6 2 5 SmallestMagn)) in
  fst (GenEigsBase.eigenvectors 5 s)
  = Ok (Eigen.mkMatrix 5
          [[binary64.c 0 0; binary64.c 0 0; binary64.c 0 0; binary64.c 1 0;
            binary64.c 0 0]])
  /\ fst (GenEigsBase.eigenvectors_all s) = fst (GenEigsBase.eigenvectors 5 s).
Proof.
  cbv zeta.
  set (s := snd (GenEigsBase.num_converged Bench.default_tol
                   (Bench.expanded 6 2 5 SmallestMagn))).
  destruct (eigenvectors_multiplies_columns_with_flag_set 5 s)
    as (_ & Hrun & Hall); [lia | by_evaluation | by_evaluation |].
  rewrite Hrun, Hall. cbn [fst]. split; by_evaluation.
Defined.

Lemma init_resets_results_but_not_status_witness :
  let s := snd (GenEigsBase.compute SmallestMagn 3 Bench.default_tol LargestMagn
                  (Bench.started 6 2 5)) in
  let out := GenEigsBase.init (random_vec 6) s in
  (eval GenEigsBase.info s = Ok NotConverging
   /\ eval GenEigsBase.eigenvalues s = Ok [binary64.c 2 0])
  /\ fst out = Ok tt
  /\ eval GenEigsBase.info (snd out) = Ok NotConverging
  /\ GenEigsBase.eigenvalues (snd out) = (Ok [], snd out)
  /\ eval GenEigsBase.num_iterations (snd out) = Ok 0.
Proof.
  cbv zeta.
  set (s := snd (GenEigsBase.compute SmallestMagn 3 Bench.default_tol LargestMagn
                   (Bench.started 6 2 5))).
  set (out := GenEigsBase.init (random_vec 6) s).
  assert (fst out = Ok tt) as Hfst by (vm_compute; reflexivity).
  assert (out = (Ok tt, snd out)) as Hout
    by (rewrite <- Hfst; apply surjective_pairing).
  destruct (init_resets_results_but_not_status (random_vec 6) s (snd out) Hout)
    as (_ & _ & _ & _ & Hniter & _ & Hinfo & Hvals & _).
  split; [by_evaluation|]. split; [exact Hfst|].
  split; [rewrite Hinfo; by_evaluation|]. split; [exact Hvals|].
  unfold eval, GenEigsBase.num_iterations, gets. cbn [fst]. now rewrite Hniter.
Defined.

Lemma nev_adjusted_between_nev_and_ncv_witness :
  let s := Bench.expanded 6 2 5 SmallestMagn in
  exists k : Index, GenEigsBase.nev_adjusted 1 s = (Ok k, s) /\ 2 <= k <= 4.
Proof.
  cbv zeta. set (s := Bench.expanded 6 2 5 SmallestMagn).
  destruct (nev_adjusted_between_nev_and_ncv s 1) as (k & Hrun & Hk & _);
    [by_evaluation | by_evaluation | by_evaluation | by_evaluation | lia |].
  exists k. split; [exact Hrun|].
  assert (GenEigsBase.m_nev s = 2) as Hnev by (vm_compute; reflexivity).
  assert (GenEigsBase.m_ncv s = 5) as Hncv by (vm_compute; reflexivity).
  lia.
Defined.

Lemma compute_result_tells_status_witness :
  let s := Bench.started 6 2 5 in
  let out := GenEigsBase.compute SmallestMagn 3 Bench.default_tol LargestMagn s in
  fst out = Ok 1 /\ GenEigsBase.m_info (snd out) = NotConverging.
Proof.
  cbv zeta. set (s := Bench.started 6 2 5).
  set (out := GenEigsBase.compute SmallestMagn 3 Bench.default_tol LargestMagn s).
  assert (fst out = Ok 1) as Hfst by (vm_compute; reflexivity).
  assert (out = (Ok 1, snd out)) as Hout
    by (rewrite <- Hfst; apply surjective_pairing).
  destruct (compute_result_tells_status SmallestMagn 3 Bench.default_tol LargestMagn
              s (snd out) 1) as (_ & _ & Hnot & _); [by_evaluation | exact Hout |].
  split; [exact Hfst|]. apply Hnot. by_evaluation.
Defined.

Lemma compute_rejects_sorting_rule_after_the_loop_witness :
  let s := Bench.started 6 2 5 in
  let loop := compute_until_sorting SmallestMagn 3 Bench.default_tol s in
  fst loop = Ok (3, 1)
  /\ GenEigsBase.compute SmallestMagn 3 Bench.default_tol UnsupportedRule s
     = (Throw (invalid_argument "unsupported sorting rule"), snd loop)
  /\ GenEigsBase.m_niter (snd loop) = GenEigsBase.m_niter s
  /\ GenEigsBase.m_info (snd loop) = GenEigsBase.m_info s.
Proof.
  cbv zeta. set (s := Bench.started 6 2 5).
  set (loop := compute_until_sorting SmallestMagn 3 Bench.default_tol s).
  assert (fst loop = Ok (3, 1)) as Hfst by (vm_compute; reflexivity).
  split; [exact Hfst|].
  apply (compute_rejects_sorting_rule_after_the_loop SmallestMagn 3
           Bench.default_tol s (snd loop) 3 1).
  pose proof (surjective_pairing loop) as Hloop. rewrite Hfst in Hloop. exact Hloop.
Defined.



Lemma compute_real_stores_conjugate_blocks_witness :
  let out := UpperHessenbergEigen.compute Bench.keep_vectors
               BenchHessenberg.quarter_turn Bench.fresh in
  exists ev : list (Complex binary64.t),
    conjugate_blocks ev
    /\ Eigen.size ev = 2
    /\ UpperHessenbergEigen.m_eivalues (snd out)
       = UpperHessenbergEigen.scale_back (binary64.b64_of_Z 1) ev
    /\ UpperHessenbergEigen.m_eivalues (snd out)
       = [binary64.c 0 1; binary64.c 0 (-1)].
Proof.
  cbv zeta.
  destruct (compute_real_stores_conjugate_blocks Bench.keep_vectors
              BenchHessenberg.quarter_turn Bench.fresh (binary64.b64_of_Z 1)
              (Eigen.div_scalar BenchHessenberg.quarter_turn (binary64.b64_of_Z 1))
              (Eigen.identity (binary64.b64_of_Z 0) (binary64.b64_of_Z 1) 2 2))
    as (ev & Hblocks & Hsize & Hrun);
    [by_evaluation | by_evaluation | by_evaluation | by_shape |].
  exists ev. split; [exact Hblocks|]. split; [exact Hsize|].
  split; [rewrite Hrun; reflexivity | by_evaluation].
Defined.

Lemma eigenvectors_real_pairs_columns_witness :
  let s := snd (UpperHessenbergEigen.compute Bench.keep_vectors
                  BenchHessenberg.quarter_turn Bench.fresh) in
  UpperHessenbergEigen.m_eivalues s = [binary64.c 0 1; binary64.c 0 (-1)]
  /\ UpperHessenbergEigen.m_eivec s
     = Eigen.identity (binary64.b64_of_Z 0) (binary64.b64_of_Z 1) 2 2
  /\ fst (UpperHessenbergEigen.eigenvectors s)
     = Ok (Eigen.mkMatrix 2
             [UpperHessenbergEigen.normalize [binary64.c 1 0; binary64.c 0 1];
              UpperHessenbergEigen.normalize
                [mkComplex (binary64.b64_of_Z 1) (fneg (binary64.b64_of_Z 0));
                 mkComplex (binary64.b64_of_Z 0) (fneg (binary64.b64_of_Z 1))]]).
Proof.
  cbv zeta.
  set (s := snd (UpperHessenbergEigen.compute Bench.keep_vectors
                   BenchHessenberg.quarter_turn Bench.fresh)).
  assert (UpperHessenbergEigen.m_computed s = true) as Hcomputed by by_evaluation.
  pose proof (eigenvectors_real_pairs_columns s Hcomputed) as Hpairs.
  cbv zeta in Hpairs.
  destruct Hpairs as [Hrun _]; [by_shape | by_evaluation |].
  rewrite Hrun. cbn [fst]. by_evaluation.
Defined.

Lemma compute_complex_failure_leaves_stale_answers_witness :
  let s : UpperHessenbergEigenComplex.t (ComplexSchur0 := BenchHessenberg.stalled) :=
    UpperHessenbergEigenComplex.mkT 1 schur_default
      (Eigen.mkMatrix 1 [[binary64.c 1 0]]) [binary64.c 5 0] true in
  let out := UpperHessenbergEigenComplex.compute
               ComplexEigenvectors.eigenvectors_of BenchHessenberg.upper2 s in
  fst out
  = Throw (runtime_error "UpperHessenbergEigen: eigen decomposition failed")
  /\ eval UpperHessenbergEigenComplex.eigenvalues (snd out) = Ok [binary64.c 5 0]
  /\ eval UpperHessenbergEigenComplex.eigenvectors (snd out)
     = Ok (Eigen.identity (binary64.c 0 0) (binary64.c 1 0) 2 2).
Proof.
  cbv zeta.
  set (s := UpperHessenbergEigenComplex.mkT (ComplexSchur0 := BenchHessenberg.stalled)
              1 schur_default (Eigen.mkMatrix 1 [[binary64.c 1 0]])
              [binary64.c 5 0] true).
  assert (Eigen.rows BenchHessenberg.upper2 = Eigen.cols BenchHessenberg.upper2)
    as Hsq by by_evaluation.
  pose proof (compute_complex_failure_leaves_stale_answers
                ComplexEigenvectors.eigenvectors_of BenchHessenberg.upper2 s Hsq)
    as Hfail.
  cbv zeta in Hfail.
  destruct Hfail as (Hrun & _ & _ & Hstale); [reflexivity|].
  destruct Hstale as [Hvalues Hvectors]; [reflexivity|].
  rewrite Hrun. unfold eval. cbn [fst snd]. rewrite Hvalues, Hvectors.
  by_evaluation.
Defined.

Lemma triangular_solve_is_unit_upper_triangular_witness :
  exists X : Eigen.DenseMatrix (Complex binary64.t),
    ComplexEigenvectors.triangular_solve BenchHessenberg.upper2
      (binary64.b64_of_Z 2) 2 = Ok X
    /\ unit_upper_triangular 2 X
    /\ X = Eigen.mkMatrix 2 [[binary64.c 1 0; binary64.c 0 0];
                             [binary64.c 1 0; binary64.c 1 0]].
Proof.
  destruct (triangular_solve_is_unit_upper_triangular BenchHessenberg.upper2
              (binary64.b64_of_Z 2) 2) as (X & Hrun & Hunit); [by_shape|].
  exists X. split; [exact Hrun|]. split; [exact Hunit|].
  assert (Ok X = Ok (Eigen.mkMatrix 2 [[binary64.c 1 0; binary64.c 0 0];
                                       [binary64.c 1 0; binary64.c 1 0]])) as Heq
    by (rewrite <- Hrun; by_evaluation).
  now injection Heq.
Defined.

Lemma doComputeEigenvectors_complex_stays_in_range_witness :
  let V := ComplexEigenvectors.eigenvectors_of (binary64.b64_of_Z 2)
             BenchHessenberg.upper2_schur [binary64.c 1 0; binary64.c 2 0] in
  shaped 2 2 V
  /\ V = Eigen.mkMatrix 2
           [UpperHessenbergEigen.normalize [binary64.c 1 0; binary64.c 0 0];
            UpperHessenbergEigen.normalize [binary64.c 1 0; binary64.c 1 0]].
Proof.
  cbv zeta.
  pose proof (doComputeEigenvectors_complex_stays_in_range (binary64.b64_of_Z 2)
                BenchHessenberg.upper2_schur [binary64.c 1 0; binary64.c 2 0])
    as Hrange.
  cbv zeta in Hrange.
  destruct Hrange as (X & UX & _ & _ & _ & Hshape); [by_shape | by_shape |].
  split; [exact Hshape | by_evaluation].
Defined.

Lemma compute_complex_returns_on_schur_success_witness :
  let out := UpperHessenbergEigenComplex.compute
               ComplexEigenvectors.eigenvectors_of BenchHessenberg.upper2
               Bench.fresh_c in
  fst out = Ok tt
  /\ UpperHessenbergEigenComplex.m_eivalues (snd out)
     = [binary64.c 1 0; binary64.c 2 0]
  /\ magnitudes_ascend (UpperHessenbergEigenComplex.m_eivalues (snd out))
  /\ shaped 2 2 (UpperHessenbergEigenComplex.m_eivec (snd out)).
Proof.
  cbv zeta.
  assert (Eigen.rows BenchHessenberg.upper2 = Eigen.cols BenchHessenberg.upper2)
    as Hsq by by_evaluation.
  pose proof (compute_complex_returns_on_schur_success BenchHessenberg.upper2
                Bench.fresh_c Hsq) as Hok.
  cbv zeta in Hok.
  destruct Hok as (s' & d & Hrun & _ & _ & _ & _ & Hsorted & Hshape);
    [reflexivity | by_shape | by_shape |].
  rewrite Hrun. cbn [fst snd]. split; [reflexivity|].
  split; [| split; [exact Hsorted | exact Hshape]].
  assert (snd (UpperHessenbergEigenComplex.compute
                 ComplexEigenvectors.eigenvectors_of BenchHessenberg.upper2
                 Bench.fresh_c) = s') as <- by now rewrite Hrun.
  by_evaluation.
Defined.

Lemma doComputeEigenvectors_real_stays_in_range_witness :
  let ev := [binary64.c 0 1; binary64.c 0 (-1); binary64.c 2 0] in
  let V := Eigen.identity (binary64.b64_of_Z 0) (binary64.b64_of_Z 1) 3 3 in
  let out := RealEigenvectors.eigenvectors_of ev BenchHessenberg.turn_and_two V in
  RealEigenvectors.doComputeEigenvectors ev BenchHessenberg.turn_and_two V = Ok out
  /\ shaped 3 3 out.1 /\ shaped 3 3 out.2
  /\ Eigen.mcoeff out.1 2 2 = Ok (binary64.b64_of_Z 1)
  /\ Eigen.mcoeff out.1 1 0 = Ok (binary64.b64_of_Z 0).
Proof.
  cbv zeta.
  set (ev := [binary64.c 0 1; binary64.c 0 (-1); binary64.c 2 0]).
  set (V := Eigen.identity (binary64.b64_of_Z 0) (binary64.b64_of_Z 1) 3 3).
  pose proof (doComputeEigenvectors_real_stays_in_range ev
                BenchHessenberg.turn_and_two V) as Hrange.
  cbv zeta in Hrange.
  destruct Hrange as (norm & T' & V' & _ & Hrun & Hof & HT' & HV' & _);
    [by_shape | by_shape | by_evaluation |].
  split; [now rewrite Hof|]. split; [now rewrite Hof|]. split; [now rewrite Hof|].
  by_evaluation.
Defined.

Lemma back_transform_multiplies_given_columns_witness :
  let V := Eigen.identity (binary64.b64_of_Z 0) (binary64.b64_of_Z 1) 3 3 in
  exists V' : Eigen.DenseMatrix binary64.t,
    RealEigenvectors.back_transform 3 BenchHessenberg.turn_and_two V = Ok V'
    /\ Eigen.col V' 2 = RealEigenvectors.left_product V BenchHessenberg.turn_and_two 2
    /\ Eigen.col V' 2
       = Ok [binary64.b64_of_Z 1; binary64.b64_of_Z 1; binary64.b64_of_Z 2].
Proof.
  cbv zeta.
  destruct (back_transform_multiplies_given_columns 3 3 BenchHessenberg.turn_and_two
              (Eigen.identity (binary64.b64_of_Z 0) (binary64.b64_of_Z 1) 3 3))
    as (V' & Hrun & _ & Hcols); [by_shape | by_shape |].
  exists V'. split; [exact Hrun|]. split; [apply Hcols; lia|].
  rewrite Hcols by lia. by_evaluation.
Defined.

Lemma compute_real_then_queries_return_witness :
  let out := UpperHessenbergEigen.compute RealEigenvectors.eigenvectors_of
               BenchHessenberg.turn_and_two Bench.fresh in
  fst out = Ok tt
  /\ eval UpperHessenbergEigen.eigenvalues (snd out)
     = Ok [binary64.c 0 1; binary64.c 0 (-1); binary64.c 2 0]
  /\ exists matV : Eigen.DenseMatrix (Complex binary64.t),
       eval UpperHessenbergEigen.eigenvectors (snd out) = Ok matV
       /\ shaped 3 3 matV.
Proof.
  cbv zeta.
  pose proof (compute_real_then_queries_return BenchHessenberg.turn_and_two
                Bench.fresh (binary64.b64_of_Z 2)
                (Eigen.div_scalar BenchHessenberg.turn_and_two (binary64.b64_of_Z 2))
                (Eigen.identity (binary64.b64_of_Z 0) (binary64.b64_of_Z 1) 3 3))
    as Hqueries.
  cbv zeta in Hqueries.
  destruct Hqueries as (s' & Hrun & _ & _ & _ & _ & _ & (matV & HmatV & Hshape));
    [by_evaluation | by_evaluation | by_evaluation | by_shape | by_shape |].
  split; [now rewrite Hrun|]. split; [by_evaluation|].
  exists matV. rewrite Hrun. unfold eval. cbn [snd]. rewrite HmatV.
  split; [reflexivity | exact Hshape].
Defined.


(** In binary64 negating twice gives the value back, and a value and its
    opposite compare alike with zero. *)
Lemma binary64_opp_involutive (x : binary64.t) : fneg (fneg x) = x.
Proof.
  cbn [fneg binary64.scalar]. destruct x as [s|s| |s m e]; cbn [SFopp];
    now rewrite ?negb_involutive.
Qed.

Lemma binary64_opp_zero_test (x : binary64.t) :
  feq (fneg x) (of_Z 0) = feq x (of_Z 0).
Proof. destruct x as [s|s| |s m e]; try destruct s; reflexivity. Qed.

Lemma run_on_conjugate_blocks_stays_in_range_witness :
  let ritz_val := [binary64.c 7 0; binary64.c 0 1; binary64.c 0 (-1); binary64.c 2 0] in
  let shifts := [binary64.c 0 1; binary64.c 0 (-1); binary64.c 2 0] in
  let Q0 := Eigen.identity (binary64.b64_of_Z 0) (binary64.b64_of_Z 1) 4 4 in
  RestartArnoldi.pairs_closed shifts = true
  /\ RestartArnoldi.shift_schedule shifts
     = [RestartArnoldi.DoubleShift (binary64.b64_of_Z 0) (binary64.b64_of_Z 1);
        RestartArnoldi.SingleShift (binary64.b64_of_Z 2)]
  /\ exists (fac' : ArnoldiFac) (Q' : Eigen.DenseMatrix binary64.t),
       RestartArnoldi.run ritz_val 1 (fac_new 4 4) Q0 = Ok (fac', Q').
Proof.
  cbv zeta.
  pose proof (run_on_conjugate_blocks_stays_in_range
                [binary64.c 7 0; binary64.c 0 1; binary64.c 0 (-1); binary64.c 2 0] 1
                (fac_new 4 4)
                (Eigen.identity (binary64.b64_of_Z 0) (binary64.b64_of_Z 1) 4 4)
                eq_refl binary64_opp_involutive binary64_opp_zero_test) as Hrun.
  cbv zeta in Hrun.
  destruct Hrun as [Hclosed Hrun]; [lia | | |].
  - exact (blocks_pair (binary64.b64_of_Z 0) (binary64.b64_of_Z 1) _
             (blocks_real (binary64.b64_of_Z 2) [] blocks_nil)).
  - repeat constructor.
  - split; [exact Hclosed|]. split; [by_evaluation|].
    eexists _, _. exact Hrun.
Defined.

Lemma run_complex_always_returns_witness :
  let ritz_val := [binary64.c 7 0; binary64.c 0 1; binary64.c 2 0] in
  let Q0 := Eigen.identity (binary64.c 0 0) (binary64.c 1 0) 3 3 in
  let run := RestartArnoldiComplex.run (ComplexShiftQR0 := BenchHessenberg.shift_log_qr) in
  run ritz_val 1 [] Q0 = Ok ([binary64.c 0 1; binary64.c 2 0], Q0)
  /\ run ritz_val 3 [] Q0 = Ok ([], Q0).
Proof.
  cbv zeta. split.
  - destruct (run_complex_always_returns (ComplexShiftQR0 := BenchHessenberg.shift_log_qr)
                [binary64.c 7 0; binary64.c 0 1; binary64.c 2 0] 1 []
                (Eigen.identity (binary64.c 0 0) (binary64.c 1 0) 3 3))
      as [Hrun _]; [lia|].
    rewrite Hrun. reflexivity.
  - destruct (run_complex_always_returns (ComplexShiftQR0 := BenchHessenberg.shift_log_qr)
                [binary64.c 7 0; binary64.c 0 1; binary64.c 2 0] 3 []
                (Eigen.identity (binary64.c 0 0) (binary64.c 1 0) 3 3))
      as (_ & _ & Hnone); [lia|].
    apply Hnone. by_evaluation.
Defined.
